(** * Crossword CSP solver (crossword/generate.py): model and properties

    The development embeds the class [CrosswordCreator] of
    [crossword/generate.py]: node consistency, arc revision, AC-3,
    the ordering heuristics, the consistency check, the backtracking
    search and the grid of letters of an assignment.  The methods mutate [self.domains]; they are written in a small
    state-and-exception monad whose state is that attribute.  Python
    exceptions ([KeyError], [IndexError]) are outcomes of the monad, and the
    two unbounded loops (the AC-3 worklist and the recursion of [backtrack])
    run on a fuel that is shown to be sufficient. *)

From Stdlib Require Import List String Ascii Arith Bool Lia Sorted Permutation.
Import ListNotations.

Set Implicit Arguments.

(** ** Slot variables and the puzzle

    [crossword.py] (the classes [Variable] and [Crossword]) is not among
    the sources; the solver only reads what it builds. *)

Inductive Direction : Type := ACROSS | DOWN.

(** Modelled from the spec: the class [Variable] is missing with
    [crossword.py]; a slot variable is its starting row [i], starting
    column [j], direction and length, and two variables are equal when all
    four attributes are.  The record is named [Var], [Variable] being a
    command of Rocq. *)
Record Var : Type := mkVar {
  var_i : nat;
  var_j : nat;
  var_direction : Direction;
  var_length : nat
}.

Definition Var_eq_dec (x y : Var) : {x = y} + {x <> y}.
Proof. repeat decide equality. Defined.

Definition word : Type := string.

(** The puzzle is a parameter of the solver: [variables] is the set
    [crossword.variables] in its iteration order, [words] the set
    [crossword.words] in its iteration order, and [overlaps x y] the entry
    [crossword.overlaps[x, y]], [None] when the two variables share no
    cell. *)
Record Crossword : Type := mkCrossword {
  variables : list Var;
  words : list word;
  overlaps : Var -> Var -> option (nat * nat)
}.

(** Modelled from the spec: [Crossword.neighbors] is missing with
    [crossword.py]; the neighbour set of a variable is "the set of other
    variables with a non-null overlap with it", listed here in the order of
    [variables]. *)
Definition neighbors (cw : Crossword) (x : Var) : list Var :=
  filter (fun v => if Var_eq_dec v x then false
                   else match overlaps cw x v with Some _ => true | None => false end)
         (variables cw).

(** ** Python dictionaries keyed by variables

    A [dict] is the list of its items in insertion order.  [self.domains]
    maps a variable to a set of words, kept as the list of its elements in
    iteration order; an assignment maps a variable to a word. *)

Definition dict (V : Type) : Type := list (Var * V).

Section Dict.
Context {V : Type}.

Fixpoint dict_get (d : dict V) (k : Var) : option V :=
  match d with
  | [] => None
  | (k', v) :: d' => if Var_eq_dec k' k then Some v else dict_get d' k
  end.

Definition dict_keys (d : dict V) : list Var := map fst d.

(** [k in d] *)
Definition dict_mem (k : Var) (d : dict V) : bool :=
  match dict_get d k with Some _ => true | None => false end.

(** [d[k] = v]: overwrite in place, or append a new item. *)
Fixpoint dict_set (d : dict V) (k : Var) (v : V) : dict V :=
  match d with
  | [] => [(k, v)]
  | (k', v') :: d' =>
      if Var_eq_dec k' k then (k', v) :: d' else (k', v') :: dict_set d' k v
  end.

(** [d.pop(k)] on a present key: the item is dropped. *)
Fixpoint dict_pop (d : dict V) (k : Var) : dict V :=
  match d with
  | [] => []
  | (k', v') :: d' =>
      if Var_eq_dec k' k then d' else (k', v') :: dict_pop d' k
  end.

(** In-place update of the value stored under [k] (the value is a mutable
    set; the dictionary keeps its keys). *)
Definition dict_adjust (f : V -> V) (k : Var) (d : dict V) : dict V :=
  map (fun e => if Var_eq_dec (fst e) k then (fst e, f (snd e)) else e) d.
End Dict.

Definition Domains : Type := dict (list word).
Definition Assignment : Type := dict word.

(** [s.remove(w)] on a set [s] that holds [w]. *)
Definition set_remove (w : word) (s : list word) : list word :=
  filter (fun u => if string_dec u w then false else true) s.

(** [w in s] *)
Definition set_mem (w : word) (s : list word) : bool :=
  if in_dec string_dec w s then true else false.

(** ** The monad: state [self.domains], exceptions, fuel *)

Inductive exn : Type := KeyError | IndexError.

Inductive outcome (A : Type) : Type :=
| Val (a : A)
| Exn (e : exn)
| OutOfFuel.
Arguments Exn {A} e.
Arguments OutOfFuel {A}.

(** [searches] is a ghost counter: the number of calls of [backtrack]. *)
Record State : Type := mkState {
  domains : Domains;
  searches : nat
}.

Definition M (A : Type) : Type := State -> outcome A * State.

Definition ret {A} (a : A) : M A := fun s => (Val a, s).

Definition bind {A B} (m : M A) (f : A -> M B) : M B :=
  fun s =>
    match m s with
    | (Val a, s') => f a s'
    | (Exn e, s') => (Exn e, s')
    | (OutOfFuel, s') => (OutOfFuel, s')
    end.

Definition obind {A B} (o : outcome A) (f : A -> outcome B) : outcome B :=
  match o with
  | Val a => f a
  | Exn e => Exn e
  | OutOfFuel => OutOfFuel
  end.

Declare Scope py_scope.
Delimit Scope py_scope with py.
Notation "x <- m ;; k" := (bind m (fun x => k))
  (at level 61, m at next level, right associativity) : py_scope.
Notation "m ;; k" := (bind m (fun _ => k))
  (at level 61, right associativity) : py_scope.
Notation "x <-- o ;; k" := (obind o (fun x => k))
  (at level 61, o at next level, right associativity) : py_scope.
Local Open Scope py_scope.

(** A computation that does not touch the state. *)
Definition lift {A} (o : outcome A) : M A := fun s => (o, s).

(** A computation that only reads [self.domains]. *)
Definition reads {A} (f : Domains -> outcome A) : M A :=
  fun s => (f (domains s), s).

Fixpoint foldM {A B} (f : B -> A -> M B) (l : list A) (b : B) : M B :=
  match l with
  | [] => ret b
  | a :: l' => b' <- f b a ;; foldM f l' b'
  end.

(** [for a in l: body(a)] *)
Definition for_each {A} (l : list A) (body : A -> M unit) : M unit :=
  foldM (fun _ a => body a) l tt.

(** [self.domains[x]] *)
Definition lookup (D : Domains) (x : Var) : outcome (list word) :=
  match dict_get D x with
  | Some d => Val d
  | None => Exn KeyError
  end.

Definition get_dom (x : Var) : M (list word) := reads (fun D => lookup D x).

(** [self.domains[x].remove(w)] *)
Definition domain_remove (x : Var) (w : word) : M unit :=
  fun s =>
    match dict_get (domains s) x with
    | Some _ =>
        (Val tt, mkState (dict_adjust (set_remove w) x (domains s)) (searches s))
    | None => (Exn KeyError, s)
    end.

(** [w[i]] for a non-negative index. *)
Definition index (w : word) (i : nat) : outcome ascii :=
  match String.get i w with
  | Some c => Val c
  | None => Exn IndexError
  end.

(** [sorted(l, key=...)]: the stable sort, ties kept in their order in [l];
    [le a b] is [key(a) <= key(b)]. *)
Section Sorted.
Context {A : Type} (le : A -> A -> bool).

Fixpoint insert_sorted (a : A) (l : list A) : list A :=
  match l with
  | [] => [a]
  | b :: l' => if le a b then a :: b :: l' else b :: insert_sorted a l'
  end.

Fixpoint sorted (l : list A) : list A :=
  match l with
  | [] => []
  | a :: l' => insert_sorted a (sorted l')
  end.
End Sorted.

(** ** The solver *)

Section Creator.
Variable cw : Crossword.

(** [__init__]: every variable starts with a copy of the word list. *)
Definition init : State :=
  mkState (map (fun var => (var, words cw)) (variables cw)) 0.

(** [enforce_node_consistency] *)
Definition enforce_node_consistency : M unit :=
  fun s =>
    for_each (dict_keys (domains s)) (fun var =>
      domain_copy <- get_dom var ;;
      for_each domain_copy (fun word =>
        if Nat.eqb (String.length word) (var_length var) then ret tt
        else domain_remove var word)) s.

(** The inner loop of [revise]: is there a [Yword] with
    [Xword[i] == Yword[j]]?  It breaks at the first one. *)
Fixpoint has_support (i j : nat) (Xword : word) (ys : list word)
  : outcome bool :=
  match ys with
  | [] => Val false
  | Yword :: ys' =>
      a <-- index Xword i ;;
      b <-- index Yword j ;;
      if Ascii.eqb a b then Val true else has_support i j Xword ys'
  end.

(** [revise] *)
Definition revise (x y : Var) : M bool :=
  x_domain_copy <- get_dom x ;;
  match overlaps cw x y with
  | None => ret false
  | Some (i, j) =>
      foldM (fun revised Xword =>
               ys <- get_dom y ;;
               valid <- lift (has_support i j Xword ys) ;;
               if valid then ret revised
               else domain_remove x Xword ;; ret true)
            x_domain_copy false
  end.

(** The default worklist of [ac3]: all ordered pairs of distinct keys. *)
Definition all_arcs (D : Domains) : list (Var * Var) :=
  flat_map (fun v1 =>
    flat_map (fun v2 => if Var_eq_dec v1 v2 then [] else [(v1, v2)])
             (dict_keys D))
    (dict_keys D).

(** [self.crossword.neighbors(x) - {y}] *)
Definition neighbors_but (x y : Var) : list Var :=
  filter (fun z => if Var_eq_dec z y then false else true) (neighbors cw x).

(** The [while queue] loop of [ac3]. *)
Fixpoint ac3_loop (fuel : nat) (queue : list (Var * Var)) : M bool :=
  match fuel with
  | 0 => lift OutOfFuel
  | S fuel' =>
      match queue with
      | [] => ret true
      | (x, y) :: queue' =>
          revised <- revise x y ;;
          if revised then
            dx <- get_dom x ;;
            match dx with
            | [] => ret false
            | _ :: _ =>
                ac3_loop fuel'
                  (queue' ++ map (fun z => (z, x)) (neighbors_but x y))
            end
          else ac3_loop fuel' queue'
      end
  end.

Definition total_size (D : Domains) : nat :=
  list_sum (map (fun e => List.length (snd e)) D).

(** Enough fuel for the worklist: every turn either shortens the queue or
    removes a word and appends at most one arc per variable. *)
Definition ac3_fuel (D : Domains) (queue : list (Var * Var)) : nat :=
  S (List.length queue + total_size D * S (List.length (variables cw))).

(** [ac3]; [arcs = None] is the default argument. *)
Definition ac3 (arcs : option (list (Var * Var))) : M bool :=
  fun s =>
    let queue := match arcs with
                 | None => all_arcs (domains s)
                 | Some arcs => arcs
                 end in
    ac3_loop (ac3_fuel (domains s) queue) queue s.

(** [assignment_complete] *)
Definition assignment_complete (D : Domains) (assignment : Assignment)
  : bool :=
  forallb (fun var => dict_mem var assignment) (dict_keys D).

(** The loop over [self.crossword.neighbors(var)] in [consistent]:
    [Val false] is the early [return False]. *)
Fixpoint neighbors_agree (assignment : Assignment) (var : Var) (val : word)
         (ys : list Var) : outcome bool :=
  match ys with
  | [] => Val true
  | y :: ys' =>
      match dict_get assignment y with
      | None => neighbors_agree assignment var val ys'
      | Some wy =>
          match overlaps cw var y with
          | None => neighbors_agree assignment var val ys'
          | Some (i, j) =>
              a <-- index val i ;;
              b <-- index wy j ;;
              if Ascii.eqb a b then neighbors_agree assignment var val ys'
              else Val false
          end
      end
  end.

(** The loop over the items of the assignment in [consistent]. *)
Fixpoint consistent_loop (assignment : Assignment)
         (items : list (Var * word)) (distinct_values : list word)
  : outcome bool :=
  match items with
  | [] => Val true
  | (var, val) :: items' =>
      if negb (Nat.eqb (String.length val) (var_length var)) then Val false
      else
        ok <-- neighbors_agree assignment var val (neighbors cw var) ;;
        if negb ok then Val false
        else if set_mem val distinct_values then Val false
        else consistent_loop assignment items' (distinct_values ++ [val])
  end.

(** [consistent] *)
Definition consistent (assignment : Assignment) : outcome bool :=
  consistent_loop assignment assignment [].

(** The counter [c] of [order_domain_values]: the neighbours whose domain
    holds the word [x]. *)
Fixpoint count_ruled_out (D : Domains) (x : word) (ns : list Var) (c : nat)
  : outcome nat :=
  match ns with
  | [] => Val c
  | neighbor :: ns' =>
      d <-- lookup D neighbor ;;
      count_ruled_out D x ns' (if set_mem x d then S c else c)
  end.

Fixpoint collect_values (D : Domains) (ns : list Var) (xs : list word)
         (Dvalues : list (word * nat)) : outcome (list (word * nat)) :=
  match xs with
  | [] => Val Dvalues
  | x :: xs' =>
      c <-- count_ruled_out D x ns 0 ;;
      collect_values D ns xs' (Dvalues ++ [(x, c)])
  end.

(** [order_domain_values].  The test [x in assignment] looks the word [x]
    up among the keys of the assignment, which are variables and not
    words: it does not hold, and no word is skipped. *)
Definition order_domain_values (D : Domains) (var : Var)
           (assignment : Assignment) : outcome (list word) :=
  let neighbors := neighbors cw var in
  xs <-- lookup D var ;;
  Dvalues <-- collect_values D neighbors xs [] ;;
  let s := sorted (fun a b => Nat.leb (snd a) (snd b)) Dvalues in
  Val (map fst s).

Fixpoint collect_unassigned (D : Domains) (assignment : Assignment)
         (vars : list Var) (mrv : list (Var * nat * nat))
  : outcome (list (Var * nat * nat)) :=
  match vars with
  | [] => Val mrv
  | var :: vars' =>
      if dict_mem var assignment
      then collect_unassigned D assignment vars' mrv
      else
        d <-- lookup D var ;;
        let Dsize := List.length d in
        let Nsize := List.length (neighbors cw var) in
        collect_unassigned D assignment vars' (mrv ++ [(var, Dsize, Nsize)])
  end.

(** The order of the keys [(x[1], x[2])]: tuples compare
    lexicographically. *)
Definition key_le (a b : Var * nat * nat) : bool :=
  let '(_, d1, n1) := a in
  let '(_, d2, n2) := b in
  Nat.ltb d1 d2 || (Nat.eqb d1 d2 && Nat.leb n1 n2).

(** [select_unassigned_variable]; [s[0]] raises on the empty list. *)
Definition select_unassigned_variable (D : Domains)
           (assignment : Assignment) : outcome Var :=
  mrv <-- collect_unassigned D assignment (dict_keys D) [] ;;
  match sorted key_le mrv with
  | [] => Exn IndexError
  | (var, _, _) :: _ => Val var
  end.

(** The truth value of the result of a recursive call, [if result]:
    [None] and the empty dictionary are false. *)
Definition truthy (result : bool * Assignment) : bool :=
  fst result && match snd result with [] => false | _ :: _ => true end.

(** The ghost counter: one more call of [backtrack]. *)
Definition count_search : M unit :=
  fun s => (Val tt, mkState (domains s) (S (searches s))).

(** The loop [for val in ...] of [backtrack]; [recurse] is the recursive
    call [self.backtrack].  The dictionary [assignment] is one object,
    mutated in place and shared with the recursive calls: a computation
    takes its contents and returns, with its result, the contents at
    return.  The result is [true] for "the dictionary itself" and [false]
    for [None]. *)
Fixpoint try_values (recurse : Assignment -> M (bool * Assignment))
         (var : Var) (vals : list word) (assignment : Assignment)
  : M (bool * Assignment) :=
  match vals with
  | [] => ret (false, assignment)
  | val :: vals' =>
      let assignment := dict_set assignment var val in
      ok <- lift (consistent assignment) ;;
      if ok then
        result <- recurse assignment ;;
        if truthy result then ret result
        else if dict_mem var (snd result)
             then try_values recurse var vals' (dict_pop (snd result) var)
             else lift (Exn KeyError)
      else try_values recurse var vals' (dict_pop assignment var)
  end.

(** [backtrack] *)
Fixpoint backtrack (fuel : nat) (assignment : Assignment)
  : M (bool * Assignment) :=
  match fuel with
  | 0 => lift OutOfFuel
  | S fuel' =>
      count_search ;;
      complete <- reads (fun D => Val (assignment_complete D assignment)) ;;
      if complete then ret (true, assignment)
      else
        var <- reads (fun D => select_unassigned_variable D assignment) ;;
        vals <- reads (fun D => order_domain_values D var assignment) ;;
        try_values (backtrack fuel') var vals assignment
  end.

(** The value returned by [backtrack]. *)
Definition result_of (r : bool * Assignment) : option Assignment :=
  if fst r then Some (snd r) else None.

(** [solve]; the recursion of [backtrack] is at most one call deeper than
    the number of variables. *)
Definition solve : M (option Assignment) :=
  enforce_node_consistency ;;
  _ <- ac3 None ;;
  r <- (fun s => backtrack (S (List.length (domains s))) [] s) ;;
  ret (result_of r).
End Creator.

(** The body of the loop of [revise], and the worklist after a revision of
    [(x, y)] that removed a word. *)
Abbreviation revise_body x y i j :=
  (fun (revised : bool) (Xword : word) =>
     ys <- get_dom y ;;
     valid <- lift (has_support i j Xword ys) ;;
     if valid then ret revised
     else domain_remove x Xword ;; ret true).

Abbreviation requeue cw x y queue :=
  (queue ++ map (fun z => (z, x)) (neighbors_but cw x y)).

(** ** Properties of the specification *)

Unset Implicit Arguments.

(** Two words agree at the positions [(i, j)]: both letters exist and are
    the same. *)
Definition agree (i j : nat) (w u : word) : Prop :=
  exists c, String.get i w = Some c /\ String.get j u = Some c.

(** Every word of every domain has the length of its variable. *)
Definition node_consistent (D : Domains) : Prop :=
  forall v d w, dict_get D v = Some d -> In w d ->
                String.length w = var_length v.

(** [D'] has the keys of [D] and each of its domains is a part of the
    domain in [D]. *)
Definition shrinks (D D' : Domains) : Prop :=
  dict_keys D' = dict_keys D /\
  forall v d', dict_get D' v = Some d' ->
               exists d, dict_get D v = Some d /\ incl d' d.

(** The arc [(x, y)] is consistent in [D]. *)
Definition arc_ok (cw : Crossword) (D : Domains) (x y : Var) : Prop :=
  forall i j dx dy w,
    overlaps cw x y = Some (i, j) ->
    dict_get D x = Some dx -> dict_get D y = Some dy -> In w dx ->
    exists u, In u dy /\ agree i j w u.

Definition arc_consistent (cw : Crossword) (D : Domains) : Prop :=
  forall x y, x <> y -> arc_ok cw D x y.

(** The overlap table is symmetric. *)
Definition overlaps_symmetric (cw : Crossword) : Prop :=
  forall x y i j, overlaps cw x y = Some (i, j) -> overlaps cw y x = Some (j, i).

(** An assignment is complete: every variable has a word. *)
Definition complete (cw : Crossword) (a : Assignment) : Prop :=
  forall v, In v (variables cw) -> exists w, dict_get a v = Some w.

(** An assignment is consistent: lengths fit, overlapping letters are
    equal, no word is used twice. *)
Record consistent_spec (cw : Crossword) (a : Assignment) : Prop := {
  cs_length : forall v w, dict_get a v = Some w ->
                          String.length w = var_length v;
  cs_overlap : forall x y wx wy i j,
      x <> y -> dict_get a x = Some wx -> dict_get a y = Some wy ->
      overlaps cw x y = Some (i, j) -> agree i j wx wy;
  cs_distinct : forall x y wx wy,
      x <> y -> dict_get a x = Some wx -> dict_get a y = Some wy -> wx <> wy
}.

(** What a loop that removes from a set the words of a snapshot [l] failing
    [keep] leaves of the set. *)
Fixpoint prune (keep : word -> bool) (l : list word) (c : list word)
  : list word :=
  match l with
  | [] => c
  | w :: l' => prune keep l' (if keep w then c else set_remove w c)
  end.

(** The test of [enforce_node_consistency]. *)
Definition fits (v : Var) (w : word) : bool :=
  Nat.eqb (String.length w) (var_length v).

(** The words of [x] that [revise] keeps against the domain [ys]. *)
Definition keep_word (i j : nat) (ys : list word) (w : word) : bool :=
  match has_support i j w ys with
  | Val true => true
  | _ => false
  end.

(** The domain of a key, and the triple that [select_unassigned_variable]
    sorts: the variable, the size of its domain, its number of
    neighbours. *)
Definition domain_of (D : Domains) (v : Var) : list word :=
  match dict_get D v with
  | Some d => d
  | None => []
  end.

Definition info (cw : Crossword) (D : Domains) (v : Var) : Var * nat * nat :=
  (v, List.length (domain_of D v), List.length (neighbors cw v)).

(** The keys of [D] that the assignment leaves open. *)
Definition unassigned (D : Domains) (a : Assignment) : list Var :=
  filter (fun v => negb (dict_mem v a)) (dict_keys D).

(** The assignment [a] is a part of the assignment [sol]. *)
Definition agrees_with (sol a : Assignment) : Prop :=
  forall v w, dict_get a v = Some w -> dict_get sol v = Some w.

(** Every item of the assignment has a word of the length of its
    variable. *)
Definition lengths_ok (a : Assignment) : Prop :=
  forall v w, In (v, w) a -> String.length w = var_length v.

(** The positions of the overlap of two variables are positions of their
    words. *)
Definition overlaps_in_range (cw : Crossword) : Prop :=
  forall x y i j,
    In x (variables cw) -> In y (variables cw) -> x <> y ->
    overlaps cw x y = Some (i, j) -> i < var_length x /\ j < var_length y.

(** A search procedure leaves [self.domains] alone, hands the dictionary
    back as it got it when it returns [None], and does not return an empty
    dictionary when it got a non-empty one. *)
Definition restores (recurse : Assignment -> M (bool * Assignment)) : Prop :=
  forall a s,
    domains (snd (recurse a s)) = domains s /\
    match fst (recurse a s) with
    | Val (false, a') => a' = a
    | Val (true, a') => a <> [] -> a' <> []
    | _ => True
    end.

(** Every variable of [vars] has a word in [sol], and the word is in its
    domain. *)
Definition in_domains (D : Domains) (sol : Assignment) (vars : list Var)
  : Prop :=
  forall v, In v vars ->
    exists w d, dict_get sol v = Some w /\ dict_get D v = Some d /\ In w d.

(** ** Rendering: [letter_grid]

    [letter_grid] builds the two-dimensional array of the letters of an
    assignment; [print] and [save] read it.  The height and the width of
    the grid are attributes of the puzzle ([self.crossword.height],
    [self.crossword.width]) and are parameters here. *)

Definition Grid : Type := list (list (option ascii)).

(** [l[n] = a] on a list, for [n] inside the list. *)
Fixpoint replace_nth {A : Type} (n : nat) (a : A) (l : list A) : list A :=
  match l, n with
  | [], _ => []
  | _ :: l', 0 => a :: l'
  | b :: l', S n' => b :: replace_nth n' a l'
  end.

(** [letters[i][j] = c]: both subscripts raise outside the lists. *)
Definition set_cell (letters : Grid) (i j : nat) (c : ascii) : outcome Grid :=
  match nth_error letters i with
  | None => Exn IndexError
  | Some row =>
      if Nat.ltb j (List.length row)
      then Val (replace_nth i (replace_nth j (Some c) row) letters)
      else Exn IndexError
  end.

(** The loop [for k in range(len(word))] of [letter_grid]. *)
Fixpoint write_word (variable : Var) (word : word) (ks : list nat)
         (letters : Grid) : outcome Grid :=
  match ks with
  | [] => Val letters
  | k :: ks' =>
      let direction := var_direction variable in
      let i := var_i variable
               + (match direction with DOWN => k | ACROSS => 0 end) in
      let j := var_j variable
               + (match direction with ACROSS => k | DOWN => 0 end) in
      c <-- index word k ;;
      letters' <-- set_cell letters i j c ;;
      write_word variable word ks' letters'
  end.

(** The loop [for variable, word in assignment.items()]. *)
Fixpoint write_items (items : list (Var * word)) (letters : Grid)
  : outcome Grid :=
  match items with
  | [] => Val letters
  | (variable, word) :: items' =>
      letters' <-- write_word variable word (seq 0 (String.length word)) letters ;;
      write_items items' letters'
  end.

(** [letter_grid] *)
Definition letter_grid (height width : nat) (assignment : Assignment)
  : outcome Grid :=
  let letters := repeat (repeat None width) height in
  write_items assignment letters.

(** The cell of the letter [k] of a variable. *)
Definition cell (v : Var) (k : nat) : nat * nat :=
  match var_direction v with
  | ACROSS => (var_i v, var_j v + k)
  | DOWN => (var_i v + k, var_j v)
  end.

(** A cell of a grid of [h] rows and [w] columns. *)
Definition in_grid (h w : nat) (p : nat * nat) : Prop := fst p < h /\ snd p < w.

(** The letters of an assignment with their cells: [(r, c, x)] when some
    assigned word has the letter [x] at the cell [(r, c)]. *)
Definition word_letters (v : Var) (w : word) (ks : list nat)
  : list (nat * nat * ascii) :=
  flat_map (fun k => match String.get k w with
                     | Some x => [(cell v k, x)]
                     | None => []
                     end) ks.

Definition letters_of (a : Assignment) : list (nat * nat * ascii) :=
  flat_map (fun e => word_letters (fst e) (snd e)
                                  (seq 0 (String.length (snd e)))) a.

(** [letters[r][c]], when the cell is in the grid. *)
Definition grid_get (g : Grid) (r c : nat) : option (option ascii) :=
  match nth_error g r with
  | Some row => nth_error row c
  | None => None
  end.

(** A grid of [h] rows of [w] cells. *)
Definition rect (h w : nat) (g : Grid) : Prop :=
  List.length g = h /\ forall row, In row g -> List.length row = w.

(** The number that [order_domain_values] sorts a word by: the neighbours
    of [var] whose domain holds the word. *)
Definition ruled_out (cw : Crossword) (D : Domains) (var : Var) (w : word)
  : nat :=
  List.length (filter (fun n => set_mem w (domain_of D n)) (neighbors cw var)).

(** Some assigned word has the letter [x] at the cell [(r, c)]. *)
Definition letter_at (a : Assignment) (r c : nat) (x : ascii) : Prop :=
  exists v word k,
    In (v, word) a /\ String.get k word = Some x /\ cell v k = (r, c).

(** The letter that the writes [ws], done in their order, leave in the cell
    [(r, c)]: the last one written to it, if any. *)
Fixpoint last_write (ws : list (nat * nat * ascii)) (r c : nat)
  : option ascii :=
  match ws with
  | [] => None
  | (r', c', x) :: ws' =>
      match last_write ws' r c with
      | Some y => Some y
      | None => if Nat.eqb r' r && Nat.eqb c' c then Some x else None
      end
  end.

(** "bee" and "ear" in a grid of three rows and three columns. *)
Definition bee_grid : Grid :=
  [[Some "b"%char; Some "e"%char; Some "e"%char];
   [None; Some "a"%char; None];
   [None; Some "r"%char; None]].

(** ** Example puzzles *)

(** An overlap table with one crossing: the letter [i] of [a] is the letter
    [j] of [b]. *)
Definition crossing (a b : Var) (i j : nat) (x y : Var) : option (nat * nat) :=
  if Var_eq_dec x a then
    if Var_eq_dec y b then Some (i, j) else None
  else if Var_eq_dec x b then
    if Var_eq_dec y a then Some (j, i) else None
  else None.

(** "rain" across, and a three-letter word down from its third letter. *)
Definition rain_across : Var := mkVar 0 0 ACROSS 4.
Definition rain_down : Var := mkVar 0 2 DOWN 3.
Definition cw_rain : Crossword :=
  mkCrossword [rain_across; rain_down] ["rain"; "not"; "now"]%string
              (crossing rain_across rain_down 2 0).

(** "bee" across, and a three-letter word down from its second letter. *)
Definition bee_across : Var := mkVar 0 0 ACROSS 3.
Definition bee_down : Var := mkVar 0 1 DOWN 3.
Definition cw_bee : Crossword :=
  mkCrossword [bee_across; bee_down] ["bee"; "ear"; "eat"]%string
              (crossing bee_across bee_down 1 0).
Definition bee_ear : Assignment :=
  [(bee_across, "bee"%string); (bee_down, "ear"%string)].
Definition bee_eat : Assignment :=
  [(bee_across, "bee"%string); (bee_down, "eat"%string)].

(** Three slots that do not cross, and one word. *)
Definition cw_abc : Crossword :=
  mkCrossword [mkVar 0 0 ACROSS 3; mkVar 2 0 ACROSS 3; mkVar 4 0 ACROSS 3]
              ["abc"%string] (fun _ _ => None).

(** A corner (two slots crossing at their first letters) and a slot apart,
    all of length three. *)
Definition corner_across : Var := mkVar 0 0 ACROSS 3.
Definition corner_down : Var := mkVar 0 0 DOWN 3.
Definition apart : Var := mkVar 4 0 ACROSS 3.
Definition cw_corner : Crossword :=
  mkCrossword [corner_across; corner_down; apart] ["cat"; "cow"; "dog"]%string
              (crossing corner_across corner_down 0 0).

(** One slot and two words for it. *)
Definition lone : Var := mkVar 0 0 ACROSS 3.
Definition cw_lone : Crossword :=
  mkCrossword [lone] ["cat"; "dog"]%string (fun _ _ => None).

(** A slot across crossed at its ends by two slots down, three words for
    each of them, and a longer slot apart with one word. *)
Definition bar : Var := mkVar 0 0 ACROSS 3.
Definition left_post : Var := mkVar 0 0 DOWN 3.
Definition right_post : Var := mkVar 0 2 DOWN 3.
Definition long_apart : Var := mkVar 4 0 ACROSS 4.
Definition cw_gate : Crossword :=
  mkCrossword [bar; left_post; right_post; long_apart]
              ["aaa"; "aba"; "aca"; "zzzz"]%string
              (fun x y =>
                 match crossing bar left_post 0 0 x y with
                 | Some p => Some p
                 | None => crossing bar right_post 2 0 x y
                 end).

(** Stores that lack a variable of the "rain" puzzle: the slot down has no
    domain, and the slot across has one word or none. *)
Definition rain_only : State := mkState [(rain_across, ["rain"%string])] 0.
Definition rain_none : State := mkState [(rain_across, [])] 0.

(** The domains of a puzzle when the search starts. *)
Definition propagated (cw : Crossword) : State :=
  snd (ac3 cw None (snd (enforce_node_consistency (init cw)))).

(** A grid without slots. *)
Definition cw_empty : Crossword :=
  mkCrossword [] ["cat"; "dog"]%string (fun _ _ => None).

(** ** Dictionaries *)

Section DictFacts.
Context {V : Type}.
Implicit Types (d : dict V) (k : Var).

Lemma dict_get_In d k v : dict_get d k = Some v -> In (k, v) d.
Proof.
  induction d as [|[k' v'] d IH]; simpl; [discriminate|].
  destruct (Var_eq_dec k' k) as [->|]; [intros [= ->]; now left | auto].
Qed.

Lemma dict_get_keys d k : In k (dict_keys d) <-> dict_get d k <> None.
Proof.
  induction d as [|[k' v'] d IH]; simpl; [tauto|].
  destruct (Var_eq_dec k' k) as [->|n].
  - split; [discriminate | auto].
  - rewrite <- IH. split; [intros [e|]; [contradiction | assumption] | auto].
Qed.

Lemma dict_get_some_keys d k v : dict_get d k = Some v -> In k (dict_keys d).
Proof. intros H. apply dict_get_keys. congruence. Qed.

Lemma dict_keys_get d k : In k (dict_keys d) -> exists v, dict_get d k = Some v.
Proof.
  intros H. apply dict_get_keys in H.
  destruct (dict_get d k) as [v|]; [eauto | contradiction].
Qed.

Lemma dict_mem_true d k : dict_mem k d = true <-> In k (dict_keys d).
Proof.
  unfold dict_mem. rewrite dict_get_keys.
  destruct (dict_get d k); split; congruence.
Qed.

Lemma dict_mem_false d k : dict_mem k d = false <-> ~ In k (dict_keys d).
Proof.
  rewrite <- dict_mem_true. destruct (dict_mem k d); split; congruence.
Qed.

Lemma dict_adjust_keys f k d : dict_keys (dict_adjust f k d) = dict_keys d.
Proof.
  unfold dict_keys, dict_adjust. rewrite map_map. apply map_ext.
  intros [k' v]; simpl. now destruct (Var_eq_dec k' k).
Qed.

Lemma dict_adjust_get f k d k' :
  dict_get (dict_adjust f k d) k' =
  if Var_eq_dec k k' then option_map f (dict_get d k) else dict_get d k'.
Proof.
  induction d as [|[k0 v0] d IH]; simpl.
  - now destruct (Var_eq_dec k k').
  - destruct (Var_eq_dec k0 k) as [->|n]; simpl.
    + destruct (Var_eq_dec k k'); [reflexivity | assumption].
    + destruct (Var_eq_dec k0 k') as [->|n'].
      * destruct (Var_eq_dec k k'); [congruence | reflexivity].
      * assumption.
Qed.

Lemma dict_adjust_same f k d :
  dict_get (dict_adjust f k d) k = option_map f (dict_get d k).
Proof. rewrite dict_adjust_get. now destruct (Var_eq_dec k k). Qed.

Lemma dict_adjust_other f k d k' :
  k <> k' -> dict_get (dict_adjust f k d) k' = dict_get d k'.
Proof. intros H. rewrite dict_adjust_get. now destruct (Var_eq_dec k k'). Qed.

Lemma dict_adjust_compose f g k d :
  dict_adjust f k (dict_adjust g k d) = dict_adjust (fun v => f (g v)) k d.
Proof.
  unfold dict_adjust. rewrite map_map. apply map_ext.
  intros [k' v]; simpl. destruct (Var_eq_dec k' k) as [->|n]; simpl.
  - now destruct (Var_eq_dec k k).
  - now destruct (Var_eq_dec k' k).
Qed.

Lemma dict_adjust_id f k d : (forall v, f v = v) -> dict_adjust f k d = d.
Proof.
  intros H. unfold dict_adjust. rewrite <- (map_id d) at 2. apply map_ext.
  intros [k' v]; simpl. destruct (Var_eq_dec k' k); [now rewrite H | reflexivity].
Qed.

Lemma dict_set_get d k v k' :
  dict_get (dict_set d k v) k' =
  if Var_eq_dec k k' then Some v else dict_get d k'.
Proof.
  induction d as [|[k0 v0] d IH]; simpl.
  - reflexivity.
  - destruct (Var_eq_dec k0 k) as [->|n]; simpl.
    + now destruct (Var_eq_dec k k').
    + destruct (Var_eq_dec k0 k') as [->|n'].
      * destruct (Var_eq_dec k k'); [congruence | reflexivity].
      * assumption.
Qed.

Lemma dict_set_fresh d k v : ~ In k (dict_keys d) -> dict_set d k v = d ++ [(k, v)].
Proof.
  induction d as [|[k0 v0] d IH]; simpl; [reflexivity|].
  intros H. destruct (Var_eq_dec k0 k) as [->|n]; [tauto|].
  rewrite IH; tauto.
Qed.

Lemma dict_pop_fresh d k v : ~ In k (dict_keys d) -> dict_pop (d ++ [(k, v)]) k = d.
Proof.
  induction d as [|[k0 v0] d IH]; simpl.
  - now destruct (Var_eq_dec k k).
  - intros H. destruct (Var_eq_dec k0 k) as [->|n]; [tauto|].
    rewrite IH; tauto.
Qed.

Lemma dict_pop_set d k v : ~ In k (dict_keys d) -> dict_pop (dict_set d k v) k = d.
Proof. intros H. rewrite dict_set_fresh by assumption. now apply dict_pop_fresh. Qed.
End DictFacts.

(** ** Sets of words *)

Lemma set_mem_true w s : set_mem w s = true <-> In w s.
Proof.
  unfold set_mem. destruct (in_dec string_dec w s); split; intros H;
    solve [assumption | discriminate | reflexivity | contradiction].
Qed.

Lemma set_mem_false w s : set_mem w s = false <-> ~ In w s.
Proof.
  unfold set_mem. destruct (in_dec string_dec w s); split; intros H;
    solve [assumption | discriminate | reflexivity | contradiction].
Qed.

Lemma set_remove_In w s u : In u (set_remove w s) <-> In u s /\ u <> w.
Proof.
  unfold set_remove. rewrite filter_In.
  destruct (string_dec u w); split; intros [? ?]; split;
    solve [assumption | discriminate | reflexivity | contradiction].
Qed.

Lemma filter_all {A} (p : A -> bool) (l : list A) :
  (forall a, In a l -> p a = true) -> filter p l = l.
Proof.
  induction l as [|a l IH]; simpl; intros H; [reflexivity|].
  rewrite (H a) by now left. f_equal. apply IH. intros; apply H. now right.
Qed.

Lemma filter_filter {A} (p q : A -> bool) (l : list A) :
  filter p (filter q l) = filter (fun a => q a && p a) l.
Proof.
  induction l as [|a l IH]; simpl; [reflexivity|].
  destruct (q a); simpl; [destruct (p a)|]; now rewrite IH.
Qed.

Lemma filter_length_lt {A} (p : A -> bool) (l : list A) a :
  In a l -> p a = false -> List.length (filter p l) < List.length l.
Proof.
  induction l as [|b l IH]; simpl; [tauto|].
  intros [->|H] Hp.
  - rewrite Hp. pose proof (filter_length_le p l). lia.
  - destruct (p b); simpl; specialize (IH H Hp); lia.
Qed.

Lemma set_mem_cons w a l :
  set_mem w (a :: l) = if string_dec w a then true else set_mem w l.
Proof.
  destruct (string_dec w a) as [->|ne].
  - apply set_mem_true. now left.
  - destruct (set_mem w l) eqn:E.
    + apply set_mem_true. right. now apply set_mem_true.
    + apply set_mem_false. apply set_mem_false in E.
      intros [e|i]; [congruence | contradiction].
Qed.

Lemma prune_filter keep l c :
  prune keep l c = filter (fun w => keep w || negb (set_mem w l)) c.
Proof.
  revert c. induction l as [|a l IH]; intros c; cbn [prune].
  - symmetry. apply filter_all. intros w _. now rewrite orb_true_r.
  - rewrite IH. destruct (keep a) eqn:Ka.
    + apply filter_ext. intros w. rewrite set_mem_cons.
      destruct (string_dec w a) as [->|ne]; [now rewrite Ka | reflexivity].
    + unfold set_remove. rewrite filter_filter. apply filter_ext. intros w.
      rewrite set_mem_cons.
      destruct (string_dec w a) as [->|ne]; simpl; [now rewrite Ka | reflexivity].
Qed.

Lemma prune_self keep c : prune keep c c = filter keep c.
Proof.
  rewrite prune_filter. apply filter_ext_in. intros w H.
  apply set_mem_true in H. rewrite H. simpl. apply orb_false_r.
Qed.

(** ** The monad *)

(** A loop invariant [I] on the accumulator and the state, with [J] for the
    state in which a loop that raised has stopped. *)
Lemma foldM_inv {A B} (I : B -> State -> Prop) (J F : State -> Prop)
      (f : B -> A -> M B) (l : list A) :
  (forall a b s, In a l -> I b s ->
     match f b a s with
     | (Val b', s') => I b' s'
     | (Exn _, s') => J s'
     | (OutOfFuel, s') => F s'
     end) ->
  forall b s, I b s ->
    match foldM f l b s with
    | (Val b', s') => I b' s'
    | (Exn _, s') => J s'
    | (OutOfFuel, s') => F s'
    end.
Proof.
  induction l as [|a l IH]; intros Hf b s Hb; simpl.
  - exact Hb.
  - unfold bind. pose proof (Hf a b s (or_introl eq_refl) Hb) as H1.
    destruct (f b a s) as [[b'|e|] s']; try exact H1.
    apply IH; [|exact H1]. intros; apply Hf; [now right | assumption].
Qed.

(** ** Words *)

Lemma get_in_range (w : word) i : i < String.length w -> exists c, String.get i w = Some c.
Proof.
  revert i. induction w as [|a w IH]; simpl; intros i H; [lia|].
  destruct i as [|i]; [eauto|]. apply IH. lia.
Qed.

Lemma get_some_range (w : word) i c : String.get i w = Some c -> i < String.length w.
Proof.
  revert i. induction w as [|a w IH]; simpl; intros i H; [discriminate|].
  destruct i as [|i]; [lia|]. apply IH in H. lia.
Qed.

Lemma agree_sym i j w u : agree i j w u -> agree j i u w.
Proof. intros [c [H1 H2]]. exists c. tauto. Qed.

(** ** The inner loop of [revise] *)

Lemma has_support_fuel i j w ys : has_support i j w ys <> OutOfFuel.
Proof.
  induction ys as [|u ys IH]; simpl; [discriminate|].
  unfold index. destruct (String.get i w); simpl; [|discriminate].
  destruct (String.get j u); simpl; [|discriminate].
  destruct (Ascii.eqb _ _); [discriminate | assumption].
Qed.

Lemma has_support_true i j w ys :
  has_support i j w ys = Val true -> exists u, In u ys /\ agree i j w u.
Proof.
  induction ys as [|u ys IH]; simpl; [discriminate|].
  unfold index. destruct (String.get i w) as [a|] eqn:Ea; simpl; [|discriminate].
  destruct (String.get j u) as [b|] eqn:Eb; simpl; [|discriminate].
  destruct (Ascii.eqb a b) eqn:E.
  - intros _. apply Ascii.eqb_eq in E. subst b. exists u. split; [now left|].
    exists a. tauto.
  - intros H. destruct (IH H) as [u' [? ?]]. exists u'. split; [now right | assumption].
Qed.

Lemma has_support_false i j w ys :
  has_support i j w ys = Val false -> forall u, In u ys -> ~ agree i j w u.
Proof.
  induction ys as [|u ys IH]; simpl; [tauto|].
  unfold index. destruct (String.get i w) as [a|] eqn:Ea; simpl; [|discriminate].
  destruct (String.get j u) as [b|] eqn:Eb; simpl; [|discriminate].
  destruct (Ascii.eqb a b) eqn:E; [discriminate|].
  intros H u' [<-|Hin].
  - intros [c [H1 H2]]. apply Ascii.eqb_neq in E. congruence.
  - now apply IH.
Qed.

Lemma has_support_total i j w ys :
  i < String.length w -> (forall u, In u ys -> j < String.length u) ->
  exists b, has_support i j w ys = Val b.
Proof.
  intros Hi. induction ys as [|u ys IH]; simpl; intros Hj; [eauto|].
  unfold index. destruct (get_in_range w i Hi) as [a ->]. simpl.
  destruct (get_in_range u j (Hj u (or_introl eq_refl))) as [b ->]. simpl.
  destruct (Ascii.eqb a b); [eauto|]. apply IH. intros; apply Hj. now right.
Qed.

Lemma has_support_found i j w ys u :
  (forall u', In u' ys -> j < String.length u') ->
  In u ys -> agree i j w u -> has_support i j w ys = Val true.
Proof.
  intros Hj Hin Hag.
  assert (Hi : i < String.length w).
  { destruct Hag as [c [H _]]. eapply get_some_range; eassumption. }
  destruct (has_support_total i j w ys Hi Hj) as [[|] H]; [assumption|].
  exfalso. eapply has_support_false; eassumption.
Qed.

Lemma keep_word_true i j ys w :
  keep_word i j ys w = true -> exists u, In u ys /\ agree i j w u.
Proof.
  unfold keep_word. destruct (has_support i j w ys) as [[|]| |] eqn:E; try discriminate.
  intros _. now apply has_support_true.
Qed.

(** ** Node consistency *)

Lemma fits_true v w : fits v w = true <-> String.length w = var_length v.
Proof. unfold fits. apply Nat.eqb_eq. Qed.

Lemma nc_inner_loop var l : forall D n,
  dict_get D var <> None ->
  for_each l (fun word =>
      if Nat.eqb (String.length word) (var_length var) then ret tt
      else domain_remove var word) (mkState D n)
  = (Val tt, mkState (dict_adjust (prune (fits var) l) var D) n).
Proof.
  unfold for_each.
  induction l as [|w l IH]; intros D n HD; simpl.
  - unfold ret. now rewrite dict_adjust_id.
  - unfold bind at 1. fold (fits var w). destruct (fits var w) eqn:E.
    + unfold ret at 1. now apply IH.
    + unfold domain_remove at 1. simpl.
      destruct (dict_get D var) eqn:G; [|contradiction].
      rewrite IH.
      * now rewrite dict_adjust_compose.
      * rewrite dict_adjust_same, G. discriminate.
Qed.

Lemma nc_outer_loop : forall ks D n,
  (forall k, In k ks -> dict_get D k <> None) ->
  exists D',
    for_each ks (fun var =>
        domain_copy <- get_dom var ;;
        for_each domain_copy (fun word =>
          if Nat.eqb (String.length word) (var_length var) then ret tt
          else domain_remove var word)) (mkState D n)
    = (Val tt, mkState D' n) /\
    dict_keys D' = dict_keys D /\
    forall v, dict_get D' v =
              if in_dec Var_eq_dec v ks
              then option_map (filter (fits v)) (dict_get D v)
              else dict_get D v.
Proof.
  unfold for_each.
  induction ks as [|k ks IH]; intros D n Hks.
  - exists D. simpl. auto.
  - destruct (dict_get D k) as [d|] eqn:G; [|now destruct (Hks k (or_introl eq_refl))].
    set (D1 := dict_adjust (prune (fits k) d) k D).
    destruct (IH D1 n) as [D' [Hrun [Hkeys Hget]]].
    { intros k' Hk'. unfold D1. rewrite dict_adjust_get.
      destruct (Var_eq_dec k k') as [<-|]; [rewrite G; discriminate|].
      apply Hks. now right. }
    exists D'. split; [|split].
    + cbn [foldM]. unfold bind at 1. unfold bind at 1.
      unfold get_dom, reads, lookup. cbn [domains]. rewrite G.
      fold (for_each d (fun word =>
          if Nat.eqb (String.length word) (var_length k) then ret tt
          else domain_remove k word)).
      rewrite nc_inner_loop by (rewrite G; discriminate).
      exact Hrun.
    + rewrite Hkeys. apply dict_adjust_keys.
    + intros v. rewrite Hget. unfold D1. rewrite dict_adjust_get.
      destruct (Var_eq_dec k v) as [<-|ne].
      * rewrite G. cbn [option_map]. rewrite prune_self.
        destruct (in_dec Var_eq_dec k (k :: ks)) as [_|n'];
          [|exfalso; apply n'; now left].
        destruct (in_dec Var_eq_dec k ks); cbn [option_map]; [|reflexivity].
        rewrite filter_filter. f_equal. apply filter_ext. intros w.
        now destruct (fits k w).
      * destruct (in_dec Var_eq_dec v ks) as [i|n0], (in_dec Var_eq_dec v (k :: ks)) as [i'|n'];
          try reflexivity.
        -- exfalso. apply n'. now right.
        -- destruct i' as [e|]; [congruence | contradiction].
Qed.

Lemma enforce_node_consistency_spec s :
  exists D',
    enforce_node_consistency s = (Val tt, mkState D' (searches s)) /\
    dict_keys D' = dict_keys (domains s) /\
    forall v, dict_get D' v = option_map (filter (fits v)) (dict_get (domains s) v).
Proof.
  destruct s as [D n]. unfold enforce_node_consistency. cbn [domains searches].
  destruct (nc_outer_loop (dict_keys D) D n) as [D' [Hrun [Hkeys Hget]]].
  { intros k. apply dict_get_keys. }
  exists D'. split; [exact Hrun | split; [exact Hkeys|]].
  intros v. rewrite Hget. destruct (in_dec Var_eq_dec v (dict_keys D)) as [|n']; [reflexivity|].
  rewrite dict_get_keys in n'. destruct (dict_get D v); [|reflexivity].
  exfalso. apply n'. discriminate.
Qed.

Lemma enforce_node_consistency_nc s D' n :
  enforce_node_consistency s = (Val tt, mkState D' n) -> node_consistent D'.
Proof.
  destruct (enforce_node_consistency_spec s) as [D1 [Hrun [_ Hget]]].
  rewrite Hrun. intros [= <- _]. intros v d w Hd Hw.
  rewrite Hget in Hd. destruct (dict_get (domains s) v); [|discriminate].
  injection Hd as <-. apply filter_In in Hw. now apply fits_true.
Qed.

(** ** Stores that only shrink *)

Lemma shrinks_refl D : shrinks D D.
Proof. split; [reflexivity|]. intros v d Hd. exists d. split; [assumption | apply incl_refl]. Qed.

Lemma shrinks_trans D1 D2 D3 : shrinks D1 D2 -> shrinks D2 D3 -> shrinks D1 D3.
Proof.
  intros [K1 H1] [K2 H2]. split; [congruence|].
  intros v d3 Hd3. destruct (H2 v d3 Hd3) as [d2 [Hd2 I2]].
  destruct (H1 v d2 Hd2) as [d1 [Hd1 I1]].
  exists d1. split; [assumption | eapply incl_tran; eassumption].
Qed.

Lemma shrinks_adjust f x D : (forall c, incl (f c) c) -> shrinks D (dict_adjust f x D).
Proof.
  intros Hf. split; [apply dict_adjust_keys|].
  intros v d'. rewrite dict_adjust_get.
  destruct (Var_eq_dec x v) as [<-|ne].
  - destruct (dict_get D x) as [d|]; [|discriminate].
    intros [= <-]. exists d. split; [reflexivity | apply Hf].
  - intros H. exists d'. split; [assumption | apply incl_refl].
Qed.

Lemma shrinks_node_consistent D D' :
  shrinks D D' -> node_consistent D -> node_consistent D'.
Proof.
  intros [_ H] Hnc v d' w Hd' Hw.
  destruct (H v d' Hd') as [d [Hd Hi]]. eapply Hnc; [eassumption | now apply Hi].
Qed.

Lemma set_remove_incl w c : incl (set_remove w c) c.
Proof. intros u H. now apply set_remove_In in H. Qed.

Lemma set_remove_length w c : List.length (set_remove w c) <= List.length c.
Proof. apply filter_length_le. Qed.

Lemma set_remove_length_lt w c :
  In w c -> List.length (set_remove w c) < List.length c.
Proof.
  intros H. apply filter_length_lt with (a := w); [assumption|].
  now destruct (string_dec w w).
Qed.

Lemma total_size_adjust_le f x D :
  (forall c, List.length (f c) <= List.length c) ->
  total_size (dict_adjust f x D) <= total_size D.
Proof.
  intros Hf. unfold total_size, dict_adjust.
  induction D as [|[k d] D IH]; simpl; [lia|].
  destruct (Var_eq_dec k x); simpl; [specialize (Hf d)|]; lia.
Qed.

Lemma total_size_adjust_lt f x D d :
  (forall c, List.length (f c) <= List.length c) ->
  dict_get D x = Some d -> List.length (f d) < List.length d ->
  total_size (dict_adjust f x D) < total_size D.
Proof.
  intros Hf. unfold total_size, dict_adjust.
  induction D as [|[k d0] D IH]; simpl; [discriminate|].
  destruct (Var_eq_dec k x) as [->|ne]; simpl.
  - intros [= ->] Hlt. pose proof (total_size_adjust_le f x D Hf) as Hle.
    unfold total_size, dict_adjust in Hle. lia.
  - intros G Hlt. specialize (IH G Hlt). lia.
Qed.

(** ** Arc revision *)

Section Revise.
Variable cw : Crossword.

Lemma revise_unfold x y s :
  revise cw x y s =
  match dict_get (domains s) x with
  | None => (Exn KeyError, s)
  | Some dx =>
      match overlaps cw x y with
      | None => (Val false, s)
      | Some (i, j) => foldM (revise_body x y i j) dx false s
      end
  end.
Proof.
  unfold revise. unfold bind at 1. unfold get_dom at 1, reads at 1, lookup at 1.
  destruct (dict_get (domains s) x); [|reflexivity].
  destruct (overlaps cw x y) as [[i j]|]; reflexivity.
Qed.

Lemma revise_loop_cons x y i j ys w l b D n :
  dict_get D y = Some ys ->
  foldM (revise_body x y i j) (w :: l) b (mkState D n) =
  match has_support i j w ys with
  | Val true => foldM (revise_body x y i j) l b (mkState D n)
  | Val false =>
      match dict_get D x with
      | Some _ =>
          foldM (revise_body x y i j) l true
                (mkState (dict_adjust (set_remove w) x D) n)
      | None => (Exn KeyError, mkState D n)
      end
  | Exn e => (Exn e, mkState D n)
  | OutOfFuel => (OutOfFuel, mkState D n)
  end.
Proof.
  intros Hy. cbn [foldM]. unfold bind at 1. unfold bind at 1.
  unfold get_dom at 1, reads at 1, lookup at 1. cbn [domains]. rewrite Hy.
  unfold bind at 1, lift at 1.
  destruct (has_support i j w ys) as [[|]|e|]; try reflexivity.
  unfold bind at 1, domain_remove at 1. cbn [domains searches].
  destruct (dict_get D x); reflexivity.
Qed.

(** The loop of [revise] on a snapshot [l], for distinct keys [x], [y]:
    it stops at the first word on which the inner loop raises, having
    pruned the prefix before it. *)
Lemma revise_loop_exact x y i j ys :
  x <> y ->
  forall l b D n,
    dict_get D y = Some ys -> dict_get D x <> None ->
    exists l1 l2,
      l = l1 ++ l2 /\
      snd (foldM (revise_body x y i j) l b (mkState D n)) =
        mkState (dict_adjust (prune (keep_word i j ys) l1) x D) n /\
      (forall w, In w l1 -> exists v, has_support i j w ys = Val v) /\
      match fst (foldM (revise_body x y i j) l b (mkState D n)) with
      | Val b' =>
          l2 = [] /\ b' = b || existsb (fun w => negb (keep_word i j ys w)) l
      | Exn e => exists w, In w l /\ has_support i j w ys = Exn e
      | OutOfFuel => False
      end.
Proof.
  intros Hxy. induction l as [|w l IH]; intros b D n Hy Hx.
  - exists [], []. simpl. rewrite dict_adjust_id by reflexivity.
    rewrite orb_false_r. repeat split. intros w [].
  - rewrite (revise_loop_cons x y i j ys w l b D n Hy).
    destruct (has_support i j w ys) as [[|]|e|] eqn:E.
    + assert (K : keep_word i j ys w = true) by (unfold keep_word; now rewrite E).
      destruct (IH b D n Hy Hx) as [l1 [l2 [Hl [Hs [Hv Hr]]]]].
      exists (w :: l1), l2. split; [simpl; congruence|]. split; [|split].
      * rewrite Hs. cbn [prune]. now rewrite K.
      * intros w' [<-|Hin]; [eauto | auto].
      * destruct (fst _); [|destruct Hr as [w' [? ?]]; exists w'; split; [now right | assumption] | assumption].
        destruct Hr as [-> ->]. split; [reflexivity|].
        cbn [existsb]. now rewrite K.
    + destruct (dict_get D x) eqn:G; [|contradiction].
      assert (K : keep_word i j ys w = false) by (unfold keep_word; now rewrite E).
      destruct (IH true (dict_adjust (set_remove w) x D) n) as [l1 [l2 [Hl [Hs [Hv Hr]]]]].
      { rewrite dict_adjust_other by assumption. assumption. }
      { rewrite dict_adjust_same, G. discriminate. }
      exists (w :: l1), l2. split; [simpl; congruence|]. split; [|split].
      * rewrite Hs. rewrite dict_adjust_compose. cbn [prune]. now rewrite K.
      * intros w' [<-|Hin]; [eauto | auto].
      * destruct (fst _); [|destruct Hr as [w' [? ?]]; exists w'; split; [now right | assumption] | assumption].
        destruct Hr as [-> ->]. split; [reflexivity|].
        cbn [existsb]. rewrite K. simpl. now rewrite orb_true_r.
    + exists [], (w :: l). cbn [fst snd]. rewrite dict_adjust_id by reflexivity.
      split; [reflexivity|]. split; [reflexivity|]. split; [intros ? []|].
      exists w. split; [now left | assumption].
    + now apply has_support_fuel in E.
Qed.

(** [revise] on distinct keys with an overlap, when it returns. *)
Lemma revise_exact x y i j dx dy s b s' :
  x <> y -> overlaps cw x y = Some (i, j) ->
  dict_get (domains s) x = Some dx -> dict_get (domains s) y = Some dy ->
  revise cw x y s = (Val b, s') ->
  s' = mkState (dict_adjust (prune (keep_word i j dy) dx) x (domains s)) (searches s) /\
  (forall w, In w dx -> exists v, has_support i j w dy = Val v) /\
  b = existsb (fun w => negb (keep_word i j dy w)) dx.
Proof.
  intros Hxy Hov Hx Hy. rewrite revise_unfold, Hx, Hov.
  destruct s as [D n]. cbn [domains searches] in *.
  destruct (revise_loop_exact x y i j dy Hxy dx false D n Hy) as [l1 [l2 [Hl [Hs [Hv Hr]]]]].
  { rewrite Hx. discriminate. }
  intros Hrun. rewrite Hrun in Hs, Hr. cbn [fst snd] in Hs, Hr.
  destruct Hr as [-> ->]. rewrite app_nil_r in Hl. subst l1. auto.
Qed.

(** [revise] returns when the letters it reads exist. *)
Lemma revise_total x y i j dx dy s :
  x <> y -> overlaps cw x y = Some (i, j) ->
  dict_get (domains s) x = Some dx -> dict_get (domains s) y = Some dy ->
  (forall w, In w dx -> i < String.length w) ->
  (forall u, In u dy -> j < String.length u) ->
  exists b s', revise cw x y s = (Val b, s').
Proof.
  intros Hxy Hov Hx Hy Hi Hj. rewrite revise_unfold, Hx, Hov.
  destruct s as [D n]. cbn [domains searches] in *.
  destruct (revise_loop_exact x y i j dy Hxy dx false D n Hy) as [l1 [l2 [Hl [Hs [Hv Hr]]]]].
  { rewrite Hx. discriminate. }
  destruct (foldM _ dx false _) as [[b| e |] s']; cbn [fst] in Hr.
  - eauto.
  - exfalso. destruct Hr as [w [Hw He]].
    destruct (has_support_total i j w dy (Hi w Hw) Hj) as [v Hv']. congruence.
  - contradiction.
Qed.

Lemma revise_no_overlap x y s :
  overlaps cw x y = None -> dict_get (domains s) x <> None ->
  revise cw x y s = (Val false, s).
Proof.
  intros Hov Hx. rewrite revise_unfold.
  destruct (dict_get (domains s) x); [|contradiction]. now rewrite Hov.
Qed.

(** Whatever its arguments and its outcome, [revise] only removes words
    from [self.domains[x]]; it removes one when it returns [True] and none
    when it returns [False]. *)
Lemma revise_frame x y s :
  searches (snd (revise cw x y s)) = searches s /\
  shrinks (domains s) (domains (snd (revise cw x y s))) /\
  total_size (domains (snd (revise cw x y s))) <= total_size (domains s) /\
  (fst (revise cw x y s) = Val true ->
     total_size (domains (snd (revise cw x y s))) < total_size (domains s)) /\
  (fst (revise cw x y s) = Val false -> snd (revise cw x y s) = s) /\
  fst (revise cw x y s) <> OutOfFuel.
Proof.
  assert (Hsame : searches s = searches s /\ shrinks (domains s) (domains s) /\
                  total_size (domains s) <= total_size (domains s))
    by (split; [reflexivity | split; [apply shrinks_refl | lia]]).
  rewrite revise_unfold.
  destruct (dict_get (domains s) x) as [dx|] eqn:Hx; cbn [fst snd].
  2:{ repeat split; try apply Hsame; try discriminate. }
  destruct (overlaps cw x y) as [[i j]|]; cbn [fst snd].
  2:{ repeat split; try apply Hsame; try discriminate. }
  pose (J := fun s1 : State =>
    searches s1 = searches s /\ shrinks (domains s) (domains s1) /\
    total_size (domains s1) <= total_size (domains s)).
  pose (I := fun (b : bool) (s1 : State) =>
    J s1 /\ (b = true -> total_size (domains s1) < total_size (domains s)) /\
    (b = false -> s1 = s)).
  assert (H : match foldM (revise_body x y i j) dx false s with
              | (Val b', s') => I b' s'
              | (Exn _, s') => J s'
              | (OutOfFuel, _) => False
              end).
  { apply (foldM_inv I (fun s1 => J s1) (fun _ => False)).
    - intros w b s1 Hw [HJ [Ht Hf]].
      unfold bind at 1. unfold get_dom at 1, reads at 1, lookup at 1.
      destruct (dict_get (domains s1) y) as [ys|]; [|exact HJ].
      unfold bind at 1, lift at 1.
      destruct (has_support i j w ys) as [[|]|e|] eqn:E; [ | | exact HJ | now apply has_support_fuel in E ].
      + unfold ret. repeat split; try apply HJ; assumption.
      + unfold bind at 1. unfold domain_remove at 1.
        destruct (dict_get (domains s1) x) as [d1|] eqn:G1; [|exact HJ].
        unfold ret. destruct HJ as [HJ1 [HJ2 HJ3]].
        assert (Hle : total_size (dict_adjust (set_remove w) x (domains s1))
                      <= total_size (domains s1))
          by (apply total_size_adjust_le; apply set_remove_length).
        split; [split; [exact HJ1 | split]| split].
        * eapply shrinks_trans; [exact HJ2|]. apply shrinks_adjust, set_remove_incl.
        * cbn [domains]. lia.
        * intros _. cbn [domains]. destruct b.
          -- specialize (Ht eq_refl). lia.
          -- rewrite (Hf eq_refl) in *. rewrite Hx in G1. injection G1 as <-.
             apply total_size_adjust_lt with (d := dx);
               [apply set_remove_length | assumption | now apply set_remove_length_lt].
        * discriminate.
    - split; [exact Hsame | split; [discriminate | reflexivity]]. }
  destruct (foldM _ dx false s) as [[b'|e|] s']; cbn [fst snd].
  - destruct H as [[H1 [H2 H3]] [H4 H5]].
    repeat split; try assumption; try discriminate.
    + apply H2.
    + apply H2.
    + intros [= ->]. now apply H4.
    + intros [= ->]. now apply H5.
  - destruct H as [H1 [H2 H3]].
    repeat split; try assumption; try discriminate; apply H2.
  - contradiction.
Qed.
End Revise.

(** ** The worklist of AC-3 *)

Section AC3.
Variable cw : Crossword.

Lemma ac3_loop_cons fuel x y queue s :
  ac3_loop cw (S fuel) ((x, y) :: queue) s =
  match revise cw x y s with
  | (Val true, s1) =>
      match dict_get (domains s1) x with
      | Some [] => (Val false, s1)
      | Some (_ :: _) => ac3_loop cw fuel (requeue cw x y queue) s1
      | None => (Exn KeyError, s1)
      end
  | (Val false, s1) => ac3_loop cw fuel queue s1
  | (Exn e, s1) => (Exn e, s1)
  | (OutOfFuel, s1) => (OutOfFuel, s1)
  end.
Proof.
  cbn [ac3_loop]. unfold bind at 1.
  destruct (revise cw x y s) as [[[|]|e|] s1]; try reflexivity.
  unfold bind at 1, get_dom at 1, reads at 1, lookup at 1.
  destruct (dict_get (domains s1) x) as [[|w d]|]; reflexivity.
Qed.

(** An invariant [P] of the worklist and the store, and what it gives
    ([R]) of the outcome and the final store. *)
Lemma ac3_loop_inv (P : list (Var * Var) -> State -> Prop)
      (R : outcome bool -> State -> Prop) :
  (forall s, P [] s -> R (Val true) s) ->
  (forall queue s, P queue s -> R OutOfFuel s) ->
  (forall x y queue s, P ((x, y) :: queue) s ->
     match revise cw x y s with
     | (Val true, s1) =>
         match dict_get (domains s1) x with
         | Some [] => R (Val false) s1
         | Some (_ :: _) => P (requeue cw x y queue) s1
         | None => R (Exn KeyError) s1
         end
     | (Val false, s1) => P queue s1
     | (Exn e, s1) => R (Exn e) s1
     | (OutOfFuel, s1) => R OutOfFuel s1
     end) ->
  forall fuel queue s, P queue s ->
    R (fst (ac3_loop cw fuel queue s)) (snd (ac3_loop cw fuel queue s)).
Proof.
  intros Hnil Hfuel Hstep.
  induction fuel as [|fuel IH]; intros queue s HP.
  - simpl. now apply Hfuel with (queue := queue).
  - destruct queue as [|[x y] queue].
    + simpl. now apply Hnil.
    + rewrite ac3_loop_cons. specialize (Hstep x y queue s HP).
      destruct (revise cw x y s) as [[[|]|e|] s1]; cbn [fst snd]; auto.
      destruct (dict_get (domains s1) x) as [[|w d]|]; cbn [fst snd]; auto.
Qed.

(** AC-3 only removes words, whatever the worklist and the outcome. *)
Lemma ac3_loop_frame fuel queue s :
  searches (snd (ac3_loop cw fuel queue s)) = searches s /\
  shrinks (domains s) (domains (snd (ac3_loop cw fuel queue s))).
Proof.
  apply (ac3_loop_inv
           (fun _ s1 => searches s1 = searches s /\ shrinks (domains s) (domains s1))
           (fun _ s1 => searches s1 = searches s /\ shrinks (domains s) (domains s1)));
    [tauto | tauto | | split; [reflexivity | apply shrinks_refl]].
  intros x y q s0 [Hs Hd].
  destruct (revise_frame cw x y s0) as [F1 [F2 _]].
  assert (H : searches (snd (revise cw x y s0)) = searches s /\
              shrinks (domains s) (domains (snd (revise cw x y s0)))).
  { split; [congruence | eapply shrinks_trans; eassumption]. }
  destruct (revise cw x y s0) as [[[|]|e|] s1]; cbn [snd] in H; try exact H.
  destruct (dict_get (domains s1) x) as [[|w d]|]; exact H.
Qed.

Lemma neighbors_but_length x y :
  List.length (neighbors_but cw x y) <= List.length (variables cw).
Proof.
  unfold neighbors_but, neighbors.
  etransitivity; [apply filter_length_le | apply filter_length_le].
Qed.

(** The fuel of [ac3] is enough. *)
Lemma ac3_loop_fuel : forall fuel queue s,
  List.length queue + total_size (domains s) * S (List.length (variables cw)) < fuel ->
  fst (ac3_loop cw fuel queue s) <> OutOfFuel.
Proof.
  induction fuel as [|fuel IH]; intros queue s Hlt; [lia|].
  destruct queue as [|[x y] queue]; [simpl; discriminate|].
  rewrite ac3_loop_cons.
  destruct (revise_frame cw x y s) as [_ [_ [F3 [F4 [F5 F6]]]]].
  destruct (revise cw x y s) as [[[|]|e|] s1]; cbn [fst snd] in *;
    try discriminate.
  - specialize (F4 eq_refl).
    destruct (dict_get (domains s1) x) as [[|w d]|]; cbn [fst]; try discriminate.
    apply IH. rewrite length_app, length_map.
    pose proof (neighbors_but_length x y). simpl in Hlt. nia.
  - rewrite (F5 eq_refl). apply IH. simpl in Hlt. lia.
  - now apply F6.
Qed.

Lemma ac3_fuel_enough arcs s : fst (ac3 cw arcs s) <> OutOfFuel.
Proof. unfold ac3. apply ac3_loop_fuel. unfold ac3_fuel. lia. Qed.

Lemma ac3_frame arcs s :
  searches (snd (ac3 cw arcs s)) = searches s /\
  shrinks (domains s) (domains (snd (ac3 cw arcs s))).
Proof. unfold ac3. apply ac3_loop_frame. Qed.

(** When AC-3 returns [False], a domain is empty. *)
Lemma ac3_loop_false fuel queue s :
  fst (ac3_loop cw fuel queue s) = Val false ->
  exists x, dict_get (domains (snd (ac3_loop cw fuel queue s))) x = Some [].
Proof.
  apply (ac3_loop_inv (fun _ _ => True)
           (fun o s1 => o = Val false -> exists x, dict_get (domains s1) x = Some []));
    try discriminate; [|exact I].
  intros x y q s0 _.
  destruct (revise cw x y s0) as [[[|]|e|] s1]; try discriminate; try exact I.
  destruct (dict_get (domains s1) x) as [[|w d]|] eqn:G; try discriminate; try exact I.
  intros _. now exists x.
Qed.

Lemma all_arcs_In D x y :
  In (x, y) (all_arcs D) <-> In x (dict_keys D) /\ In y (dict_keys D) /\ x <> y.
Proof.
  unfold all_arcs. rewrite in_flat_map. split.
  - intros [v1 [H1 H2]]. apply in_flat_map in H2. destruct H2 as [v2 [H2 H3]].
    destruct (Var_eq_dec v1 v2); [contradiction|].
    destruct H3 as [[= <- <-]|[]]. auto.
  - intros [H1 [H2 H3]]. exists x. split; [assumption|].
    apply in_flat_map. exists y. split; [assumption|].
    destruct (Var_eq_dec x y); [contradiction | now left].
Qed.
End AC3.

(** ** AC-3 reaches arc consistency *)

Section ArcConsistency.
Variable cw : Crossword.
Hypothesis Hsym : overlaps_symmetric cw.

Lemma neighbors_In x z :
  In z (neighbors cw x) <->
  In z (variables cw) /\ z <> x /\ overlaps cw x z <> None.
Proof.
  unfold neighbors. rewrite filter_In.
  destruct (Var_eq_dec z x) as [->|ne].
  - split; [intros [_ H]; discriminate | intros [_ [H _]]; contradiction].
  - destruct (overlaps cw x z).
    + split; intros [H _]; repeat split; try assumption; discriminate.
    + split; [intros [_ H]; discriminate | intros [_ [_ H]]; contradiction].
Qed.

Lemma neighbors_but_In x y z :
  In z (neighbors_but cw x y) <-> In z (neighbors cw x) /\ z <> y.
Proof.
  unfold neighbors_but. rewrite filter_In.
  destruct (Var_eq_dec z y); split; intros [H1 H2]; split;
    solve [assumption | discriminate | reflexivity | contradiction].
Qed.

(** One turn of the worklist keeps "every arc is in the queue or
    consistent". *)
Lemma revise_arcs x y i j dx dy s b s1 queue :
  incl (dict_keys (domains s)) (variables cw) ->
  x <> y -> overlaps cw x y = Some (i, j) ->
  dict_get (domains s) x = Some dx -> dict_get (domains s) y = Some dy ->
  revise cw x y s = (Val b, s1) ->
  (forall a c, a <> c -> In (a, c) ((x, y) :: queue) \/ arc_ok cw (domains s) a c) ->
  forall a c, a <> c ->
    In (a, c) (if b then queue ++ map (fun z => (z, x)) (neighbors_but cw x y)
               else queue)
    \/ arc_ok cw (domains s1) a c.
Proof.
  intros Hkeys Hxy Hov Hx Hy Hrun Hinv a c Hac.
  destruct (revise_exact cw x y i j dx dy s b s1 Hxy Hov Hx Hy Hrun) as [Hs1 [Hv Hb]].
  assert (Gx : dict_get (domains s1) x = Some (filter (keep_word i j dy) dx)).
  { rewrite Hs1. cbn [domains]. rewrite dict_adjust_same, Hx. simpl.
    now rewrite prune_self. }
  assert (Go : forall v, v <> x -> dict_get (domains s1) v = dict_get (domains s) v).
  { intros v Hv'. rewrite Hs1. cbn [domains]. apply dict_adjust_other. congruence. }
  (* the arc just revised *)
  assert (Hxy_ok : arc_ok cw (domains s1) x y).
  { intros i' j' dx' dy' w Hov' Hdx' Hdy' Hw.
    rewrite Hov in Hov'. injection Hov' as <- <-.
    rewrite Gx in Hdx'. injection Hdx' as <-.
    rewrite Go, Hy in Hdy' by congruence. injection Hdy' as <-.
    apply filter_In in Hw. now apply keep_word_true. }
  destruct (Var_eq_dec a x) as [->|Hax].
  - (* arcs out of x: its domain shrank, the other one did not change *)
    destruct (Var_eq_dec c y) as [->|Hcy]; [now right|].
    destruct (Hinv x c Hac) as [[E|Hin]|Hok].
    + congruence.
    + left. destruct b; [apply in_or_app; now left | assumption].
    + right. intros i' j' dx' dc w Hov' Hdx' Hdc Hw.
      rewrite Gx in Hdx'. injection Hdx' as <-.
      rewrite Go in Hdc by congruence.
      apply filter_In in Hw. destruct Hw as [Hw _].
      exact (Hok i' j' dx dc w Hov' Hx Hdc Hw).
  - destruct (Var_eq_dec c x) as [->|Hcx].
    + (* arcs into x *)
      destruct (Hinv a x Hac) as [[E|Hin]|Hok].
      * congruence.
      * left. destruct b; [apply in_or_app; now left | assumption].
      * destruct (overlaps cw a x) as [[i' j']|] eqn:Hov'.
        2:{ right. intros ? ? ? ? ? Hov''. congruence. }
        destruct (Var_eq_dec a y) as [->|Hay].
        -- (* the reverse arc stays consistent: a supported word of y
              supports back *)
           right. intros i2 j2 dy' dx' u Hov2 Hdy' Hdx' Hu.
           rewrite Hov' in Hov2. injection Hov2 as <- <-.
           rewrite Go, Hy in Hdy' by congruence. injection Hdy' as <-.
           rewrite Gx in Hdx'. injection Hdx' as <-.
           destruct (Hok i' j' dy dx u Hov' Hy Hx Hu) as [w [Hw Hag]].
           exists w. split; [|assumption].
           apply filter_In. split; [assumption|].
           pose proof (Hsym y x i' j' Hov') as Hov3.
           rewrite Hov in Hov3. injection Hov3 as -> ->.
           unfold keep_word. destruct (Hv w Hw) as [[|] Hsup]; rewrite Hsup; [reflexivity|].
           exfalso. apply (has_support_false j' i' w dy Hsup u Hu).
           now apply agree_sym.
        -- destruct b.
           ++ destruct (dict_get (domains s) a) as [da|] eqn:Ga.
              ** left. apply in_or_app. right. apply in_map_iff. exists a.
                 split; [reflexivity|]. apply neighbors_but_In. split; [|assumption].
                 apply neighbors_In. split; [|split; [assumption|]].
                 --- apply Hkeys. eapply dict_get_some_keys; eassumption.
                 --- rewrite (Hsym a x i' j' Hov'). discriminate.
              ** (* not a key: nothing to support *)
                 right. intros ? ? da ? ? _ Hda. rewrite Go in Hda by assumption.
                 congruence.
           ++ right. destruct (revise_frame cw x y s) as [_ [_ [_ [_ [F5 _]]]]].
              rewrite Hrun in F5. cbn [fst snd] in F5. rewrite (F5 eq_refl). assumption.
    + (* arcs that do not touch x *)
      destruct (Hinv a c Hac) as [[E|Hin]|Hok].
      * congruence.
      * left. destruct b; [apply in_or_app; now left | assumption].
      * right. intros i' j' da dc w Hov' Hda Hdc Hw.
        rewrite Go in Hda, Hdc by assumption.
        exact (Hok i' j' da dc w Hov' Hda Hdc Hw).
Qed.
Lemma ac3_loop_arc_consistent fuel queue s :
  incl (dict_keys (domains s)) (variables cw) ->
  (forall a c, In (a, c) queue -> a <> c /\ In c (dict_keys (domains s))) ->
  (forall a c, a <> c -> In (a, c) queue \/ arc_ok cw (domains s) a c) ->
  fst (ac3_loop cw fuel queue s) = Val true ->
  arc_consistent cw (domains (snd (ac3_loop cw fuel queue s))).
Proof.
  intros Hkeys Hq Hinv.
  apply (ac3_loop_inv cw
    (fun q s1 =>
       dict_keys (domains s1) = dict_keys (domains s) /\
       (forall a c, In (a, c) q -> a <> c /\ In c (dict_keys (domains s))) /\
       (forall a c, a <> c -> In (a, c) q \/ arc_ok cw (domains s1) a c))
    (fun o s1 => o = Val true -> arc_consistent cw (domains s1)));
    try discriminate; [| |auto].
  - intros s1 [_ [_ H]] _ a c Hac. destruct (H a c Hac) as [[]|]; assumption.
  - intros x y q s0 [K [Q A]].
    destruct (Q x y (or_introl eq_refl)) as [Hxy Hy].
    rewrite <- K in Hy. apply dict_keys_get in Hy. destruct Hy as [dy Hy].
    assert (Q' : forall a c, In (a, c) q -> a <> c /\ In c (dict_keys (domains s)))
      by (intros; apply Q; now right).
    destruct (revise cw x y s0) as [[b|e|] s1] eqn:Hrun; try discriminate.
    assert (K1 : dict_keys (domains s1) = dict_keys (domains s)).
    { destruct (revise_frame cw x y s0) as [_ [[F _] _]].
      rewrite Hrun in F. cbn [snd] in F. congruence. }
    pose proof Hrun as Hrun'. rewrite revise_unfold in Hrun'.
    destruct (dict_get (domains s0) x) as [dx|] eqn:Hx; [|discriminate].
    destruct (overlaps cw x y) as [[i j]|] eqn:Hov.
    + assert (Hk0 : incl (dict_keys (domains s0)) (variables cw)) by (rewrite K; exact Hkeys).
      pose proof (revise_arcs x y i j dx dy s0 b s1 q Hk0 Hxy Hov Hx Hy Hrun A) as A1.
      destruct b.
      * destruct (dict_get (domains s1) x) as [[|w d]|] eqn:G1; try discriminate.
        split; [assumption | split; [|assumption]].
        intros a c Hin. apply in_app_or in Hin. destruct Hin as [Hin|Hin]; [now apply Q'|].
        apply in_map_iff in Hin. destruct Hin as [z [[= <- <-] Hz]].
        apply neighbors_but_In in Hz. destruct Hz as [Hz _].
        apply neighbors_In in Hz. destruct Hz as [_ [Hz _]].
        split; [assumption|]. rewrite <- K. eapply dict_get_some_keys; eassumption.
      * split; [assumption | split; assumption].
    + injection Hrun' as <- <-.
      split; [assumption | split; [assumption|]].
      intros a c Hac. destruct (A a c Hac) as [[[= <- <-]|Hin]|Hok]; auto.
      right. intros ? ? ? ? ? Hov'. congruence.
Qed.

(** An arc-consistent store: every letter that [revise] reads exists. *)
Lemma arc_consistent_index D x y i j dx dy :
  arc_consistent cw D -> x <> y -> overlaps cw x y = Some (i, j) ->
  dict_get D x = Some dx -> dict_get D y = Some dy ->
  (forall w, In w dx -> i < String.length w) /\
  (forall u, In u dy -> j < String.length u).
Proof.
  intros Hac Hxy Hov Hx Hy. split.
  - intros w Hw. destruct (Hac x y Hxy i j dx dy w Hov Hx Hy Hw) as [u [_ [c [H _]]]].
    eapply get_some_range; eassumption.
  - intros u Hu.
    assert (Hyx : y <> x) by congruence.
    destruct (Hac y x Hyx j i dy dx u (Hsym x y i j Hov) Hy Hx Hu) as [w [_ [c [H _]]]].
    eapply get_some_range; eassumption.
Qed.

Lemma revise_stable s x y :
  arc_consistent cw (domains s) -> x <> y ->
  dict_get (domains s) x <> None -> dict_get (domains s) y <> None ->
  revise cw x y s = (Val false, s).
Proof.
  intros Hac Hxy Hx Hy.
  destruct (overlaps cw x y) as [[i j]|] eqn:Hov; [|now apply revise_no_overlap].
  destruct (dict_get (domains s) x) as [dx|] eqn:Gx; [|contradiction].
  destruct (dict_get (domains s) y) as [dy|] eqn:Gy; [|contradiction].
  destruct (arc_consistent_index (domains s) x y i j dx dy Hac Hxy Hov Gx Gy) as [Hi Hj].
  destruct (revise_total cw x y i j dx dy s Hxy Hov Gx Gy Hi Hj) as [b [s' Hrun]].
  destruct (revise_exact cw x y i j dx dy s b s' Hxy Hov Gx Gy Hrun) as [_ [_ Hb]].
  assert (Hbf : b = false).
  { rewrite Hb. apply not_true_is_false. intros H. apply existsb_exists in H.
    destruct H as [w [Hw Hk]].
    destruct (Hac x y Hxy i j dx dy w Hov Gx Gy Hw) as [u [Hu Hag]].
    unfold keep_word in Hk.
    rewrite (has_support_found i j w dy u Hj Hu Hag) in Hk. discriminate. }
  clear Hb. subst b. destruct (revise_frame cw x y s) as [_ [_ [_ [_ [F5 _]]]]].
  rewrite Hrun in F5. cbn [fst snd] in F5. now rewrite (F5 eq_refl) in Hrun.
Qed.

(** On an arc-consistent store the worklist drains without a removal. *)
Lemma ac3_loop_stable s : forall queue fuel,
  arc_consistent cw (domains s) ->
  (forall a c, In (a, c) queue ->
     a <> c /\ In a (dict_keys (domains s)) /\ In c (dict_keys (domains s))) ->
  List.length queue < fuel ->
  ac3_loop cw fuel queue s = (Val true, s).
Proof.
  induction queue as [|[x y] queue IH]; intros fuel Hac Hq Hlt;
    (destruct fuel as [|fuel]; [simpl in Hlt; lia|]).
  - reflexivity.
  - rewrite ac3_loop_cons.
    destruct (Hq x y (or_introl eq_refl)) as [Hxy [Hx Hy]].
    rewrite revise_stable; try assumption; try (now apply dict_get_keys).
    apply IH; [assumption | intros; apply Hq; now right | simpl in Hlt; lia].
Qed.
End ArcConsistency.

(** ** The stable sort *)

Section SortedFacts.
Context {A : Type} (le : A -> A -> bool).

Lemma insert_sorted_In a l x : In x (insert_sorted le a l) <-> x = a \/ In x l.
Proof.
  induction l as [|b l IH]; simpl.
  - split; intros [H|H]; auto.
  - destruct (le a b); simpl; [|rewrite IH]; split; intros H; intuition auto.
Qed.

Lemma sorted_In l x : In x (sorted le l) <-> In x l.
Proof.
  induction l as [|a l IH]; simpl; [tauto|].
  rewrite insert_sorted_In, IH. split; intros [H|H]; auto.
Qed.

Lemma sorted_nil l : sorted le l = [] -> l = [].
Proof.
  destruct l as [|a l]; [reflexivity|]. intros H.
  assert (Hin : In a (sorted le (a :: l))) by (apply sorted_In; now left).
  rewrite H in Hin. destruct Hin.
Qed.

Hypothesis le_total : forall a b, le a b = false -> le b a = true.
Hypothesis le_trans : forall a b c, le a b = true -> le b c = true -> le a c = true.

Lemma insert_sorted_strongly a l :
  StronglySorted (fun x y => le x y = true) l ->
  StronglySorted (fun x y => le x y = true) (insert_sorted le a l).
Proof.
  induction 1 as [|b l Hs IH Hb]; simpl.
  - constructor; constructor.
  - destruct (le a b) eqn:E.
    + constructor; [now constructor|].
      constructor; [assumption|].
      rewrite Forall_forall in *. intros c Hc. eapply le_trans; [exact E | now apply Hb].
    + constructor; [assumption|].
      rewrite Forall_forall in *. intros c Hc. apply insert_sorted_In in Hc.
      destruct Hc as [->|Hc]; [now apply le_total | now apply Hb].
Qed.

Lemma sorted_strongly l : StronglySorted (fun x y => le x y = true) (sorted le l).
Proof.
  induction l as [|a l IH]; simpl; [constructor | now apply insert_sorted_strongly].
Qed.

(** The first element of the sorted list is a least one. *)
Lemma sorted_head_least l h t :
  sorted le l = h :: t -> forall a, In a l -> le h a = true.
Proof.
  intros E a Ha. apply (sorted_In l) in Ha. rewrite E in Ha.
  pose proof (sorted_strongly l) as Hs. rewrite E in Hs.
  inversion Hs as [|? ? _ Hf]; subst.
  destruct Ha as [<-|Ha].
  - destruct (le h h) eqn:R; [reflexivity|].
    pose proof (le_total h h R). congruence.
  - rewrite Forall_forall in Hf. now apply Hf.
Qed.
End SortedFacts.

Lemma key_le_spec a b :
  key_le a b = true <->
  snd (fst a) < snd (fst b) \/ (snd (fst a) = snd (fst b) /\ snd a <= snd b).
Proof.
  destruct a as [[v1 d1] n1], b as [[v2 d2] n2]. unfold key_le. simpl.
  rewrite orb_true_iff, andb_true_iff, Nat.ltb_lt, Nat.eqb_eq, Nat.leb_le. tauto.
Qed.

Lemma key_le_total a b : key_le a b = false -> key_le b a = true.
Proof.
  intros H. apply key_le_spec.
  destruct (key_le a b) eqn:E; [discriminate|].
  assert (N : ~ (snd (fst a) < snd (fst b) \/ (snd (fst a) = snd (fst b) /\ snd a <= snd b))).
  { rewrite <- key_le_spec. congruence. }
  lia.
Qed.

Lemma key_le_trans a b c : key_le a b = true -> key_le b c = true -> key_le a c = true.
Proof. rewrite !key_le_spec. lia. Qed.

(** ** The ordering heuristics *)

Section Heuristics.
Variable cw : Crossword.

Lemma collect_unassigned_spec D a : forall vars mrv,
  (forall v, In v vars -> dict_get D v <> None) ->
  collect_unassigned cw D a vars mrv =
  Val (mrv ++ map (info cw D) (filter (fun v => negb (dict_mem v a)) vars)).
Proof.
  induction vars as [|v vars IH]; intros mrv Hk; simpl.
  - now rewrite app_nil_r.
  - assert (Hk' : forall v', In v' vars -> dict_get D v' <> None)
      by (intros; apply Hk; now right).
    destruct (dict_mem v a); simpl; [now apply IH|].
    unfold lookup. specialize (Hk v (or_introl eq_refl)).
    destruct (dict_get D v) as [d|] eqn:G; [|contradiction]. simpl.
    rewrite IH by assumption. rewrite <- app_assoc. simpl.
    unfold info at 2, domain_of. now rewrite G.
Qed.

Lemma unassigned_In D a v :
  In v (unassigned D a) <-> In v (dict_keys D) /\ ~ In v (dict_keys a).
Proof.
  unfold unassigned. rewrite filter_In, negb_true_iff, dict_mem_false. tauto.
Qed.

Lemma assignment_complete_false D a :
  assignment_complete D a = false -> unassigned D a <> [].
Proof.
  unfold assignment_complete, unassigned.
  induction (dict_keys D) as [|v l IH]; simpl; [discriminate|].
  destruct (dict_mem v a); simpl; [assumption | discriminate].
Qed.

Lemma assignment_complete_true D a :
  assignment_complete D a = true <->
  forall v, In v (dict_keys D) -> In v (dict_keys a).
Proof.
  unfold assignment_complete. rewrite forallb_forall.
  split; intros H v Hv; apply dict_mem_true; now apply H.
Qed.

(** [select_unassigned_variable] returns an open key whose triple is the
    least for the order of the sort. *)
Lemma select_unassigned_variable_spec D a :
  assignment_complete D a = false ->
  exists var,
    select_unassigned_variable cw D a = Val var /\
    In var (unassigned D a) /\
    forall v, In v (unassigned D a) -> key_le (info cw D var) (info cw D v) = true.
Proof.
  intros Hc. unfold select_unassigned_variable.
  rewrite collect_unassigned_spec by (intros v; apply dict_get_keys).
  simpl. fold (unassigned D a).
  destruct (sorted key_le (map (info cw D) (unassigned D a))) as [|[[var d] n] t] eqn:E.
  - apply sorted_nil in E. apply map_eq_nil in E.
    now apply assignment_complete_false in Hc.
  - assert (Hin : In (var, d, n) (map (info cw D) (unassigned D a))).
    { apply (sorted_In key_le). rewrite E. now left. }
    apply in_map_iff in Hin. destruct Hin as [v0 [Hv0 Hin]].
    assert (v0 = var) by (unfold info in Hv0; congruence). subst v0.
    exists var. split; [reflexivity | split; [assumption|]].
    intros v Hv. change (key_le (info cw D var) (info cw D v) = true). rewrite Hv0.
    apply (sorted_head_least key_le key_le_total key_le_trans _ _ _ E).
    now apply in_map.
Qed.

Lemma count_ruled_out_total D x : forall ns c,
  (forall n, In n ns -> dict_get D n <> None) ->
  exists c', count_ruled_out D x ns c = Val c'.
Proof.
  induction ns as [|n ns IH]; intros c Hk; simpl; [eauto|].
  unfold lookup. destruct (dict_get D n) eqn:G; [|now destruct (Hk n (or_introl eq_refl))].
  simpl. apply IH. intros; apply Hk. now right.
Qed.

Lemma collect_values_fst D ns : forall xs acc r,
  collect_values D ns xs acc = Val r -> map fst r = map fst acc ++ xs.
Proof.
  induction xs as [|x xs IH]; intros acc r; simpl.
  - intros [= <-]. now rewrite app_nil_r.
  - destruct (count_ruled_out D x ns 0) as [c| |]; simpl; try discriminate.
    intros H. apply IH in H. rewrite H, map_app, <- app_assoc. reflexivity.
Qed.

Lemma collect_values_total D ns : forall xs acc,
  (forall n, In n ns -> dict_get D n <> None) ->
  exists r, collect_values D ns xs acc = Val r.
Proof.
  induction xs as [|x xs IH]; intros acc Hk; simpl; [eauto|].
  destruct (count_ruled_out_total D x ns 0 Hk) as [c ->]. simpl. now apply IH.
Qed.

(** [order_domain_values] lists the words of the domain, each once more
    or less as the domain has it. *)
Lemma order_domain_values_In D var a vals d :
  dict_get D var = Some d ->
  order_domain_values cw D var a = Val vals ->
  forall w, In w vals <-> In w d.
Proof.
  unfold order_domain_values, lookup. intros ->. simpl.
  destruct (collect_values D (neighbors cw var) d []) as [r| |] eqn:E; simpl;
    try discriminate.
  intros [= <-] w. apply collect_values_fst in E. simpl in E. rewrite <- E.
  rewrite !in_map_iff. split; intros [p [Hp Hin]]; exists p; split; try assumption.
  - now apply sorted_In in Hin.
  - now apply sorted_In.
Qed.

Lemma order_domain_values_total D var a d :
  dict_get D var = Some d ->
  (forall n, In n (neighbors cw var) -> dict_get D n <> None) ->
  exists vals, order_domain_values cw D var a = Val vals.
Proof.
  unfold order_domain_values, lookup. intros -> Hk. simpl.
  destruct (collect_values_total D (neighbors cw var) d [] Hk) as [r ->].
  simpl. eauto.
Qed.

Lemma order_domain_values_empty D var a :
  dict_get D var = Some [] -> order_domain_values cw D var a = Val [].
Proof. unfold order_domain_values, lookup. now intros ->. Qed.
End Heuristics.

(** ** The consistency check *)

Lemma NoDup_map_inj {A B} (f : A -> B) (l : list A) a b :
  NoDup (map f l) -> In a l -> In b l -> f a = f b -> a = b.
Proof.
  induction l as [|c l IH]; simpl; [tauto|].
  intros Hnd Ha Hb E. inversion Hnd as [|? ? Hc Hnd']; subst.
  destruct Ha as [->|Ha], Hb as [->|Hb]; auto.
  - exfalso. apply Hc. rewrite E. now apply in_map.
  - exfalso. apply Hc. rewrite <- E. now apply in_map.
Qed.

Lemma NoDup_snoc {A} (l : list A) a : NoDup l -> ~ In a l -> NoDup (l ++ [a]).
Proof.
  intros Hl Ha. apply NoDup_app; [assumption | repeat constructor; auto | ].
  intros x Hx [<-|[]]. contradiction.
Qed.

Lemma dict_get_NoDup {V} (d : dict V) k v :
  NoDup (dict_keys d) -> In (k, v) d -> dict_get d k = Some v.
Proof.
  induction d as [|[k' v'] d IH]; simpl; [tauto|].
  intros Hnd [E|Hin].
  - injection E as -> ->. now destruct (Var_eq_dec k k).
  - inversion Hnd as [|? ? Hk Hnd']; subst.
    destruct (Var_eq_dec k' k) as [->|ne]; [|now apply IH].
    exfalso. apply Hk. change k with (fst (k, v)). now apply in_map.
Qed.

Section Consistent.
Variable cw : Crossword.

Lemma index_val (w : word) i c : String.get i w = Some c -> index w i = Val c.
Proof. unfold index. now intros ->. Qed.

Lemma neighbors_agree_true (a : Assignment) var val : forall ys,
  neighbors_agree cw a var val ys = Val true ->
  forall y wy i j, In y ys -> dict_get a y = Some wy ->
                   overlaps cw var y = Some (i, j) -> agree i j val wy.
Proof.
  induction ys as [|y0 ys IH]; simpl; [tauto|].
  intros H y wy i j [<-|Hin] Hy Hov.
  - rewrite Hy, Hov in H. unfold index in H.
    destruct (String.get i val) as [c1|] eqn:E1; simpl in H; [|discriminate].
    destruct (String.get j wy) as [c2|] eqn:E2; simpl in H; [|discriminate].
    destruct (Ascii.eqb c1 c2) eqn:E; [|discriminate].
    apply Ascii.eqb_eq in E. subst c2. exists c1. tauto.
  - apply (IH) with (y := y); try assumption.
    destruct (dict_get a y0) as [w0|]; [|assumption].
    destruct (overlaps cw var y0) as [[i0 j0]|]; [|assumption].
    destruct (index val i0) as [c1| |]; simpl in H; try discriminate.
    destruct (index w0 j0) as [c2| |]; simpl in H; try discriminate.
    destruct (Ascii.eqb c1 c2); [assumption | discriminate].
Qed.

Lemma neighbors_agree_complete (a : Assignment) var val : forall ys,
  (forall y wy i j, In y ys -> dict_get a y = Some wy ->
                    overlaps cw var y = Some (i, j) -> agree i j val wy) ->
  neighbors_agree cw a var val ys = Val true.
Proof.
  induction ys as [|y0 ys IH]; intros H; simpl; [reflexivity|].
  assert (H' : neighbors_agree cw a var val ys = Val true)
    by (apply IH; intros; eapply H; eauto; now right).
  destruct (dict_get a y0) as [w0|] eqn:G; [|assumption].
  destruct (overlaps cw var y0) as [[i0 j0]|] eqn:Hov; [|assumption].
  destruct (H y0 w0 i0 j0 (or_introl eq_refl) G Hov) as [c [E1 E2]].
  rewrite (index_val _ _ _ E1), (index_val _ _ _ E2). simpl.
  now rewrite Ascii.eqb_refl.
Qed.

Lemma neighbors_agree_total (a : Assignment) var val : forall ys,
  (forall y wy i j, In y ys -> dict_get a y = Some wy ->
                    overlaps cw var y = Some (i, j) ->
                    i < String.length val /\ j < String.length wy) ->
  exists b, neighbors_agree cw a var val ys = Val b.
Proof.
  induction ys as [|y0 ys IH]; intros H; simpl; [eauto|].
  assert (H' : exists b, neighbors_agree cw a var val ys = Val b)
    by (apply IH; intros; eapply H; eauto; now right).
  destruct (dict_get a y0) as [w0|] eqn:G; [|assumption].
  destruct (overlaps cw var y0) as [[i0 j0]|] eqn:Hov; [|assumption].
  destruct (H y0 w0 i0 j0 (or_introl eq_refl) G Hov) as [Hi Hj].
  destruct (get_in_range val i0 Hi) as [c1 E1].
  destruct (get_in_range w0 j0 Hj) as [c2 E2].
  rewrite (index_val _ _ _ E1), (index_val _ _ _ E2). simpl.
  destruct (Ascii.eqb c1 c2); eauto.
Qed.

Lemma consistent_loop_true (a : Assignment) : forall items dv,
  consistent_loop cw a items dv = Val true ->
  (forall var val, In (var, val) items ->
     String.length val = var_length var /\
     neighbors_agree cw a var val (neighbors cw var) = Val true) /\
  (NoDup dv -> NoDup (dv ++ map snd items)).
Proof.
  induction items as [|[var val] items IH]; intros dv; simpl.
  - intros _. split; [tauto | now rewrite app_nil_r].
  - destruct (Nat.eqb (String.length val) (var_length var)) eqn:El; simpl;
      [|discriminate].
    destruct (neighbors_agree cw a var val (neighbors cw var)) as [[|]| |] eqn:En;
      simpl; try discriminate.
    destruct (set_mem val dv) eqn:Em; [discriminate|].
    intros H. destruct (IH _ H) as [H1 H2]. split.
    + intros var' val' [[= <- <-]|Hin]; [|now apply H1].
      split; [now apply Nat.eqb_eq | assumption].
    + intros Hnd. rewrite <- app_assoc in H2. apply H2.
      apply NoDup_snoc; [assumption | now apply set_mem_false].
Qed.

(** What [consistent] accepts is consistent. *)
Lemma consistent_sound (a : Assignment) :
  incl (dict_keys a) (variables cw) ->
  consistent cw a = Val true -> consistent_spec cw a.
Proof.
  intros Hk H. destruct (consistent_loop_true a a [] H) as [H1 H2].
  specialize (H2 (NoDup_nil _)). simpl in H2. split.
  - intros v w Hv. now apply (H1 v w), dict_get_In.
  - intros x y wx wy i j Hxy Hx Hy Hov.
    destruct (H1 x wx (dict_get_In _ _ _ Hx)) as [_ Hn].
    apply (neighbors_agree_true a x wx _ Hn y wy i j); try assumption.
    apply neighbors_In. split; [|split].
    + apply Hk. eapply dict_get_some_keys; eassumption.
    + congruence.
    + rewrite Hov. discriminate.
  - intros x y wx wy Hxy Hx Hy E. subst wy.
    apply Hxy.
    assert (E : (x, wx) = (y, wx)).
    { apply (NoDup_map_inj snd a); try assumption; try reflexivity;
        now apply dict_get_In. }
    congruence.
Qed.

Lemma consistent_loop_complete (a : Assignment) :
  NoDup (dict_keys a) -> consistent_spec cw a ->
  forall items pre, a = pre ++ items ->
    consistent_loop cw a items (map snd pre) = Val true.
Proof.
  intros Hnd Hcs. induction items as [|[var val] items IH]; intros pre Ha;
    simpl; [reflexivity|].
  assert (Hin : In (var, val) a) by (rewrite Ha; apply in_or_app; right; now left).
  pose proof (dict_get_NoDup a var val Hnd Hin) as Hg.
  rewrite (proj2 (Nat.eqb_eq _ _) (cs_length cw a Hcs var val Hg)). simpl.
  rewrite neighbors_agree_complete.
  2:{ intros y wy i j Hy Hgy Hov. apply neighbors_In in Hy.
      destruct Hy as [_ [Hne _]].
      apply (cs_overlap cw a Hcs var y val wy i j); auto. }
  simpl.
  assert (Hm : set_mem val (map snd pre) = false).
  { apply set_mem_false. intros Hm. apply in_map_iff in Hm.
    destruct Hm as [[v' w'] [E Hp]]. simpl in E. subst w'.
    assert (Hin' : In (v', val) a) by (rewrite Ha; apply in_or_app; now left).
    pose proof (dict_get_NoDup a v' val Hnd Hin') as Hg'.
    assert (Hne : v' <> var).
    { intros ->. subst a. unfold dict_keys in Hnd. rewrite map_app in Hnd.
      simpl in Hnd. apply NoDup_remove_2 in Hnd. apply Hnd.
      apply in_or_app. left. change var with (fst (var, val)). now apply in_map. }
    exact (cs_distinct cw a Hcs v' var val val Hne Hg' Hg eq_refl). }
  rewrite Hm.
  replace (map snd pre ++ [val]) with (map snd (pre ++ [(var, val)]))
    by (now rewrite map_app).
  apply IH. rewrite Ha, <- app_assoc. reflexivity.
Qed.

(** What is consistent, [consistent] accepts. *)
Lemma consistent_complete (a : Assignment) :
  NoDup (dict_keys a) -> consistent_spec cw a -> consistent cw a = Val true.
Proof.
  intros Hnd Hcs. apply (consistent_loop_complete a Hnd Hcs a []). reflexivity.
Qed.

Lemma consistent_loop_total (a : Assignment) :
  overlaps_in_range cw -> lengths_ok a -> incl (dict_keys a) (variables cw) ->
  forall items dv, incl items a -> exists b, consistent_loop cw a items dv = Val b.
Proof.
  intros Hr Hl Hk. induction items as [|[var val] items IH]; intros dv Hi;
    simpl; [eauto|].
  destruct (Nat.eqb (String.length val) (var_length var)) eqn:El; simpl; [|eauto].
  apply Nat.eqb_eq in El.
  assert (Hvar : In var (variables cw)).
  { apply Hk. change var with (fst (var, val)). apply in_map, Hi. now left. }
  destruct (neighbors_agree_total a var val (neighbors cw var)) as [b Hb].
  { intros y wy i j Hy Hgy Hov. apply neighbors_In in Hy.
    destruct Hy as [Hyv [Hne _]].
    assert (Hxy : var <> y) by congruence.
    destruct (Hr var y i j Hvar Hyv Hxy Hov) as [Hi' Hj'].
    rewrite El, (Hl y wy (dict_get_In _ _ _ Hgy)). tauto. }
  rewrite Hb. simpl. destruct b; simpl; [|eauto].
  destruct (set_mem val dv); [eauto|].
  apply IH. intros e He. apply Hi. now right.
Qed.

(** [consistent] does not raise on words of the right lengths. *)
Lemma consistent_total (a : Assignment) :
  overlaps_in_range cw -> lengths_ok a -> incl (dict_keys a) (variables cw) ->
  exists b, consistent cw a = Val b.
Proof.
  intros Hr Hl Hk. apply consistent_loop_total; try assumption. apply incl_refl.
Qed.

Lemma consistent_spec_sub (sol a : Assignment) :
  consistent_spec cw sol -> agrees_with sol a -> consistent_spec cw a.
Proof.
  intros Hcs Hag. split.
  - intros v w Hv. apply (cs_length cw sol Hcs). now apply Hag.
  - intros x y wx wy i j Hxy Hx Hy. apply (cs_overlap cw sol Hcs); auto.
  - intros x y wx wy Hxy Hx Hy. apply (cs_distinct cw sol Hcs x y); auto.
Qed.
End Consistent.

(** ** Backtracking search *)

Lemma dict_set_keys {V} (d : dict V) k0 v k :
  In k (dict_keys (dict_set d k0 v)) -> k = k0 \/ In k (dict_keys d).
Proof.
  induction d as [|[k' v'] d IH]; simpl.
  - intros [<-|[]]. now left.
  - destruct (Var_eq_dec k' k0) as [->|ne]; simpl.
    + intros [<-|H]; auto.
    + intros [<-|H]; [auto|]. destruct (IH H); auto.
Qed.

Lemma dict_set_not_nil {V} (d : dict V) k v : dict_set d k v <> [].
Proof. destruct d as [|[k' v'] d]; simpl; [|destruct (Var_eq_dec k' k)]; discriminate. Qed.

Lemma filter_length_mono {A} (p q : A -> bool) (l : list A) :
  (forall x, p x = true -> q x = true) ->
  List.length (filter p l) <= List.length (filter q l).
Proof.
  intros H. induction l as [|a l IH]; simpl; [lia|].
  destruct (p a) eqn:P.
  - rewrite (H a P). simpl. lia.
  - destruct (q a); simpl; lia.
Qed.

Lemma filter_length_strict {A} (p q : A -> bool) (l : list A) a :
  (forall x, p x = true -> q x = true) ->
  In a l -> p a = false -> q a = true ->
  List.length (filter p l) < List.length (filter q l).
Proof.
  intros H. induction l as [|b l IH]; simpl; [tauto|].
  intros [->|Hin] P Q.
  - rewrite P, Q. simpl. pose proof (filter_length_mono p q l H). lia.
  - specialize (IH Hin P Q). destruct (p b) eqn:Pb.
    + rewrite (H b Pb). simpl. lia.
    + destruct (q b); simpl; lia.
Qed.

Lemma unassigned_set D (a : Assignment) var val :
  In var (unassigned D a) ->
  List.length (unassigned D (dict_set a var val)) < List.length (unassigned D a).
Proof.
  intros Hin. apply unassigned_In in Hin. destruct Hin as [Hk Ha].
  unfold unassigned. apply filter_length_strict with (a := var); try assumption.
  - intros x. rewrite !negb_true_iff. unfold dict_mem. rewrite dict_set_get.
    destruct (Var_eq_dec var x); [discriminate | tauto].
  - apply negb_false_iff. unfold dict_mem. rewrite dict_set_get.
    now destruct (Var_eq_dec var var).
  - apply negb_true_iff. now apply dict_mem_false.
Qed.

Section Search.
Variable cw : Crossword.

Lemma try_values_cons_raw recurse var val vals a s :
  try_values cw recurse var (val :: vals) a s =
  match consistent cw (dict_set a var val) with
  | Val true =>
      match recurse (dict_set a var val) s with
      | (Val result, s') =>
          if truthy result then (Val result, s')
          else if dict_mem var (snd result)
               then try_values cw recurse var vals (dict_pop (snd result) var) s'
               else (Exn KeyError, s')
      | (Exn e, s') => (Exn e, s')
      | (OutOfFuel, s') => (OutOfFuel, s')
      end
  | Val false =>
      try_values cw recurse var vals (dict_pop (dict_set a var val) var) s
  | Exn e => (Exn e, s)
  | OutOfFuel => (OutOfFuel, s)
  end.
Proof.
  cbn [try_values]. unfold bind at 1, lift at 1.
  destruct (consistent cw (dict_set a var val)) as [[|]|e|]; try reflexivity.
  unfold bind at 1.
  destruct (recurse (dict_set a var val) s) as [[result|e|] s']; try reflexivity.
  destruct (truthy result); [reflexivity|].
  destruct (dict_mem var (snd result)); reflexivity.
Qed.

(** The loop of [backtrack] over a recursive call that restores the
    dictionary: a failed trial leaves the assignment as it was. *)
Lemma try_values_cons recurse var val vals a s :
  restores recurse -> ~ In var (dict_keys a) ->
  try_values cw recurse var (val :: vals) a s =
  match consistent cw (dict_set a var val) with
  | Val true =>
      match recurse (dict_set a var val) s with
      | (Val (true, a'), s') => (Val (true, a'), s')
      | (Val (false, _), s') => try_values cw recurse var vals a s'
      | (Exn e, s') => (Exn e, s')
      | (OutOfFuel, s') => (OutOfFuel, s')
      end
  | Val false => try_values cw recurse var vals a s
  | Exn e => (Exn e, s)
  | OutOfFuel => (OutOfFuel, s)
  end.
Proof.
  intros Hr Hvar. rewrite try_values_cons_raw.
  destruct (consistent cw (dict_set a var val)) as [[|]|e|]; try reflexivity.
  - destruct (Hr (dict_set a var val) s) as [_ H].
    destruct (recurse (dict_set a var val) s) as [[[[|] a']|e|] s'];
      cbn [fst] in H; try reflexivity.
    + unfold truthy. cbn [fst snd].
      destruct a' as [|e a']; [|reflexivity].
      exfalso. apply H; [apply dict_set_not_nil | reflexivity].
    + subst a'. unfold truthy. cbn [fst snd andb].
      assert (Hm : dict_mem var (dict_set a var val) = true).
      { unfold dict_mem. rewrite dict_set_get. now destruct (Var_eq_dec var var). }
      rewrite Hm. now rewrite dict_pop_set.
  - now rewrite dict_pop_set.
Qed.

Lemma try_values_restores recurse var :
  restores recurse ->
  forall vals a s, ~ In var (dict_keys a) ->
    domains (snd (try_values cw recurse var vals a s)) = domains s /\
    match fst (try_values cw recurse var vals a s) with
    | Val (false, a') => a' = a
    | Val (true, a') => a' <> []
    | _ => True
    end.
Proof.
  intros Hr. induction vals as [|val vals IH]; intros a s Hvar.
  - simpl. auto.
  - rewrite try_values_cons by assumption.
    destruct (consistent cw (dict_set a var val)) as [[|]|e|]; cbn [fst snd]; auto.
    destruct (Hr (dict_set a var val) s) as [H1 H2].
    destruct (recurse (dict_set a var val) s) as [[[[|] a']|e|] s'];
      cbn [fst snd] in *; auto.
    + split; [assumption|]. apply H2, dict_set_not_nil.
    + destruct (IH a s' Hvar) as [I1 I2]. split; [congruence | assumption].
Qed.

Lemma backtrack_unfold fuel a s :
  backtrack cw (S fuel) a s =
  let s1 := mkState (domains s) (S (searches s)) in
  if assignment_complete (domains s) a then (Val (true, a), s1)
  else
    match select_unassigned_variable cw (domains s) a with
    | Val var =>
        match order_domain_values cw (domains s) var a with
        | Val vals => try_values cw (backtrack cw fuel) var vals a s1
        | Exn e => (Exn e, s1)
        | OutOfFuel => (OutOfFuel, s1)
        end
    | Exn e => (Exn e, s1)
    | OutOfFuel => (OutOfFuel, s1)
    end.
Proof.
  cbn [backtrack]. unfold bind at 1, count_search at 1.
  unfold bind at 1, reads at 1. cbn [domains].
  destruct (assignment_complete (domains s) a); [reflexivity|].
  unfold bind at 1, reads at 1. cbn [domains].
  destruct (select_unassigned_variable cw (domains s) a) as [var|e|]; reflexivity.
Qed.

(** The variable that [backtrack] selects is a key of the domains and not
    one of the assignment. *)
Lemma select_unassigned D a var :
  assignment_complete D a = false ->
  select_unassigned_variable cw D a = Val var ->
  In var (unassigned D a).
Proof.
  intros Hc Hs.
  destruct (select_unassigned_variable_spec cw D a Hc) as [var' [Hs' [Hin _]]].
  congruence.
Qed.

(** [backtrack] never writes to [self.domains]; when it returns [None] the
    dictionary is as at the call. *)
Lemma backtrack_restores fuel : restores (backtrack cw fuel).
Proof.
  induction fuel as [|fuel IH]; intros a s; [simpl; auto|].
  rewrite backtrack_unfold. cbv zeta.
  destruct (assignment_complete (domains s) a) eqn:Hc; [simpl; auto|].
  destruct (select_unassigned_variable cw (domains s) a) as [var|e|] eqn:Hs;
    [|simpl; auto..].
  destruct (order_domain_values cw (domains s) var a) as [vals|e|];
    [|simpl; auto..].
  apply (select_unassigned _ _ _ Hc) in Hs. apply unassigned_In in Hs.
  destruct (try_values_restores (backtrack cw fuel) var IH vals a
              (mkState (domains s) (S (searches s))) (proj2 Hs)) as [H1 H2].
  split; [exact H1|].
  destruct (fst (try_values _ _ _ _ _ _)) as [[[|] a']|e|]; auto.
Qed.

Lemma count_ruled_out_fuel D x : forall ns c,
  count_ruled_out D x ns c <> OutOfFuel.
Proof.
  induction ns as [|n ns IH]; intros c; simpl; [discriminate|].
  unfold lookup. destruct (dict_get D n); simpl; [apply IH | discriminate].
Qed.

Lemma collect_values_fuel D ns : forall xs acc,
  collect_values D ns xs acc <> OutOfFuel.
Proof.
  induction xs as [|x xs IH]; intros acc; simpl; [discriminate|].
  pose proof (count_ruled_out_fuel D x ns 0) as H.
  destruct (count_ruled_out D x ns 0); simpl; [apply IH | discriminate | contradiction].
Qed.

Lemma order_domain_values_fuel D var a :
  order_domain_values cw D var a <> OutOfFuel.
Proof.
  unfold order_domain_values, lookup.
  destruct (dict_get D var) as [d|]; simpl; [|discriminate].
  pose proof (collect_values_fuel D (neighbors cw var) d []) as H.
  destruct (collect_values D (neighbors cw var) d []); simpl;
    [discriminate | discriminate | contradiction].
Qed.

Lemma neighbors_agree_fuel (a : Assignment) var val : forall ys,
  neighbors_agree cw a var val ys <> OutOfFuel.
Proof.
  induction ys as [|y ys IH]; simpl; [discriminate|].
  destruct (dict_get a y) as [wy|]; [|assumption].
  destruct (overlaps cw var y) as [[i j]|]; [|assumption].
  unfold index. destruct (String.get i val); simpl; [|discriminate].
  destruct (String.get j wy); simpl; [|discriminate].
  destruct (Ascii.eqb _ _); [assumption | discriminate].
Qed.

Lemma consistent_loop_fuel (a : Assignment) : forall items dv,
  consistent_loop cw a items dv <> OutOfFuel.
Proof.
  induction items as [|[v w] items IH]; intros dv; simpl; [discriminate|].
  destruct (negb _); [discriminate|].
  pose proof (neighbors_agree_fuel a v w (neighbors cw v)) as H.
  destruct (neighbors_agree cw a v w (neighbors cw v)) as [[|]|e|]; simpl;
    try discriminate; try contradiction.
  destruct (set_mem w dv); [discriminate | apply IH].
Qed.

(** The recursion is no deeper than the number of open variables. *)
Lemma backtrack_fuel : forall fuel a s,
  List.length (unassigned (domains s) a) < fuel ->
  fst (backtrack cw fuel a s) <> OutOfFuel.
Proof.
  induction fuel as [|fuel IH]; intros a s Hlt; [lia|].
  rewrite backtrack_unfold. cbv zeta.
  destruct (assignment_complete (domains s) a) eqn:Hc; [discriminate|].
  destruct (select_unassigned_variable_spec cw _ _ Hc) as [var [Hs [Hin _]]].
  rewrite Hs.
  pose proof (order_domain_values_fuel (domains s) var a) as Ho.
  destruct (order_domain_values cw (domains s) var a) as [vals|e|];
    [|discriminate|contradiction].
  clear Ho.
  assert (Hs1 : domains (mkState (domains s) (S (searches s))) = domains s) by reflexivity.
  revert Hs1. generalize (mkState (domains s) (S (searches s))).
  pose proof (proj2 (proj1 (unassigned_In _ _ _) Hin)) as Hvar.
  induction vals as [|val vals IHv]; intros s1 Hs1; [simpl; discriminate|].
  rewrite try_values_cons by (try assumption; apply backtrack_restores).
  pose proof (consistent_loop_fuel (dict_set a var val) (dict_set a var val) []) as Hc'.
  fold (consistent cw (dict_set a var val)) in Hc'.
  destruct (consistent cw (dict_set a var val)) as [[|]|e|];
    [ | now apply IHv | discriminate | contradiction].
  assert (Hne : fst (backtrack cw fuel (dict_set a var val) s1) <> OutOfFuel).
  { apply IH. rewrite Hs1. pose proof (unassigned_set (domains s) a var val Hin). lia. }
  destruct (backtrack_restores fuel (dict_set a var val) s1) as [Hd _].
  destruct (backtrack cw fuel (dict_set a var val) s1) as [[[[|] a']|e|] s'];
    cbn [fst snd] in *; try discriminate; try contradiction.
  apply IHv. congruence.
Qed.
(** What [backtrack] returns is complete, and is the dictionary of the
    call or one that [consistent] accepted. *)
Lemma backtrack_sound : forall fuel a s a' s',
  incl (dict_keys (domains s)) (variables cw) ->
  incl (dict_keys a) (variables cw) ->
  backtrack cw fuel a s = (Val (true, a'), s') ->
  assignment_complete (domains s) a' = true /\
  (a' = a \/ consistent cw a' = Val true) /\
  incl (dict_keys a') (variables cw).
Proof.
  induction fuel as [|fuel IH]; intros a s a' s' HD Ha; [discriminate|].
  rewrite backtrack_unfold. cbv zeta.
  destruct (assignment_complete (domains s) a) eqn:Hc.
  { intros [= <- <-]. auto. }
  destruct (select_unassigned_variable_spec cw _ _ Hc) as [var [Hs [Hin _]]].
  rewrite Hs. apply unassigned_In in Hin. destruct Hin as [Hk Hvar].
  destruct (order_domain_values cw (domains s) var a) as [vals|e|];
    try discriminate.
  assert (Hs1 : domains (mkState (domains s) (S (searches s))) = domains s) by reflexivity.
  revert Hs1. generalize (mkState (domains s) (S (searches s))).
  induction vals as [|val vals IHv]; intros s1 Hs1; [discriminate|].
  rewrite try_values_cons by (try assumption; apply backtrack_restores).
  destruct (consistent cw (dict_set a var val)) as [[|]|e|] eqn:Ec;
    try discriminate; [|now apply IHv].
  destruct (backtrack_restores fuel (dict_set a var val) s1) as [Hd _].
  destruct (backtrack cw fuel (dict_set a var val) s1) as [[[[|] a1]|e|] s1'] eqn:Hb;
    cbn [fst snd] in *; try discriminate.
  - intros [= <- <-].
    destruct (IH _ _ _ _ (eq_ind_r (fun D => incl (dict_keys D) _) HD Hs1)
                 (fun k Hk' => match dict_set_keys a var val k Hk' with
                               | or_introl E => eq_ind_r (fun k => In k _) (HD var Hk) E
                               | or_intror H => Ha k H
                               end) Hb) as [H1 [H2 H3]].
    rewrite Hs1 in H1. split; [assumption | split; [right | assumption]].
    destruct H2 as [->|H2]; assumption.
  - apply IHv. congruence.
Qed.
End Search.

(** ** The solver finds a solution when there is one *)

Section Completeness.
Variable cw : Crossword.
Variable sol : Assignment.
Hypothesis Hcs : consistent_spec cw sol.
Hypothesis Hsol : forall v, In v (variables cw) -> exists w, dict_get sol v = Some w.

(** A consistent complete assignment exists only if the overlaps are
    positions of the words. *)
Lemma solution_in_range : overlaps_in_range cw.
Proof.
  intros x y i j Hx Hy Hxy Hov.
  destruct (Hsol x Hx) as [wx Gx]. destruct (Hsol y Hy) as [wy Gy].
  destruct (cs_overlap cw sol Hcs x y wx wy i j Hxy Gx Gy Hov) as [c [E1 E2]].
  rewrite <- (cs_length cw sol Hcs x wx Gx), <- (cs_length cw sol Hcs y wy Gy).
  split; eapply get_some_range; eassumption.
Qed.

(** AC-3 does not raise on node-consistent domains, and keeps the words
    of a solution. *)
Lemma ac3_loop_keeps_solution fuel queue s :
  node_consistent (domains s) ->
  in_domains (domains s) sol (variables cw) ->
  (forall a c, In (a, c) queue ->
     a <> c /\ In a (variables cw) /\ In c (variables cw)) ->
  (forall e, fst (ac3_loop cw fuel queue s) <> Exn e) /\
  in_domains (domains (snd (ac3_loop cw fuel queue s))) sol (variables cw).
Proof.
  intros Hnc Hin Hq.
  apply (ac3_loop_inv cw
    (fun q s1 =>
       (forall a c, In (a, c) q ->
          a <> c /\ In a (variables cw) /\ In c (variables cw)) /\
       node_consistent (domains s1) /\
       in_domains (domains s1) sol (variables cw))
    (fun o s1 => (forall e, o <> Exn e) /\
                 in_domains (domains s1) sol (variables cw)));
    [ | | | auto].
  - intros s1 [_ [_ H]]. split; [discriminate | assumption].
  - intros q s1 [_ [_ H]]. split; [discriminate | assumption].
  - intros x y q s0 [Q [Hnc0 Hin0]].
    destruct (Q x y (or_introl eq_refl)) as [Hxy [Hx Hy]].
    assert (Q' : forall a c, In (a, c) q ->
                   a <> c /\ In a (variables cw) /\ In c (variables cw))
      by (intros; apply Q; now right).
    destruct (Hin0 x Hx) as [wx [dx [Sx [Gx Wx]]]].
    destruct (Hin0 y Hy) as [wy [dy [Sy [Gy Wy]]]].
    destruct (overlaps cw x y) as [[i j]|] eqn:Hov.
    2:{ rewrite revise_no_overlap by (try assumption; rewrite Gx; discriminate).
        auto. }
    destruct (solution_in_range x y i j Hx Hy Hxy Hov) as [Ri Rj].
    assert (Hi : forall w, In w dx -> i < String.length w).
    { intros w Hw. rewrite (Hnc0 x dx w Gx Hw). assumption. }
    assert (Hj : forall u, In u dy -> j < String.length u).
    { intros u Hu. rewrite (Hnc0 y dy u Gy Hu). assumption. }
    destruct (revise_total cw x y i j dx dy s0 Hxy Hov Gx Gy Hi Hj) as [b [s1 Hrun]].
    rewrite Hrun.
    destruct (revise_exact cw x y i j dx dy s0 b s1 Hxy Hov Gx Gy Hrun) as [Hs1 _].
    assert (G1 : dict_get (domains s1) x = Some (filter (keep_word i j dy) dx)).
    { rewrite Hs1. cbn [domains]. rewrite dict_adjust_same, Gx. simpl.
      now rewrite prune_self. }
    assert (Go : forall v, v <> x -> dict_get (domains s1) v = dict_get (domains s0) v).
    { intros v Hv. rewrite Hs1. cbn [domains]. apply dict_adjust_other. congruence. }
    assert (Hnc1 : node_consistent (domains s1)).
    { apply (shrinks_node_consistent (domains s0)); [|assumption].
      destruct (revise_frame cw x y s0) as [_ [F _]]. now rewrite Hrun in F. }
    assert (Hin1 : in_domains (domains s1) sol (variables cw)).
    { intros v Hv. destruct (Var_eq_dec v x) as [->|ne].
      - exists wx, (filter (keep_word i j dy) dx).
        split; [assumption | split; [assumption|]].
        apply filter_In. split; [assumption|].
        unfold keep_word.
        rewrite (has_support_found i j wx dy wy Hj Wy); [reflexivity|].
        exact (cs_overlap cw sol Hcs x y wx wy i j Hxy Sx Sy Hov).
      - destruct (Hin0 v Hv) as [w [d [S1 [G W]]]].
        exists w, d. rewrite Go by assumption. auto. }
    destruct b; [|auto].
    rewrite G1. destruct (filter (keep_word i j dy) dx) as [|w0 d0].
    + split; [discriminate | assumption].
    + split; [|auto].
      intros a c Hac. apply in_app_or in Hac. destruct Hac as [Hac|Hac]; [now apply Q'|].
      apply in_map_iff in Hac. destruct Hac as [z [[= <- <-] Hz]].
      apply neighbors_but_In in Hz. destruct Hz as [Hz _].
      apply neighbors_In in Hz. destruct Hz as [Hz1 [Hz2 _]]. auto.
Qed.

Section Backtrack.
Variable D : Domains.
Hypothesis HD1 : incl (dict_keys D) (variables cw).
Hypothesis Hnc : node_consistent D.
Hypothesis Hin : in_domains D sol (variables cw).

Lemma neighbors_are_keys var n : In n (neighbors cw var) -> dict_get D n <> None.
Proof.
  intros H. apply neighbors_In in H. destruct H as [H _].
  destruct (Hin n H) as [w [d [_ [G _]]]]. rewrite G. discriminate.
Qed.

(** With a solution in the domains, [backtrack] returns, and it returns
    an assignment when the one it is called on is a part of the
    solution. *)
Lemma backtrack_complete : forall fuel a s,
  domains s = D ->
  lengths_ok a -> incl (dict_keys a) (variables cw) -> NoDup (dict_keys a) ->
  List.length (unassigned D a) < fuel ->
  exists r s',
    backtrack cw fuel a s = (Val r, s') /\
    (agrees_with sol a -> fst r = true).
Proof.
  induction fuel as [|fuel IH]; intros a s Hs Hl Hk Hnd Hlt; [lia|].
  rewrite backtrack_unfold. cbv zeta. rewrite Hs.
  destruct (assignment_complete D a) eqn:Hc; [eauto|].
  destruct (select_unassigned_variable_spec cw _ _ Hc) as [var [Hsel [Hun _]]].
  rewrite Hsel.
  pose proof (proj1 (unassigned_In _ _ _) Hun) as [Hvk Hva].
  assert (Hvar : In var (variables cw)) by now apply HD1.
  destruct (Hin var Hvar) as [wv [d [Sv [Gv Wv]]]].
  destruct (order_domain_values_total cw D var a d Gv (neighbors_are_keys var))
    as [vals Ho].
  rewrite Ho.
  pose proof (order_domain_values_In cw D var a vals d Gv Ho) as Hvals.
  assert (Hs1 : domains (mkState D (S (searches s))) = D) by reflexivity.
  revert Hs1. generalize (mkState D (S (searches s))).
  assert (Hsub : forall val, In val vals -> In val d) by (intros; now apply Hvals).
  assert (Hgoal : forall s1, domains s1 = D ->
            exists r s',
              try_values cw (backtrack cw fuel) var vals a s1 = (Val r, s') /\
              (agrees_with sol a -> In wv vals -> fst r = true)).
  2:{ intros s1 Hs1. destruct (Hgoal s1 Hs1) as [r [s' [Hr Hf]]].
      exists r, s'. split; [assumption|]. intros Hag. apply Hf; [assumption|].
      now apply Hvals. }
  clear Hvals Ho. induction vals as [|val vals IHv]; intros s1 Hs1.
  { exists (false, a), s1. split; [reflexivity | intros _ []]. }
  rewrite try_values_cons by (try assumption; apply backtrack_restores).
  assert (Hval : In val d) by (apply Hsub; now left).
  assert (Hsub' : forall v, In v vals -> In v d) by (intros; apply Hsub; now right).
  specialize (IHv Hsub').
  (* the extended assignment *)
  assert (Ea : dict_set a var val = a ++ [(var, val)]) by now apply dict_set_fresh.
  assert (Hl1 : lengths_ok (dict_set a var val)).
  { rewrite Ea. intros v w Hvw. apply in_app_or in Hvw.
    destruct Hvw as [Hvw|[[= <- <-]|[]]]; [now apply Hl|].
    exact (Hnc var d val Gv Hval). }
  assert (Hk1 : incl (dict_keys (dict_set a var val)) (variables cw)).
  { intros k Hk'. apply dict_set_keys in Hk'. destruct Hk' as [->|Hk']; auto. }
  assert (Hnd1 : NoDup (dict_keys (dict_set a var val))).
  { rewrite Ea. unfold dict_keys. rewrite map_app. simpl.
    now apply NoDup_snoc. }
  assert (Hag1 : agrees_with sol a -> val = wv -> agrees_with sol (dict_set a var val)).
  { intros Hag -> v w. rewrite dict_set_get.
    destruct (Var_eq_dec var v) as [<-|ne]; [congruence | apply Hag]. }
  destruct (consistent_total cw (dict_set a var val) solution_in_range Hl1 Hk1)
    as [[|] Hcons]; rewrite Hcons.
  - destruct (IH (dict_set a var val) s1 Hs1 Hl1 Hk1 Hnd1) as [[[|] a1] [s1' [Hb Hbt]]].
    { pose proof (unassigned_set D a var val Hun). lia. }
    + rewrite Hb. exists (true, a1), s1'. auto.
    + rewrite Hb.
      destruct (backtrack_restores cw fuel (dict_set a var val) s1) as [Hd1 _].
      rewrite Hb in Hd1. cbn [snd] in Hd1.
      destruct (IHv s1' (eq_trans Hd1 Hs1)) as [r [s' [Hr Hf]]].
      exists r, s'. split; [assumption|].
      intros Hag [E|Hw]; [|now apply Hf].
      specialize (Hbt (Hag1 Hag E)). discriminate.
  - destruct (IHv s1 Hs1) as [r [s' [Hr Hf]]].
    exists r, s'. split; [assumption|].
    intros Hag [E|Hw]; [|now apply Hf].
    exfalso.
    pose proof (consistent_complete cw (dict_set a var val) Hnd1
                  (consistent_spec_sub cw sol _ Hcs (Hag1 Hag E))) as Ht.
    congruence.
Qed.
End Backtrack.
End Completeness.

(** ** The whole run *)

Lemma crossing_symmetric a b i j vars ws :
  a <> b -> overlaps_symmetric (mkCrossword vars ws (crossing a b i j)).
Proof.
  intros Hab x y i' j'. simpl. unfold crossing.
  destruct (Var_eq_dec x a) as [->|nxa].
  - destruct (Var_eq_dec y b) as [->|nyb]; [|discriminate].
    intros [= <- <-].
    destruct (Var_eq_dec b a) as [E|_]; [congruence|].
    destruct (Var_eq_dec b b) as [_|n]; [|contradiction].
    destruct (Var_eq_dec a a) as [_|n]; [reflexivity | contradiction].
  - destruct (Var_eq_dec x b) as [->|nxb]; [|discriminate].
    destruct (Var_eq_dec y a) as [->|nya]; [|discriminate].
    intros [= <- <-].
    destruct (Var_eq_dec a a) as [_|n]; [|contradiction].
    destruct (Var_eq_dec b b) as [_|n]; [reflexivity | contradiction].
Qed.

Section Solve.
Variable cw : Crossword.

Lemma solve_unfold s :
  solve cw s =
  match enforce_node_consistency s with
  | (Val _, s1) =>
      match ac3 cw None s1 with
      | (Val _, s2) =>
          match backtrack cw (S (List.length (domains s2))) [] s2 with
          | (Val r, s3) => (Val (result_of r), s3)
          | (Exn e, s3) => (Exn e, s3)
          | (OutOfFuel, s3) => (OutOfFuel, s3)
          end
      | (Exn e, s2) => (Exn e, s2)
      | (OutOfFuel, s2) => (OutOfFuel, s2)
      end
  | (Exn e, s1) => (Exn e, s1)
  | (OutOfFuel, s1) => (OutOfFuel, s1)
  end.
Proof.
  unfold solve. unfold bind at 1.
  destruct (enforce_node_consistency s) as [[u|e|] s1]; reflexivity.
Qed.

Lemma init_keys : dict_keys (domains (init cw)) = variables cw.
Proof.
  unfold init, dict_keys. cbn [domains]. rewrite map_map. simpl. apply map_id.
Qed.

Lemma init_get v :
  In v (variables cw) -> dict_get (domains (init cw)) v = Some (words cw).
Proof.
  unfold init. cbn [domains]. induction (variables cw) as [|k l IH]; simpl; [tauto|].
  destruct (Var_eq_dec k v); [reflexivity|]. intros [E|H]; [contradiction | auto].
Qed.

(** The phases of [solve] up to the search: node consistency returns,
    AC-3 does not run out of fuel, the keys stay the variables of the
    puzzle, the domains are node consistent, and the ghost counter is
    still zero. *)
Lemma propagation_spec :
  exists D1 o s2,
    enforce_node_consistency (init cw) = (Val tt, mkState D1 0) /\
    (forall v, dict_get D1 v =
               option_map (filter (fits v)) (dict_get (domains (init cw)) v)) /\
    node_consistent D1 /\
    dict_keys D1 = variables cw /\
    ac3 cw None (mkState D1 0) = (o, s2) /\
    o <> OutOfFuel /\
    searches s2 = 0 /\
    dict_keys (domains s2) = variables cw /\
    node_consistent (domains s2) /\
    shrinks D1 (domains s2).
Proof.
  destruct (enforce_node_consistency_spec (init cw)) as [D1 [Hrun [Hkeys Hget]]].
  cbn [searches init] in Hrun.
  pose proof (enforce_node_consistency_nc _ _ _ Hrun) as Hnc1.
  rewrite init_keys in Hkeys.
  destruct (ac3_frame cw None (mkState D1 0)) as [F1 F2].
  pose proof (ac3_fuel_enough cw None (mkState D1 0)) as Hf.
  destruct (ac3 cw None (mkState D1 0)) as [o s2] eqn:Hac.
  cbn [fst snd domains searches] in *.
  exists D1, o, s2. repeat split; try assumption.
  - destruct F2 as [K _]. now rewrite K.
  - eapply shrinks_node_consistent; eassumption.
  - apply F2.
  - apply F2.
Qed.

(** What the search returns from the empty assignment is complete and
    consistent. *)
Lemma search_result_sound s fuel a s' :
  dict_keys (domains s) = variables cw ->
  backtrack cw fuel [] s = (Val (true, a), s') ->
  complete cw a /\ consistent_spec cw a.
Proof.
  intros K2 Hb.
  assert (HK : incl (dict_keys (domains s)) (variables cw))
    by (rewrite K2; apply incl_refl).
  assert (HN : incl (dict_keys (@nil (Var * word))) (variables cw))
    by (intros v []).
  destruct (backtrack_sound cw _ _ _ _ _ HK HN Hb) as [Hc [Hcons Hk]].
  split.
  - intros v Hv. apply dict_keys_get.
    apply (proj1 (assignment_complete_true _ _) Hc). now rewrite K2.
  - destruct Hcons as [->|Hcons]; [|now apply consistent_sound].
    split; simpl; discriminate.
Qed.
End Solve.

(** Every arc between two keys is in the default worklist, and there is
    nothing to support on the other arcs. *)
Lemma all_arcs_cover (cw : Crossword) (D : Domains) a c :
  a <> c -> In (a, c) (all_arcs D) \/ arc_ok cw D a c.
Proof.
  intros Hac.
  destruct (dict_get D a) as [da|] eqn:Ga.
  - destruct (dict_get D c) as [dc|] eqn:Gc.
    + left. apply all_arcs_In.
      split; [|split; [|assumption]]; eapply dict_get_some_keys; eassumption.
    + right. intros ? ? ? ? ? _ _ G. congruence.
  - right. intros ? ? ? ? ? _ G. congruence.
Qed.

Lemma all_arcs_distinct (D : Domains) a c :
  In (a, c) (all_arcs D) -> a <> c /\ In c (dict_keys D).
Proof. intros H. apply all_arcs_In in H. tauto. Qed.

(** The search on domains of which one is empty: the variable selected has
    no candidate, and the first call returns [None]. *)
Lemma backtrack_empty_domain (cw : Crossword) (s : State) (x : Var) (fuel : nat) :
  dict_get (domains s) x = Some [] ->
  backtrack cw (S fuel) [] s
  = (Val (false, []), mkState (domains s) (S (searches s))).
Proof.
  intros Gx. rewrite backtrack_unfold. cbv zeta.
  assert (Hx : In x (unassigned (domains s) [])).
  { apply unassigned_In. split; [eapply dict_get_some_keys; eassumption | intros []]. }
  destruct (assignment_complete (domains s) []) eqn:Hc.
  { apply unassigned_In in Hx.
    destruct (proj1 (assignment_complete_true _ _) Hc x (proj1 Hx)). }
  destruct (select_unassigned_variable_spec cw _ _ Hc) as [var [Hsel [Hun Hle]]].
  rewrite Hsel. specialize (Hle x Hx). apply key_le_spec in Hle.
  unfold info in Hle. cbn [fst snd] in Hle.
  assert (Ex : domain_of (domains s) x = []) by (unfold domain_of; now rewrite Gx).
  rewrite Ex in Hle. simpl in Hle.
  assert (Ev : domain_of (domains s) var = []).
  { destruct (domain_of (domains s) var); [reflexivity | simpl in Hle; lia]. }
  apply unassigned_In in Hun. destruct Hun as [Hk _].
  apply dict_keys_get in Hk. destruct Hk as [d Gv].
  unfold domain_of in Ev. rewrite Gv in Ev. subst d.
  rewrite (order_domain_values_empty cw _ var [] Gv). reflexivity.
Qed.

(** ** Properties of [solve] and its parts *)

(** C10: on a puzzle without slot variables [solve] returns the empty
    assignment, a success and not [None]: the assignment is complete before
    any variable is selected, after one call of [backtrack]. *)
Theorem solve_no_variables (cw : Crossword) :
  variables cw = [] ->
  solve cw (init cw) = (Val (Some []), mkState [] 1).
Proof.
  intros H. unfold solve, init. rewrite H. reflexivity.
Qed.

Lemma solve_no_variables_witness :
  solve cw_empty (init cw_empty) = (Val (Some []), mkState [] 1).
Proof. apply (solve_no_variables cw_empty). reflexivity. Defined.

(** C9: [backtrack] never writes to [self.domains], whatever its outcome;
    when it returns [None] the assignment maps the same variables to the
    same words as at the call; and it returns within a recursion depth of
    the number of open variables plus one. *)
Theorem backtrack_frame (cw : Crossword) (fuel : nat) (a : Assignment)
        (s : State) :
  domains (snd (backtrack cw fuel a s)) = domains s /\
  (forall a', fst (backtrack cw fuel a s) = Val (false, a') -> a' = a) /\
  (List.length (unassigned (domains s) a) < fuel ->
   fst (backtrack cw fuel a s) <> OutOfFuel).
Proof.
  destruct (backtrack_restores cw fuel a s) as [H1 H2].
  split; [assumption | split].
  - intros a' E. rewrite E in H2. assumption.
  - apply backtrack_fuel.
Qed.

Lemma backtrack_frame_witness :
  fst (backtrack cw_abc 4 [] (propagated cw_abc)) = Val (false, []) /\
  List.length (unassigned (domains (propagated cw_abc)) []) < 4 /\
  domains (snd (backtrack cw_abc 4 [] (propagated cw_abc)))
  = domains (propagated cw_abc) /\
  @nil (Var * word) = [] /\
  fst (backtrack cw_abc 4 [] (propagated cw_abc)) <> OutOfFuel.
Proof.
  assert (E : fst (backtrack cw_abc 4 [] (propagated cw_abc)) = Val (false, []))
    by (vm_compute; reflexivity).
  assert (L : List.length (unassigned (domains (propagated cw_abc)) []) < 4)
    by (vm_compute; lia).
  destruct (backtrack_frame cw_abc 4 [] (propagated cw_abc)) as [H1 [H2 H3]].
  split; [exact E | split; [exact L | split; [exact H1 | split]]].
  - exact (H2 [] E).
  - exact (H3 L).
Defined.

(** C3: every assignment returned by [solve] is complete (a word for every
    variable) and consistent (each word has the length of its variable,
    the words of two variables that overlap have the same letter at the
    overlap, and no two variables have the same word). *)
Theorem solve_sound (cw : Crossword) (a : Assignment) (s' : State) :
  solve cw (init cw) = (Val (Some a), s') ->
  complete cw a /\ consistent_spec cw a.
Proof.
  destruct (propagation_spec cw)
    as [D1 [o [s2 [H1 [_ [_ [_ [H2 [_ [_ [K2 _]]]]]]]]]]].
  rewrite solve_unfold, H1, H2.
  destruct o as [b|e|]; try discriminate.
  destruct (backtrack cw (S (List.length (domains s2))) [] s2)
    as [[[found a']|e|] s3] eqn:Hb; try discriminate.
  unfold result_of. cbn [fst snd]. destruct found; [|discriminate].
  intros [= -> ->]. exact (search_result_sound cw s2 _ a s' K2 Hb).
Qed.

Lemma solve_sound_witness :
  solve cw_bee (init cw_bee) = (Val (Some bee_ear), mkState (domains (propagated cw_bee)) 3) /\
  complete cw_bee bee_ear /\ consistent_spec cw_bee bee_ear.
Proof.
  assert (E : solve cw_bee (init cw_bee)
              = (Val (Some bee_ear), mkState (domains (propagated cw_bee)) 3))
    by (vm_compute; reflexivity).
  split; [exact E|].
  exact (solve_sound cw_bee bee_ear _ E).
Defined.

(** C4: when some complete and consistent assignment takes every
    variable's word from the word list (the domain of every variable before
    propagation), [solve] returns an assignment, and that assignment is
    complete and consistent. *)
Theorem solve_complete (cw : Crossword) (sol : Assignment) :
  consistent_spec cw sol ->
  (forall v, In v (variables cw) ->
     exists w, dict_get sol v = Some w /\ In w (words cw)) ->
  exists a s',
    solve cw (init cw) = (Val (Some a), s') /\
    complete cw a /\ consistent_spec cw a.
Proof.
  intros Hcs Hsol.
  assert (Hsol' : forall v, In v (variables cw) -> exists w, dict_get sol v = Some w).
  { intros v Hv. destruct (Hsol v Hv) as [w [Hw _]]. eauto. }
  destruct (propagation_spec cw)
    as [D1 [o [s2 [H1 [Hget1 [Hnc1 [K1 [H2 [Hf [_ [K2 [Hnc2 _]]]]]]]]]]]].
  assert (Hin1 : in_domains D1 sol (variables cw)).
  { intros v Hv. destruct (Hsol v Hv) as [w [Sw Ww]].
    exists w, (filter (fits v) (words cw)). split; [assumption | split].
    - rewrite Hget1, (init_get cw v Hv). reflexivity.
    - apply filter_In. split; [assumption|].
      apply fits_true. exact (cs_length cw sol Hcs v w Sw). }
  assert (Hq : forall a c, In (a, c) (all_arcs D1) ->
                 a <> c /\ In a (variables cw) /\ In c (variables cw)).
  { intros a c Hac. apply all_arcs_In in Hac. rewrite K1 in Hac. tauto. }
  destruct (ac3_loop_keeps_solution cw sol Hcs Hsol'
              (ac3_fuel cw D1 (all_arcs D1)) (all_arcs D1) (mkState D1 0)
              Hnc1 Hin1 Hq) as [Hne Hin2].
  change (ac3_loop cw (ac3_fuel cw D1 (all_arcs D1)) (all_arcs D1) (mkState D1 0))
    with (ac3 cw None (mkState D1 0)) in Hne, Hin2.
  rewrite H2 in Hne, Hin2. cbn [fst snd] in Hne, Hin2.
  destruct o as [b|e|]; [|now destruct (Hne e) | contradiction].
  assert (HK : incl (dict_keys (domains s2)) (variables cw))
    by (rewrite K2; apply incl_refl).
  destruct (backtrack_complete cw sol Hcs Hsol' (domains s2) HK Hnc2 Hin2
              (S (List.length (domains s2))) [] s2 eq_refl) as [r [s3 [Hb Hr]]].
  - intros v w [].
  - intros v [].
  - constructor.
  - unfold unassigned, dict_keys.
    pose proof (filter_length_le (fun v => negb (dict_mem v (@nil (Var * word))))
                                 (map fst (domains s2))) as Hle.
    rewrite length_map in Hle. lia.
  - assert (Hfound : fst r = true) by (apply Hr; intros v w; discriminate).
    destruct r as [found a]. cbn [fst] in Hfound. subst found.
    exists a, s3. split.
    + rewrite solve_unfold, H1, H2, Hb. reflexivity.
    + exact (search_result_sound cw s2 _ a s3 K2 Hb).
Qed.

Lemma solve_complete_witness :
  consistent_spec cw_bee bee_eat /\
  exists a s',
    solve cw_bee (init cw_bee) = (Val (Some a), s') /\
    complete cw_bee a /\ consistent_spec cw_bee a.
Proof.
  assert (Hcs : consistent_spec cw_bee bee_eat).
  { apply consistent_sound; [|vm_compute; reflexivity].
    intros v Hv. exact Hv. }
  split; [exact Hcs|].
  apply (solve_complete cw_bee bee_eat Hcs).
  intros v [<-|[<-|[]]].
  - exists "bee"%string. split; [reflexivity | simpl; auto].
  - exists "eat"%string. split; [reflexivity | simpl; auto].
Defined.

(** C5: when [ac3] with the default worklist returns [True], then for all
    distinct variables [x], [y] with an overlap [(i, j)], every word left
    in the domain of [x] has a word [u] in the domain of [y] with
    [w[i] == u[j]]. *)
Theorem ac3_arc_consistent (cw : Crossword) (s s' : State) :
  overlaps_symmetric cw ->
  incl (dict_keys (domains s)) (variables cw) ->
  ac3 cw None s = (Val true, s') ->
  forall x y i j dx dy w,
    x <> y -> overlaps cw x y = Some (i, j) ->
    dict_get (domains s') x = Some dx -> dict_get (domains s') y = Some dy ->
    In w dx ->
    exists u, In u dy /\ agree i j w u.
Proof.
  intros Hsym Hkeys Hrun x y i j dx dy w Hxy Hov Hx Hy Hw.
  unfold ac3 in Hrun.
  pose proof (ac3_loop_arc_consistent cw Hsym
                (ac3_fuel cw (domains s) (all_arcs (domains s)))
                (all_arcs (domains s)) s Hkeys
                (all_arcs_distinct (domains s)) (all_arcs_cover cw (domains s)))
    as Hac.
  rewrite Hrun in Hac.
  exact (Hac eq_refl x y Hxy i j dx dy w Hov Hx Hy Hw).
Qed.

Lemma ac3_arc_consistent_witness :
  ac3 cw_bee None (snd (enforce_node_consistency (init cw_bee)))
  = (Val true, propagated cw_bee) /\
  exists u, In u ["ear"; "eat"]%string /\ agree 1 0 "bee"%string u.
Proof.
  assert (E : ac3 cw_bee None (snd (enforce_node_consistency (init cw_bee)))
              = (Val true, propagated cw_bee)) by (vm_compute; reflexivity).
  split; [exact E|].
  apply (ac3_arc_consistent cw_bee
           (snd (enforce_node_consistency (init cw_bee))) (propagated cw_bee)
           (crossing_symmetric bee_across bee_down 1 0 _ _ ltac:(discriminate))
           (fun v Hv => Hv) E bee_across bee_down 1 0 ["bee"%string]).
  - discriminate.
  - reflexivity.
  - vm_compute; reflexivity.
  - vm_compute; reflexivity.
  - now left.
Defined.

(** C8: a second run of [ac3] with the default worklist, on the domains
    that a successful run has left, removes nothing: it returns [True] and
    the domains after it are the domains before it. *)
Theorem ac3_idempotent (cw : Crossword) (s s' : State) :
  overlaps_symmetric cw ->
  incl (dict_keys (domains s)) (variables cw) ->
  ac3 cw None s = (Val true, s') ->
  ac3 cw None s' = (Val true, s').
Proof.
  intros Hsym Hkeys Hrun.
  assert (Hac : arc_consistent cw (domains s')).
  { unfold ac3 in Hrun.
    pose proof (ac3_loop_arc_consistent cw Hsym
                  (ac3_fuel cw (domains s) (all_arcs (domains s)))
                  (all_arcs (domains s)) s Hkeys
                  (all_arcs_distinct (domains s)) (all_arcs_cover cw (domains s)))
      as H.
    rewrite Hrun in H. exact (H eq_refl). }
  unfold ac3. apply ac3_loop_stable; try assumption.
  - intros a c H. apply all_arcs_In in H. tauto.
  - unfold ac3_fuel. lia.
Qed.

Lemma ac3_idempotent_witness :
  ac3 cw_bee None (snd (enforce_node_consistency (init cw_bee)))
  = (Val true, propagated cw_bee) /\
  ac3 cw_bee None (propagated cw_bee) = (Val true, propagated cw_bee).
Proof.
  assert (E : ac3 cw_bee None (snd (enforce_node_consistency (init cw_bee)))
              = (Val true, propagated cw_bee)) by (vm_compute; reflexivity).
  split; [exact E|].
  exact (ac3_idempotent cw_bee
           (snd (enforce_node_consistency (init cw_bee))) (propagated cw_bee)
           (crossing_symmetric bee_across bee_down 1 0 _ _ ltac:(discriminate))
           (fun v Hv => Hv) E).
Defined.

(** C6: [revise(x, y)] changes nothing and returns [False] when the
    overlap of [(x, y)] is null.  Otherwise it returns when the words of
    the two domains have the letters of the overlap, and whenever it
    returns it has kept a word of the domain of [x] exactly when a word of
    the domain of [y] agrees with it at the overlap, has left every other
    domain (that of [y] too) as it was, and returns [True] exactly when it
    removed a word. *)
Theorem revise_spec (cw : Crossword) (x y : Var) (s : State) :
  (overlaps cw x y = None -> dict_get (domains s) x <> None ->
   revise cw x y s = (Val false, s)) /\
  (forall i j dx dy,
     overlaps cw x y = Some (i, j) -> x <> y ->
     dict_get (domains s) x = Some dx -> dict_get (domains s) y = Some dy ->
     ((forall w, In w dx -> i < String.length w) ->
      (forall u, In u dy -> j < String.length u) ->
      exists b s', revise cw x y s = (Val b, s')) /\
     (forall b s',
        revise cw x y s = (Val b, s') ->
        exists dx',
          dict_get (domains s') x = Some dx' /\
          (forall w, In w dx' <-> In w dx /\ exists u, In u dy /\ agree i j w u) /\
          (forall z, z <> x -> dict_get (domains s') z = dict_get (domains s) z) /\
          (b = true <-> exists w, In w dx /\ ~ exists u, In u dy /\ agree i j w u))).
Proof.
  split; [apply revise_no_overlap|].
  intros i j dx dy Hov Hxy Hx Hy.
  split; [apply (revise_total cw x y i j dx dy s Hxy Hov Hx Hy)|].
  intros b s' Hrun.
  destruct (revise_exact cw x y i j dx dy s b s' Hxy Hov Hx Hy Hrun) as [Hs' [Hv Hb]].
  assert (Hkeep : forall w, In w dx ->
            (keep_word i j dy w = true <-> exists u, In u dy /\ agree i j w u)).
  { intros w Hw. split; [apply keep_word_true|].
    intros [u [Hu Hag]]. unfold keep_word.
    destruct (Hv w Hw) as [[|] E]; rewrite E; [reflexivity|].
    destruct (has_support_false i j w dy E u Hu Hag). }
  exists (filter (keep_word i j dy) dx).
  split; [|split; [|split]].
  - rewrite Hs'. cbn [domains]. rewrite dict_adjust_same, Hx. simpl.
    now rewrite prune_self.
  - intros w. rewrite filter_In. split.
    + intros [Hw Hk]. split; [assumption | now apply Hkeep].
    + intros [Hw Hk]. split; [assumption | now apply Hkeep].
  - intros z Hz. rewrite Hs'. cbn [domains]. apply dict_adjust_other. congruence.
  - rewrite Hb, existsb_exists. split.
    + intros [w [Hw Hk]]. exists w. split; [assumption|].
      rewrite <- (Hkeep w Hw). apply negb_true_iff in Hk. congruence.
    + intros [w [Hw Hk]]. exists w. split; [assumption|].
      apply negb_true_iff. rewrite <- (Hkeep w Hw) in Hk.
      destruct (keep_word i j dy w); [now destruct Hk | reflexivity].
Qed.

Lemma revise_spec_witness :
  revise cw_abc (mkVar 0 0 ACROSS 3) (mkVar 2 0 ACROSS 3) (propagated cw_abc)
  = (Val false, propagated cw_abc) /\
  (exists b s',
     revise cw_rain rain_across rain_down
            (snd (enforce_node_consistency (init cw_rain))) = (Val b, s')) /\
  revise cw_rain rain_across rain_down (snd (enforce_node_consistency (init cw_rain)))
  = (Val true, propagated cw_rain) /\
  exists dx',
    dict_get (domains (propagated cw_rain)) rain_across = Some dx' /\
    (forall w, In w dx' <->
               In w ["rain"%string] /\
               exists u, In u ["not"; "now"]%string /\ agree 2 0 w u) /\
    (forall z, z <> rain_across ->
       dict_get (domains (propagated cw_rain)) z
       = dict_get (domains (snd (enforce_node_consistency (init cw_rain)))) z) /\
    (true = true <->
     exists w, In w ["rain"%string] /\
               ~ exists u, In u ["not"; "now"]%string /\ agree 2 0 w u).
Proof.
  assert (E : revise cw_rain rain_across rain_down
                     (snd (enforce_node_consistency (init cw_rain)))
              = (Val true, propagated cw_rain)) by (vm_compute; reflexivity).
  split; [|split; [|split; [exact E|]]].
  - apply (proj1 (revise_spec cw_abc (mkVar 0 0 ACROSS 3) (mkVar 2 0 ACROSS 3)
                              (propagated cw_abc))).
    + reflexivity.
    + vm_compute. discriminate.
  - apply (proj1 (proj2 (revise_spec cw_rain rain_across rain_down
                                     (snd (enforce_node_consistency (init cw_rain))))
                        2 0 ["rain"%string] ["not"; "now"]%string
                        eq_refl ltac:(discriminate) eq_refl eq_refl)).
    + intros w [<-|[]]. vm_compute. lia.
    + intros u [<-|[<-|[]]]; vm_compute; lia.
  - apply (proj2 (proj2 (revise_spec cw_rain rain_across rain_down
                                     (snd (enforce_node_consistency (init cw_rain))))
                        2 0 ["rain"%string] ["not"; "now"]%string
                        eq_refl ltac:(discriminate) eq_refl eq_refl)
                 true (propagated cw_rain) E).
Defined.

(** C7: after [enforce_node_consistency] every word of every domain has the
    length of its variable; [revise] and [ac3] only remove words from the
    domains, whatever their arguments and their outcome, so that they keep
    this invariant; and [backtrack] leaves the domains as they are. *)
Theorem length_invariant (cw : Crossword) (s : State) :
  (exists s', enforce_node_consistency s = (Val tt, s') /\
              node_consistent (domains s')) /\
  (forall x y,
     shrinks (domains s) (domains (snd (revise cw x y s))) /\
     (node_consistent (domains s) ->
      node_consistent (domains (snd (revise cw x y s))))) /\
  (forall arcs,
     shrinks (domains s) (domains (snd (ac3 cw arcs s))) /\
     (node_consistent (domains s) ->
      node_consistent (domains (snd (ac3 cw arcs s))))) /\
  (forall fuel a, domains (snd (backtrack cw fuel a s)) = domains s).
Proof.
  split; [|split; [|split]].
  - destruct (enforce_node_consistency_spec s) as [D' [Hrun _]].
    exists (mkState D' (searches s)). split; [assumption|].
    eapply enforce_node_consistency_nc; eassumption.
  - intros x y. destruct (revise_frame cw x y s) as [_ [H _]].
    split; [assumption | now apply shrinks_node_consistent].
  - intros arcs. destruct (ac3_frame cw arcs s) as [_ H].
    split; [assumption | now apply shrinks_node_consistent].
  - intros fuel a. apply backtrack_restores.
Qed.

Lemma length_invariant_witness :
  node_consistent (domains (snd (enforce_node_consistency (init cw_rain)))) /\
  node_consistent
    (domains (snd (revise cw_rain rain_across rain_down
                          (snd (enforce_node_consistency (init cw_rain)))))) /\
  node_consistent (domains (propagated cw_rain)).
Proof.
  assert (N : node_consistent (domains (snd (enforce_node_consistency (init cw_rain))))).
  { destruct (proj1 (length_invariant cw_rain (init cw_rain))) as [s' [E H]].
    rewrite E. exact H. }
  split; [exact N | split].
  - exact (proj2 (proj1 (proj2 (length_invariant cw_rain
             (snd (enforce_node_consistency (init cw_rain)))))
             rain_across rain_down) N).
  - exact (proj2 (proj1 (proj2 (proj2 (length_invariant cw_rain
             (snd (enforce_node_consistency (init cw_rain))))))
             None) N).
Defined.

(** C1, as the code has it: when [ac3] (default worklist) has emptied a
    domain and returned [False], [solve] discards that result and still
    calls [backtrack], once; the call finds no candidate for the variable
    it selects, and [solve] returns [None], the domains being those that
    [ac3] left. *)
Theorem solve_after_failed_propagation (cw : Crossword) (s1 s2 : State) :
  enforce_node_consistency (init cw) = (Val tt, s1) ->
  ac3 cw None s1 = (Val false, s2) ->
  solve cw (init cw) = (Val None, mkState (domains s2) 1).
Proof.
  intros H1 H2.
  destruct (propagation_spec cw) as [D1 [o [s2' [E1 [_ [_ [_ [E2 [_ [Hs _]]]]]]]]]].
  rewrite H1 in E1. injection E1 as ->. rewrite H2 in E2. injection E2 as <- <-.
  pose proof (ac3_loop_false cw (ac3_fuel cw D1 (all_arcs D1)) (all_arcs D1)
                (mkState D1 0)) as Hf.
  change (ac3_loop cw (ac3_fuel cw D1 (all_arcs D1)) (all_arcs D1) (mkState D1 0))
    with (ac3 cw None (mkState D1 0)) in Hf.
  rewrite H2 in Hf. destruct (Hf eq_refl) as [x Gx].
  rewrite solve_unfold, H1, H2.
  rewrite (backtrack_empty_domain cw s2 x _ Gx), Hs. reflexivity.
Qed.

Lemma solve_after_failed_propagation_witness :
  ac3 cw_rain None (snd (enforce_node_consistency (init cw_rain)))
  = (Val false, propagated cw_rain) /\
  solve cw_rain (init cw_rain) = (Val None, mkState (domains (propagated cw_rain)) 1).
Proof.
  assert (E1 : enforce_node_consistency (init cw_rain)
               = (Val tt, snd (enforce_node_consistency (init cw_rain))))
    by (vm_compute; reflexivity).
  assert (E2 : ac3 cw_rain None (snd (enforce_node_consistency (init cw_rain)))
               = (Val false, propagated cw_rain)) by (vm_compute; reflexivity).
  split; [exact E2|].
  exact (solve_after_failed_propagation cw_rain _ _ E1 E2).
Defined.

(** C1, as stated, fails on "rain" crossed by "not"/"now": [ac3] empties
    the domain of the across slot and returns [False], and [backtrack] is
    called all the same. *)
Lemma search_runs_after_failed_propagation :
  ~ (fst (ac3 cw_rain None (snd (enforce_node_consistency (init cw_rain)))) = Val false ->
     fst (solve cw_rain (init cw_rain)) = Val None /\
     searches (snd (solve cw_rain (init cw_rain))) = 0).
Proof.
  intros H. destruct H as [_ H]; [vm_compute; reflexivity|].
  vm_compute in H. discriminate.
Qed.

(** C2 at the corner puzzle: the three variables have domains of the same
    size when the search starts, the two slots of the corner have one
    neighbour and the slot apart has none, and
    [select_unassigned_variable] returns the slot apart, the variable of
    the lowest degree. *)
Theorem select_takes_lowest_degree :
  let D := domains (propagated cw_corner) in
  select_unassigned_variable cw_corner D [] = Val apart /\
  List.length (domain_of D corner_across) = List.length (domain_of D apart) /\
  List.length (domain_of D corner_down) = List.length (domain_of D apart) /\
  List.length (neighbors cw_corner apart) = 0 /\
  List.length (neighbors cw_corner corner_across) = 1 /\
  List.length (neighbors cw_corner corner_down) = 1.
Proof. vm_compute. repeat split. Qed.

(** ** The scenarios of the specification *)

(** One slot of length three and the words "cat" and "dog": one of the two
    is returned. *)
Example scenario_single_slot :
  fst (solve cw_lone (init cw_lone)) = Val (Some [(lone, "cat"%string)]).
Proof. vm_compute. reflexivity. Qed.

(** "rain" crossed at its third letter by "not" or "now": propagation
    empties the domain of the slot across, and there is no solution. *)
Example scenario_rain :
  fst (ac3 cw_rain None (snd (enforce_node_consistency (init cw_rain)))) = Val false /\
  dict_get (domains (propagated cw_rain)) rain_across = Some [] /\
  fst (solve cw_rain (init cw_rain)) = Val None.
Proof. vm_compute. repeat split. Qed.

(** "bee" crossed at its second letter by "ear" or "eat": both words stay,
    and the first in the order of the domain is taken. *)
Example scenario_bee :
  dict_get (domains (propagated cw_bee)) bee_down = Some ["ear"; "eat"]%string /\
  fst (solve cw_bee (init cw_bee)) = Val (Some bee_ear).
Proof. vm_compute. repeat split. Qed.

(** Three slots and the single word "abc": no word may be used twice, and
    there is no solution. *)
Example scenario_abc : fst (solve cw_abc (init cw_abc)) = Val None.
Proof. vm_compute. reflexivity. Qed.

(** Two open variables, one with a domain of size one and no neighbour, one
    with a domain of size three and two neighbours: the first is
    selected. *)
Example scenario_minimum_remaining_values :
  let D := domains (propagated cw_gate) in
  let a := [(left_post, "aaa"%string); (right_post, "aba"%string)] in
  unassigned D a = [bar; long_apart] /\
  info cw_gate D bar = (bar, 3, 2) /\
  info cw_gate D long_apart = (long_apart, 1, 0) /\
  select_unassigned_variable cw_gate D a = Val long_apart.
Proof. vm_compute. repeat split. Qed.

(** ** The grid of letters *)

Lemma replace_nth_length {A} (l : list A) : forall n a,
  List.length (replace_nth n a l) = List.length l.
Proof.
  induction l as [|b l IH]; intros [|n] a; simpl; try reflexivity.
  now rewrite IH.
Qed.

Lemma replace_nth_In {A} (l : list A) : forall n a x,
  In x (replace_nth n a l) -> x = a \/ In x l.
Proof.
  induction l as [|b l IH]; intros [|n] a x; simpl; try tauto.
  - intros [<-|H]; auto.
  - intros [<-|H]; [auto|]. destruct (IH n a x H); auto.
Qed.

Lemma replace_nth_same {A} (l : list A) : forall n a,
  n < List.length l -> nth_error (replace_nth n a l) n = Some a.
Proof.
  induction l as [|b l IH]; intros [|n] a; simpl; try lia; [reflexivity|].
  intros H. apply IH. lia.
Qed.

Lemma replace_nth_other {A} (l : list A) : forall n m a,
  n <> m -> nth_error (replace_nth n a l) m = nth_error l m.
Proof.
  induction l as [|b l IH]; intros [|n] [|m] a H; simpl; try reflexivity;
    try congruence.
  apply IH. congruence.
Qed.

Lemma rect_row h w (g : Grid) r row :
  rect h w g -> nth_error g r = Some row -> r < h /\ List.length row = w.
Proof.
  intros [Hh Hw] Hr. split.
  - rewrite <- Hh. apply nth_error_Some. congruence.
  - apply Hw. eapply nth_error_In; eassumption.
Qed.

Lemma rect_blank h w : rect h w (repeat (repeat None w) h).
Proof.
  split; [apply repeat_length|].
  intros row Hr. apply repeat_spec in Hr. subst row. apply repeat_length.
Qed.

Lemma grid_get_blank h w r c :
  r < h -> c < w -> grid_get (repeat (repeat None w) h) r c = Some None.
Proof.
  intros Hr Hc. unfold grid_get.
  rewrite (nth_error_repeat (repeat (@None ascii) w) Hr).
  apply nth_error_repeat. assumption.
Qed.

(** A write inside the grid changes that cell only; a write outside it
    raises. *)
Lemma set_cell_spec h w (g : Grid) i j c :
  rect h w g ->
  (i < h /\ j < w ->
   exists g', set_cell g i j c = Val g' /\ rect h w g' /\
              grid_get g' i j = Some (Some c) /\
              forall r c', (r, c') <> (i, j) -> grid_get g' r c' = grid_get g r c') /\
  (~ (i < h /\ j < w) -> set_cell g i j c = Exn IndexError).
Proof.
  intros Hrect. unfold set_cell. destruct (nth_error g i) as [row|] eqn:Hrow.
  - destruct (rect_row h w g i row Hrect Hrow) as [Hi Hlen]. rewrite Hlen.
    destruct (Nat.ltb_spec j w) as [Hj|Hj].
    + split; [|tauto]. intros _.
      exists (replace_nth i (replace_nth j (Some c) row) g).
      assert (Hig : i < List.length g) by (destruct Hrect; lia).
      split; [reflexivity | split; [|split]].
      * destruct Hrect as [Hh Hw]. split; [now rewrite replace_nth_length|].
        intros row' Hin. apply replace_nth_In in Hin.
        destruct Hin as [->|Hin]; [now rewrite replace_nth_length | now apply Hw].
      * unfold grid_get. rewrite replace_nth_same by assumption.
        apply replace_nth_same. lia.
      * intros r c' Hne. unfold grid_get.
        destruct (Nat.eq_dec i r) as [<-|Hir].
        -- rewrite replace_nth_same by assumption. rewrite Hrow.
           apply replace_nth_other. congruence.
        -- now rewrite replace_nth_other.
    + split; [lia | reflexivity].
  - split; [|reflexivity]. intros [Hi _].
    apply nth_error_None in Hrow. destruct Hrect. lia.
Qed.

Section LetterGrid.
Variables h w : nat.

Lemma write_word_spec v (word : word) : forall ks g,
  rect h w g -> (forall k, In k ks -> k < String.length word) ->
  match write_word v word ks g with
  | Val g' => rect h w g' /\ forall k, In k ks -> in_grid h w (cell v k)
  | Exn e => e = IndexError /\ exists k, In k ks /\ ~ in_grid h w (cell v k)
  | OutOfFuel => False
  end.
Proof.
  induction ks as [|k ks IH]; intros g Hrect Hks.
  - simpl. split; [assumption | intros k []].
  - cbn [write_word].
    destruct (get_in_range word k (Hks k (or_introl eq_refl))) as [x Hx].
    unfold index. rewrite Hx. cbn [obind].
    assert (Hcell : (var_i v + match var_direction v with DOWN => k | ACROSS => 0 end,
                     var_j v + match var_direction v with ACROSS => k | DOWN => 0 end)
                    = cell v k).
    { unfold cell. destruct (var_direction v); now rewrite Nat.add_0_r. }
    set (i := var_i v + match var_direction v with DOWN => k | ACROSS => 0 end) in *.
    set (j := var_j v + match var_direction v with ACROSS => k | DOWN => 0 end) in *.
    destruct (set_cell_spec h w g i j x Hrect) as [Hin Hout].
    destruct (Nat.lt_ge_cases i h) as [Hi|Hi];
      [destruct (Nat.lt_ge_cases j w) as [Hj|Hj]|].
    + destruct (Hin (conj Hi Hj)) as [g1 [E [Hrect1 _]]]. rewrite E. cbn [obind].
      specialize (IH g1 Hrect1 (fun k' Hk' => Hks k' (or_intror Hk'))).
      destruct (write_word v word ks g1) as [g'|e|].
      * destruct IH as [Hr' Hb']. split; [assumption|].
        intros k' [<-|Hk']; [|now apply Hb'].
        rewrite <- Hcell. split; assumption.
      * destruct IH as [He [k' [Hk' Hn]]]. split; [assumption|].
        exists k'. split; [now right | assumption].
      * assumption.
    + rewrite Hout by lia. cbn [obind]. split; [reflexivity|].
      exists k. split; [now left|]. rewrite <- Hcell. unfold in_grid. simpl. lia.
    + rewrite Hout by lia. cbn [obind]. split; [reflexivity|].
      exists k. split; [now left|]. rewrite <- Hcell. unfold in_grid. simpl. lia.
Qed.

Lemma write_items_spec : forall (items : list (Var * word)) g,
  rect h w g ->
  match write_items items g with
  | Val g' =>
      rect h w g' /\
      forall v word k, In (v, word) items -> k < String.length word ->
                       in_grid h w (cell v k)
  | Exn e =>
      e = IndexError /\
      exists v word k, In (v, word) items /\ k < String.length word /\
                       ~ in_grid h w (cell v k)
  | OutOfFuel => False
  end.
Proof.
  induction items as [|[v word] items IH]; intros g Hrect.
  - simpl. split; [assumption | intros v word k []].
  - cbn [write_items].
    pose proof (write_word_spec v word (seq 0 (String.length word)) g Hrect) as Hw.
    assert (Hseq : forall k, In k (seq 0 (String.length word)) <-> k < String.length word).
    { intros k. rewrite in_seq. lia. }
    specialize (Hw (fun k Hk => proj1 (Hseq k) Hk)).
    destruct (write_word v word (seq 0 (String.length word)) g) as [g1|e|];
      cbn [obind]; [| |assumption].
    + destruct Hw as [Hrect1 Hb1]. specialize (IH g1 Hrect1).
      destruct (write_items items g1) as [g'|e|]; [| |assumption].
      * destruct IH as [Hr' Hb']. split; [assumption|].
        intros v' word' k [[= <- <-]|Hin] Hk; [|now apply (Hb' v' word')].
        apply Hb1. now apply Hseq.
      * destruct IH as [He [v' [word' [k [Hin [Hk Hn]]]]]]. split; [assumption|].
        exists v', word', k. split; [now right | tauto].
    + destruct Hw as [He [k [Hk Hn]]]. split; [assumption|].
      exists v, word, k. split; [now left | split; [now apply Hseq | assumption]].
Qed.
End LetterGrid.

(** ** More on node consistency and arc revision *)

Lemma prune_all keep l c :
  (forall w, In w l -> keep w = true) -> prune keep l c = c.
Proof.
  revert c. induction l as [|a l IH]; intros c H; simpl; [reflexivity|].
  rewrite (H a) by now left. apply IH. intros; apply H. now right.
Qed.

Lemma nc_loop_fixed D n : forall ks,
  node_consistent D -> (forall k, In k ks -> dict_get D k <> None) ->
  for_each ks (fun var =>
      domain_copy <- get_dom var ;;
      for_each domain_copy (fun word =>
        if Nat.eqb (String.length word) (var_length var) then ret tt
        else domain_remove var word)) (mkState D n)
  = (Val tt, mkState D n).
Proof.
  intros ks Hnc. unfold for_each at 1.
  induction ks as [|k ks IH]; intros Hks; [reflexivity|].
  destruct (dict_get D k) as [d|] eqn:G; [|now destruct (Hks k (or_introl eq_refl))].
  cbn [foldM]. unfold bind at 1. unfold bind at 1.
  unfold get_dom, reads, lookup. cbn [domains]. rewrite G.
  fold (for_each d (fun word =>
      if Nat.eqb (String.length word) (var_length k) then ret tt
      else domain_remove k word)).
  rewrite nc_inner_loop by (rewrite G; discriminate).
  rewrite dict_adjust_id.
  - apply IH. intros k' Hk'. apply Hks. now right.
  - intros c. apply prune_all. intros w Hw. apply fits_true.
    exact (Hnc k d w G Hw).
Qed.

Lemma enforce_node_consistency_fixed s :
  node_consistent (domains s) -> enforce_node_consistency s = (Val tt, s).
Proof.
  destruct s as [D n]. intros Hnc. unfold enforce_node_consistency.
  cbn [domains]. apply nc_loop_fixed; [assumption|].
  intros k. apply dict_get_keys.
Qed.

Section ReviseMore.
Variable cw : Crossword.

(** [revise(x, y)] writes to no domain but that of [x]. *)
Lemma revise_only_x x y s z :
  z <> x ->
  dict_get (domains (snd (revise cw x y s))) z = dict_get (domains s) z.
Proof.
  intros Hz. rewrite revise_unfold.
  destruct (dict_get (domains s) x) as [dx|]; [|reflexivity].
  destruct (overlaps cw x y) as [[i j]|]; [|reflexivity].
  pose (J := fun s1 : State => dict_get (domains s1) z = dict_get (domains s) z).
  assert (H : match foldM (revise_body x y i j) dx false s with
              | (Val _, s') => J s'
              | (Exn _, s') => J s'
              | (OutOfFuel, s') => J s'
              end).
  { apply (foldM_inv (fun _ s1 => J s1) J J); [|reflexivity].
    intros w b s1 _ HJ.
    unfold bind at 1. unfold get_dom at 1, reads at 1, lookup at 1.
    destruct (dict_get (domains s1) y) as [ys|]; [|exact HJ].
    unfold bind at 1, lift at 1.
    destruct (has_support i j w ys) as [[|]|e|]; try exact HJ.
    unfold bind at 1. unfold domain_remove at 1.
    destruct (dict_get (domains s1) x); [|exact HJ].
    unfold ret, J. cbn [domains]. rewrite dict_adjust_other by congruence.
    exact HJ. }
  destruct (foldM _ dx false s) as [[b|e|] s']; exact H.
Qed.

Lemma revise_empty_domain x y s :
  dict_get (domains s) x = Some [] -> revise cw x y s = (Val false, s).
Proof.
  intros Hx. rewrite revise_unfold, Hx.
  destruct (overlaps cw x y) as [[i j]|]; reflexivity.
Qed.

Lemma revise_missing_y x y i j w d s :
  dict_get (domains s) x = Some (w :: d) -> overlaps cw x y = Some (i, j) ->
  dict_get (domains s) y = None ->
  revise cw x y s = (Exn KeyError, s).
Proof.
  intros Hx Hov Hy. rewrite revise_unfold, Hx, Hov.
  cbn [foldM]. unfold bind at 1. unfold bind at 1.
  unfold get_dom at 1, reads at 1, lookup at 1. now rewrite Hy.
Qed.

(** The value that AC-3 returns and the empty domains. *)
Lemma ac3_loop_reports fuel queue s :
  (forall v d, dict_get (domains s) v = Some d -> d <> []) ->
  (fst (ac3_loop cw fuel queue s) = Val true ->
   forall v d, dict_get (domains (snd (ac3_loop cw fuel queue s))) v = Some d -> d <> []) /\
  (fst (ac3_loop cw fuel queue s) = Val false ->
   exists x, dict_get (domains (snd (ac3_loop cw fuel queue s))) x = Some []).
Proof.
  intros Hne.
  apply (ac3_loop_inv cw
    (fun _ s1 => forall v d, dict_get (domains s1) v = Some d -> d <> [])
    (fun o s1 =>
       (o = Val true -> forall v d, dict_get (domains s1) v = Some d -> d <> []) /\
       (o = Val false -> exists x, dict_get (domains s1) x = Some [])));
    [ | | |assumption].
  - intros s1 H. split; [auto | discriminate].
  - intros q s1 _. split; discriminate.
  - intros x y q s0 H0.
    pose proof (revise_only_x x y s0) as Ho.
    destruct (revise_frame cw x y s0) as [_ [_ [_ [_ [F5 _]]]]].
    destruct (revise cw x y s0) as [[[|]|e|] s1]; cbn [fst snd] in *.
    + destruct (dict_get (domains s1) x) as [[|w d]|] eqn:G1.
      * split; [discriminate|]. intros _. now exists x.
      * intros v d' Hv. destruct (Var_eq_dec v x) as [->|ne].
        -- rewrite G1 in Hv. injection Hv as <-. discriminate.
        -- rewrite Ho in Hv by assumption. now apply (H0 v).
      * split; discriminate.
    + now rewrite (F5 eq_refl).
    + split; discriminate.
    + split; discriminate.
Qed.
End ReviseMore.

(** ** More on the stable sort and the heuristics *)

Section SortedMore.
Context {A : Type} (le : A -> A -> bool).

Lemma insert_sorted_perm a l : Permutation (insert_sorted le a l) (a :: l).
Proof.
  induction l as [|b l IH]; simpl; [apply Permutation_refl|].
  destruct (le a b); [apply Permutation_refl|].
  eapply perm_trans; [apply perm_skip, IH | apply perm_swap].
Qed.

Lemma sorted_perm l : Permutation (sorted le l) l.
Proof.
  induction l as [|a l IH]; simpl; [constructor|].
  eapply perm_trans; [apply insert_sorted_perm | now apply perm_skip].
Qed.

(** The first element of the sorted list is the first of the list that no
    earlier element is below or level with. *)
Lemma sorted_head_first l h t :
  sorted le l = h :: t ->
  exists l1 l2, l = l1 ++ h :: l2 /\ forall a, In a l1 -> le a h = false.
Proof.
  revert h t. induction l as [|a l IH]; intros h t; simpl; [discriminate|].
  destruct (sorted le l) as [|h' t'] eqn:E.
  - apply sorted_nil in E. subst l. simpl. intros [= <- <-].
    exists [], []. split; [reflexivity | intros b []].
  - simpl. destruct (le a h') eqn:Hle.
    + intros [= <- <-]. exists [], l. split; [reflexivity | intros b []].
    + intros [= <- <-]. destruct (IH h' _ eq_refl) as [l1 [l2 [Hl Hb]]].
      exists (a :: l1), l2. split; [simpl; congruence|].
      intros b [<-|Hin]; [assumption | now apply Hb].
Qed.
End SortedMore.

Lemma StronglySorted_map {A B} (f : A -> B) (P : A -> A -> Prop)
      (Q : B -> B -> Prop) (l : list A) :
  (forall a b, In a l -> In b l -> P a b -> Q (f a) (f b)) ->
  StronglySorted P l -> StronglySorted Q (map f l).
Proof.
  intros H Hs. induction Hs as [|a l Hs IH Ha]; simpl; [constructor|].
  constructor.
  - apply IH. intros x y Hx Hy. apply H; now right.
  - rewrite Forall_forall in *. intros y Hy. apply in_map_iff in Hy.
    destruct Hy as [x [<- Hx]]. apply H; [now left | now right | now apply Ha].
Qed.

Section HeuristicsMore.
Variable cw : Crossword.

Lemma count_ruled_out_spec D x : forall ns c,
  (forall n, In n ns -> dict_get D n <> None) ->
  count_ruled_out D x ns c
  = Val (c + List.length (filter (fun n => set_mem x (domain_of D n)) ns)).
Proof.
  induction ns as [|n ns IH]; intros c Hk; simpl; [now rewrite Nat.add_0_r|].
  unfold lookup, domain_of at 1.
  destruct (dict_get D n) as [d|] eqn:G; [|now destruct (Hk n (or_introl eq_refl))].
  simpl. rewrite IH by (intros; apply Hk; now right).
  destruct (set_mem x d); simpl; f_equal; lia.
Qed.

Lemma collect_values_spec D var : forall xs acc,
  (forall n, In n (neighbors cw var) -> dict_get D n <> None) ->
  collect_values D (neighbors cw var) xs acc
  = Val (acc ++ map (fun x => (x, ruled_out cw D var x)) xs).
Proof.
  induction xs as [|x xs IH]; intros acc Hk; simpl; [now rewrite app_nil_r|].
  rewrite count_ruled_out_spec by assumption. simpl.
  rewrite IH by assumption. now rewrite <- app_assoc.
Qed.

Lemma order_domain_values_spec D var a d :
  dict_get D var = Some d ->
  (forall n, In n (neighbors cw var) -> dict_get D n <> None) ->
  order_domain_values cw D var a
  = Val (map fst (sorted (fun p q => Nat.leb (snd p) (snd q))
                         (map (fun x => (x, ruled_out cw D var x)) d))).
Proof.
  intros Hd Hk. unfold order_domain_values, lookup. rewrite Hd. simpl.
  rewrite (collect_values_spec D var d [] Hk). reflexivity.
Qed.

Lemma select_unassigned_variable_complete D a :
  assignment_complete D a = true ->
  select_unassigned_variable cw D a = Exn IndexError.
Proof.
  intros Hc. unfold select_unassigned_variable.
  rewrite collect_unassigned_spec by (intros v; apply dict_get_keys).
  simpl. fold (unassigned D a).
  assert (E : unassigned D a = []).
  { destruct (unassigned D a) as [|v l] eqn:E; [reflexivity|].
    assert (Hv : In v (unassigned D a)) by (rewrite E; now left).
    apply unassigned_In in Hv. destruct Hv as [Hk Hn].
    destruct (Hn (proj1 (assignment_complete_true D a) Hc v Hk)). }
  rewrite E. reflexivity.
Qed.

(** The variable selected is the first open key, in the order of the
    dictionary, that no open key is below. *)
Lemma select_unassigned_variable_first D a var :
  select_unassigned_variable cw D a = Val var ->
  exists before after,
    unassigned D a = before ++ var :: after /\
    (forall v, In v before -> key_le (info cw D v) (info cw D var) = false) /\
    (forall v, In v (unassigned D a) -> key_le (info cw D var) (info cw D v) = true).
Proof.
  unfold select_unassigned_variable.
  rewrite collect_unassigned_spec by (intros v; apply dict_get_keys).
  simpl. fold (unassigned D a).
  destruct (sorted key_le (map (info cw D) (unassigned D a))) as [|[[var' dsz] nsz] t] eqn:E;
    [discriminate|].
  intros [= ->].
  destruct (sorted_head_first key_le _ _ _ E) as [l1 [l2 [Hl Hb]]].
  apply map_eq_app in Hl. destruct Hl as [before [rest [Hu [H1 H2]]]].
  destruct rest as [|v0 after]; [discriminate|].
  assert (Hv0 : info cw D v0 = (var, dsz, nsz)) by (cbn [map] in H2; congruence).
  assert (v0 = var) by (unfold info in Hv0; congruence). subst v0.
  exists before, after. split; [assumption | split].
  - intros v Hv. change (key_le (info cw D v) (info cw D var) = false).
    rewrite Hv0. apply Hb. rewrite <- H1. now apply in_map.
  - intros v Hv. change (key_le (info cw D var) (info cw D v) = true).
    rewrite Hv0.
    apply (sorted_head_least key_le key_le_total key_le_trans _ _ _ E).
    now apply in_map.
Qed.
End HeuristicsMore.

(** ** More on the search *)

Section SearchInvariant.
Variable cw : Crossword.
Variable D : Domains.
Variable P : Assignment -> Prop.
Hypothesis P_extends : forall a var val d,
  P a -> In var (unassigned D a) -> dict_get D var = Some d -> In val d ->
  P (dict_set a var val).

(** A property of assignments that every trial of the search keeps holds
    of the assignment returned. *)
Lemma backtrack_result_inv : forall fuel a s a' s',
  domains s = D -> P a ->
  backtrack cw fuel a s = (Val (true, a'), s') -> P a'.
Proof.
  induction fuel as [|fuel IH]; intros a s a' s' HD Ha; [discriminate|].
  rewrite backtrack_unfold. cbv zeta. rewrite HD.
  destruct (assignment_complete D a) eqn:Hc.
  { now intros [= <- <-]. }
  destruct (select_unassigned_variable_spec cw _ _ Hc) as [var [Hs [Hin _]]].
  rewrite Hs.
  destruct (order_domain_values cw D var a) as [vals|e|] eqn:Ho; try discriminate.
  destruct (dict_get D var) as [d|] eqn:Gv.
  2:{ unfold order_domain_values, lookup in Ho. rewrite Gv in Ho. discriminate. }
  pose proof (order_domain_values_In cw D var a vals d Gv Ho) as Hvals.
  assert (Hsub : forall val, In val vals -> In val d) by (intros; now apply Hvals).
  clear Hvals Ho.
  pose proof (proj2 (proj1 (unassigned_In _ _ _) Hin)) as Hvar.
  assert (Hs1 : domains (mkState D (S (searches s))) = D) by reflexivity.
  revert Hs1. generalize (mkState D (S (searches s))).
  induction vals as [|val vals IHv]; intros s1 Hs1; [discriminate|].
  rewrite try_values_cons by (try assumption; apply backtrack_restores).
  assert (Hsub' : forall v, In v vals -> In v d) by (intros; apply Hsub; now right).
  destruct (consistent cw (dict_set a var val)) as [[|]|e|];
    try discriminate; [|now apply IHv].
  destruct (backtrack_restores cw fuel (dict_set a var val) s1) as [Hd _].
  destruct (backtrack cw fuel (dict_set a var val) s1) as [[[[|] a1]|e|] s1'] eqn:Hb;
    cbn [fst snd] in *; try discriminate.
  - intros [= <- <-].
    apply (IH (dict_set a var val) s1 a1 s1' Hs1); [|assumption].
    apply (P_extends a var val d); try assumption. apply Hsub. now left.
  - apply IHv; [assumption | congruence].
Qed.
End SearchInvariant.

Section WellFormed.
Variable cw : Crossword.
Hypothesis Hrange : overlaps_in_range cw.

(** AC-3 does not raise on node-consistent domains of a puzzle whose
    overlaps are positions of its words. *)
Lemma ac3_loop_total fuel queue s :
  node_consistent (domains s) ->
  (forall v, In v (variables cw) -> dict_get (domains s) v <> None) ->
  (forall a c, In (a, c) queue ->
     a <> c /\ In a (variables cw) /\ In c (variables cw)) ->
  forall e, fst (ac3_loop cw fuel queue s) <> Exn e.
Proof.
  intros Hnc Hk Hq.
  apply (ac3_loop_inv cw
    (fun q s1 =>
       (forall a c, In (a, c) q ->
          a <> c /\ In a (variables cw) /\ In c (variables cw)) /\
       node_consistent (domains s1) /\
       (forall v, In v (variables cw) -> dict_get (domains s1) v <> None))
    (fun o s1 => forall e, o <> Exn e)); try discriminate; [|auto].
  intros x y q s0 [Q [Hnc0 Hk0]].
  destruct (Q x y (or_introl eq_refl)) as [Hxy [Hx Hy]].
  assert (Q' : forall a c, In (a, c) q ->
                 a <> c /\ In a (variables cw) /\ In c (variables cw))
    by (intros; apply Q; now right).
  destruct (dict_get (domains s0) x) as [dx|] eqn:Gx; [|now destruct (Hk0 x Hx)].
  destruct (dict_get (domains s0) y) as [dy|] eqn:Gy; [|now destruct (Hk0 y Hy)].
  destruct (overlaps cw x y) as [[i j]|] eqn:Hov.
  2:{ rewrite revise_no_overlap by (try assumption; rewrite Gx; discriminate).
      auto. }
  destruct (Hrange x y i j Hx Hy Hxy Hov) as [Ri Rj].
  assert (Hi : forall w, In w dx -> i < String.length w).
  { intros w Hw. rewrite (Hnc0 x dx w Gx Hw). assumption. }
  assert (Hj : forall u, In u dy -> j < String.length u).
  { intros u Hu. rewrite (Hnc0 y dy u Gy Hu). assumption. }
  destruct (revise_total cw x y i j dx dy s0 Hxy Hov Gx Gy Hi Hj) as [b [s1 Hrun]].
  destruct (revise_frame cw x y s0) as [_ [F _]].
  rewrite Hrun in *. cbn [snd] in F.
  assert (Hnc1 : node_consistent (domains s1))
    by (eapply shrinks_node_consistent; eassumption).
  assert (Hk1 : forall v, In v (variables cw) -> dict_get (domains s1) v <> None).
  { intros v Hv. apply dict_get_keys. destruct F as [K _]. rewrite K.
    apply dict_get_keys. now apply Hk0. }
  destruct b; [|auto].
  destruct (dict_get (domains s1) x) as [[|w0 d0]|] eqn:G1.
  - discriminate.
  - split; [|auto].
    intros a c Hac. apply in_app_or in Hac. destruct Hac as [Hac|Hac]; [now apply Q'|].
    apply in_map_iff in Hac. destruct Hac as [z [[= <- <-] Hz]].
    apply neighbors_but_In in Hz. destruct Hz as [Hz _].
    apply neighbors_In in Hz. destruct Hz as [Hz1 [Hz2 _]]. auto.
  - now destruct (Hk1 x Hx).
Qed.

(** The search does not raise on such domains. *)
Lemma backtrack_total (D : Domains) :
  incl (dict_keys D) (variables cw) ->
  (forall v, In v (variables cw) -> dict_get D v <> None) ->
  node_consistent D ->
  forall fuel a s,
    domains s = D -> lengths_ok a -> incl (dict_keys a) (variables cw) ->
    List.length (unassigned D a) < fuel ->
    exists r s', backtrack cw fuel a s = (Val r, s').
Proof.
  intros HD1 HD2 Hnc.
  induction fuel as [|fuel IH]; intros a s Hs Hl Hk Hlt; [lia|].
  rewrite backtrack_unfold. cbv zeta. rewrite Hs.
  destruct (assignment_complete D a) eqn:Hc; [eauto|].
  destruct (select_unassigned_variable_spec cw _ _ Hc) as [var [Hsel [Hun _]]].
  rewrite Hsel.
  pose proof (proj1 (unassigned_In _ _ _) Hun) as [Hvk Hva].
  destruct (dict_keys_get D var Hvk) as [d Gv].
  destruct (order_domain_values_total cw D var a d Gv) as [vals Ho].
  { intros n Hn. apply neighbors_In in Hn. apply HD2, Hn. }
  rewrite Ho.
  pose proof (order_domain_values_In cw D var a vals d Gv Ho) as Hvals.
  assert (Hsub : forall val, In val vals -> In val d) by (intros; now apply Hvals).
  clear Hvals Ho.
  assert (Hs1 : domains (mkState D (S (searches s))) = D) by reflexivity.
  revert Hs1. generalize (mkState D (S (searches s))).
  induction vals as [|val vals IHv]; intros s1 Hs1.
  { exists (false, a), s1. reflexivity. }
  rewrite try_values_cons by (try assumption; apply backtrack_restores).
  assert (Hsub' : forall v, In v vals -> In v d) by (intros; apply Hsub; now right).
  specialize (IHv Hsub').
  assert (Hl1 : lengths_ok (dict_set a var val)).
  { rewrite dict_set_fresh by assumption. intros v w Hvw. apply in_app_or in Hvw.
    destruct Hvw as [Hvw|[[= <- <-]|[]]]; [now apply Hl|].
    apply (Hnc var d val Gv). apply Hsub. now left. }
  assert (Hk1 : incl (dict_keys (dict_set a var val)) (variables cw)).
  { intros k Hk'. apply dict_set_keys in Hk'. destruct Hk' as [->|Hk']; auto. }
  destruct (consistent_total cw (dict_set a var val) Hrange Hl1 Hk1)
    as [[|] Hcons]; rewrite Hcons; [|now apply IHv].
  destruct (IH (dict_set a var val) s1 Hs1 Hl1 Hk1) as [[[|] a1] [s1' Hb]].
  { pose proof (unassigned_set D a var val Hun). lia. }
  - rewrite Hb. eauto.
  - rewrite Hb.
    destruct (backtrack_restores cw fuel (dict_set a var val) s1) as [Hd1 _].
    rewrite Hb in Hd1. cbn [snd] in Hd1. apply IHv. congruence.
Qed.
End WellFormed.

(** ** Further properties of the solver *)

Lemma crossing_in_range a b i j vars ws :
  i < var_length a -> j < var_length b ->
  overlaps_in_range (mkCrossword vars ws (crossing a b i j)).
Proof.
  intros Hi Hj x y i' j' _ _ _. simpl. unfold crossing.
  destruct (Var_eq_dec x a) as [->|nxa].
  - destruct (Var_eq_dec y b) as [->|nyb]; [|discriminate].
    intros [= <- <-]. tauto.
  - destruct (Var_eq_dec x b) as [->|nxb]; [|discriminate].
    destruct (Var_eq_dec y a) as [->|nya]; [|discriminate].
    intros [= <- <-]. tauto.
Qed.

(** X1: [enforce_node_consistency] returns without raising; it keeps the
    keys of [self.domains] and the ghost counter, and leaves of every domain
    exactly the words that have the length of the variable, in their
    order. *)
Theorem enforce_node_consistency_exact (s : State) :
  exists s',
    enforce_node_consistency s = (Val tt, s') /\
    searches s' = searches s /\
    dict_keys (domains s') = dict_keys (domains s) /\
    forall v, dict_get (domains s') v
              = option_map (filter (fits v)) (dict_get (domains s) v).
Proof.
  destruct (enforce_node_consistency_spec s) as [D' [Hrun [Hkeys Hget]]].
  exists (mkState D' (searches s)).
  split; [exact Hrun | split; [reflexivity | split; assumption]].
Qed.

(** X2: on domains that are node consistent already,
    [enforce_node_consistency] removes nothing and leaves the state as it
    is; a second call after a first one is such a call. *)
Theorem enforce_node_consistency_idempotent (s : State) :
  (node_consistent (domains s) -> enforce_node_consistency s = (Val tt, s)) /\
  (forall s', enforce_node_consistency s = (Val tt, s') ->
              enforce_node_consistency s' = (Val tt, s')).
Proof.
  split; [apply enforce_node_consistency_fixed|].
  intros s' Hrun. apply enforce_node_consistency_fixed.
  destruct s' as [D' n']. eapply enforce_node_consistency_nc; eassumption.
Qed.

Lemma enforce_node_consistency_idempotent_witness :
  enforce_node_consistency (init cw_rain)
  = (Val tt, snd (enforce_node_consistency (init cw_rain))) /\
  enforce_node_consistency (snd (enforce_node_consistency (init cw_rain)))
  = (Val tt, snd (enforce_node_consistency (init cw_rain))).
Proof.
  assert (E : enforce_node_consistency (init cw_rain)
              = (Val tt, snd (enforce_node_consistency (init cw_rain))))
    by (vm_compute; reflexivity).
  split; [exact E|].
  exact (proj2 (enforce_node_consistency_idempotent (init cw_rain)) _ E).
Defined.

(** X3: the subscripts of [revise(x, y)].  When [x] is not a key of
    [self.domains] it raises [KeyError].  For distinct variables, when the
    domain of [x] is empty it returns [False] without reading the domain of
    [y]; when the domain of [x] has a word, the overlap is not null and [y]
    is not a key, it raises [KeyError].  The state is as before in the
    three cases. *)
Theorem revise_missing_keys (cw : Crossword) (x y : Var) (s : State) :
  (dict_get (domains s) x = None -> revise cw x y s = (Exn KeyError, s)) /\
  (x <> y -> dict_get (domains s) x = Some [] ->
   revise cw x y s = (Val false, s)) /\
  (forall i j w d,
     x <> y ->
     dict_get (domains s) x = Some (w :: d) -> overlaps cw x y = Some (i, j) ->
     dict_get (domains s) y = None ->
     revise cw x y s = (Exn KeyError, s)).
Proof.
  split; [|split].
  - intros Hx. rewrite revise_unfold, Hx. reflexivity.
  - intros _. apply revise_empty_domain.
  - intros i j w d _. apply revise_missing_y.
Qed.

Lemma revise_missing_keys_witness :
  revise cw_rain rain_down rain_across rain_only = (Exn KeyError, rain_only) /\
  revise cw_rain rain_across rain_down rain_none = (Val false, rain_none) /\
  revise cw_rain rain_across rain_down rain_only = (Exn KeyError, rain_only).
Proof.
  split; [|split].
  - apply (proj1 (revise_missing_keys cw_rain rain_down rain_across rain_only)).
    reflexivity.
  - apply (proj1 (proj2 (revise_missing_keys cw_rain rain_across rain_down rain_none))).
    + discriminate.
    + reflexivity.
  - apply (proj2 (proj2 (revise_missing_keys cw_rain rain_across rain_down rain_only))
                 2 0 "rain"%string []); [discriminate | reflexivity ..].
Defined.

(** X4: whatever its arguments and its outcome (a raise in the middle of
    the loop too, which leaves the words removed so far removed),
    [revise(x, y)] keeps the keys of [self.domains] and writes to no domain
    but that of [x]: every other key has the domain it had. *)
Theorem revise_writes_only_x (cw : Crossword) (x y : Var) (s : State) :
  dict_keys (domains (snd (revise cw x y s))) = dict_keys (domains s) /\
  forall z, z <> x ->
    dict_get (domains (snd (revise cw x y s))) z = dict_get (domains s) z.
Proof.
  destruct (revise_frame cw x y s) as [_ [[K _] _]].
  split; [assumption|].
  intros z Hz. now apply revise_only_x.
Qed.

Lemma revise_writes_only_x_witness :
  dict_get (domains (snd (revise cw_rain rain_across rain_down
                                 (snd (enforce_node_consistency (init cw_rain))))))
           rain_down
  = Some ["not"; "now"]%string.
Proof.
  rewrite (proj2 (revise_writes_only_x cw_rain rain_across rain_down
                    (snd (enforce_node_consistency (init cw_rain))))
                 rain_down ltac:(discriminate)).
  vm_compute. reflexivity.
Defined.

(** X5: [revise(x, y)] is idempotent: after a call that returned, a second
    call with the same two distinct variables returns [False] and leaves
    the state as it is. *)
Theorem revise_idempotent (cw : Crossword) (x y : Var) (s : State)
        (b : bool) (s' : State) :
  x <> y -> revise cw x y s = (Val b, s') ->
  revise cw x y s' = (Val false, s').
Proof.
  intros Hxy Hrun.
  destruct (dict_get (domains s) x) as [dx|] eqn:Hx.
  2:{ rewrite revise_unfold, Hx in Hrun. discriminate. }
  destruct (overlaps cw x y) as [[i j]|] eqn:Hov.
  2:{ rewrite revise_no_overlap in Hrun by (try assumption; rewrite Hx; discriminate).
      injection Hrun as <- <-.
      apply revise_no_overlap; [assumption | rewrite Hx; discriminate]. }
  destruct (dict_get (domains s) y) as [dy|] eqn:Hy.
  2:{ destruct dx as [|w d].
      - rewrite (revise_empty_domain cw) in Hrun by assumption.
        injection Hrun as <- <-. now apply revise_empty_domain.
      - rewrite (revise_missing_y cw x y i j w d s Hx Hov Hy) in Hrun. discriminate. }
  destruct (revise_exact cw x y i j dx dy s b s' Hxy Hov Hx Hy Hrun) as [Hs' [Hv _]].
  assert (Gx : dict_get (domains s') x = Some (filter (keep_word i j dy) dx)).
  { rewrite Hs'. cbn [domains]. rewrite dict_adjust_same, Hx. simpl.
    now rewrite prune_self. }
  assert (Gy : dict_get (domains s') y = Some dy).
  { rewrite Hs'. cbn [domains]. now rewrite dict_adjust_other. }
  rewrite revise_unfold, Gx, Hov.
  destruct s' as [D' n']. cbn [domains] in Gx, Gy.
  destruct (revise_loop_exact x y i j dy Hxy (filter (keep_word i j dy) dx) false D' n' Gy)
    as [l1 [l2 [Hl [Hst [_ Hr]]]]].
  { rewrite Gx. discriminate. }
  assert (Hall : forall w, In w (filter (keep_word i j dy) dx) -> keep_word i j dy w = true).
  { intros w Hw. now apply filter_In in Hw. }
  destruct (foldM _ (filter (keep_word i j dy) dx) false (mkState D' n')) as [[b'|e|] s2];
    cbn [fst snd] in *.
  - destruct Hr as [-> ->]. rewrite app_nil_r in Hl. subst l1.
    rewrite Hst. f_equal.
    + f_equal. apply not_true_is_false. intros H. apply existsb_exists in H.
      destruct H as [w [Hw Hk]]. rewrite (Hall w Hw) in Hk. discriminate.
    + f_equal. apply dict_adjust_id. intros c. now apply prune_all.
  - exfalso. destruct Hr as [w [Hw He]]. apply filter_In in Hw.
    destruct (Hv w (proj1 Hw)) as [v Hv']. congruence.
  - contradiction.
Qed.

Lemma revise_idempotent_witness :
  revise cw_bee bee_across bee_down
         (snd (revise cw_bee bee_across bee_down
                      (snd (enforce_node_consistency (init cw_bee)))))
  = (Val false,
     snd (revise cw_bee bee_across bee_down
                 (snd (enforce_node_consistency (init cw_bee))))).
Proof.
  apply (revise_idempotent cw_bee bee_across bee_down
           (snd (enforce_node_consistency (init cw_bee))) true).
  - discriminate.
  - vm_compute. reflexivity.
Defined.

(** X6: the value that [ac3] returns, for the default worklist and for
    any list of arcs of distinct variables.  When no domain is empty at the
    call, [ac3] returns [True] only with no domain empty at return, and
    [False] only with an empty domain at return. *)
Theorem ac3_return_value (cw : Crossword) (arcs : option (list (Var * Var)))
        (s s' : State) (b : bool) :
  (forall l x y, arcs = Some l -> In (x, y) l -> x <> y) ->
  (forall v d, dict_get (domains s) v = Some d -> d <> []) ->
  ac3 cw arcs s = (Val b, s') ->
  if b then forall v d, dict_get (domains s') v = Some d -> d <> []
  else exists x, dict_get (domains s') x = Some [].
Proof.
  intros _ Hne Hrun. unfold ac3 in Hrun. cbv zeta in Hrun.
  set (queue := match arcs with
                | Some l => l
                | None => all_arcs (domains s)
                end) in Hrun.
  destruct (ac3_loop_reports cw (ac3_fuel cw (domains s) queue) queue s Hne)
    as [Ht Hf].
  rewrite Hrun in Ht, Hf. cbn [fst snd] in Ht, Hf.
  destruct b; [now apply Ht | now apply Hf].
Qed.

Lemma ac3_return_value_witness :
  exists x, dict_get (domains (propagated cw_rain)) x = Some [].
Proof.
  apply (ac3_return_value cw_rain None
           (snd (enforce_node_consistency (init cw_rain)))
           (propagated cw_rain) false).
  - discriminate.
  - intros v d H. apply dict_get_In in H. vm_compute in H.
    destruct H as [[= <- <-]|[[= <- <-]|[]]]; discriminate.
  - vm_compute. reflexivity.
Defined.

(** X7: [ac3] removes no word of a solution.  On node-consistent domains
    whose keys are the variables, with arcs of distinct variables (the
    default worklist is such a list), when a consistent assignment takes
    every variable's word from its domain, [ac3] returns [True] and every
    one of these words is still in its domain. *)
Theorem ac3_keeps_solutions (cw : Crossword) (sol : Assignment)
        (arcs : option (list (Var * Var))) (s : State) :
  consistent_spec cw sol ->
  node_consistent (domains s) ->
  dict_keys (domains s) = variables cw ->
  in_domains (domains s) sol (variables cw) ->
  (forall l a c, arcs = Some l -> In (a, c) l ->
     a <> c /\ In a (variables cw) /\ In c (variables cw)) ->
  exists s',
    ac3 cw arcs s = (Val true, s') /\
    in_domains (domains s') sol (variables cw).
Proof.
  intros Hcs Hnc Hkeys Hin Harcs.
  assert (Hsol : forall v, In v (variables cw) -> exists w, dict_get sol v = Some w).
  { intros v Hv. destruct (Hin v Hv) as [w [d [H _]]]. eauto. }
  pose proof (ac3_fuel_enough cw arcs s) as Hfuel.
  destruct (ac3_frame cw arcs s) as [_ [Hk _]].
  unfold ac3 in *. cbv zeta in *.
  set (queue := match arcs with
                | Some l => l
                | None => all_arcs (domains s)
                end) in *.
  assert (Hq : forall a c, In (a, c) queue ->
                 a <> c /\ In a (variables cw) /\ In c (variables cw)).
  { intros a c Hac. subst queue. destruct arcs as [l|].
    - now apply (Harcs l).
    - apply all_arcs_In in Hac. rewrite Hkeys in Hac. tauto. }
  destruct (ac3_loop_keeps_solution cw sol Hcs Hsol
              (ac3_fuel cw (domains s) queue) queue s Hnc Hin Hq) as [Hexn Hin'].
  pose proof (ac3_loop_false cw (ac3_fuel cw (domains s) queue) queue s) as Hfalse.
  destruct (ac3_loop cw (ac3_fuel cw (domains s) queue) queue s)
    as [[[|]|e|] s']; cbn [fst snd] in *.
  - eauto.
  - exfalso. destruct (Hfalse eq_refl) as [x Hx].
    assert (Hxv : In x (variables cw)).
    { rewrite <- Hkeys, <- Hk. now apply dict_get_some_keys with (v := []). }
    destruct (Hin' x Hxv) as [w [d [_ [Hd Hw]]]].
    rewrite Hx in Hd. injection Hd as <-. destruct Hw.
  - now destruct (Hexn e).
  - now destruct Hfuel.
Qed.

Lemma ac3_keeps_solutions_witness :
  exists s',
    ac3 cw_bee None (snd (enforce_node_consistency (init cw_bee)))
    = (Val true, s') /\
    in_domains (domains s') bee_eat (variables cw_bee).
Proof.
  apply (ac3_keeps_solutions cw_bee bee_eat None
           (snd (enforce_node_consistency (init cw_bee)))).
  - apply consistent_sound; [|vm_compute; reflexivity].
    intros v Hv. exact Hv.
  - intros v d w H Hw. apply dict_get_In in H. vm_compute in H.
    destruct H as [[= <- <-]|[[= <- <-]|[]]];
      simpl in Hw; destruct Hw as [<-|[<-|[<-|[]]]]; reflexivity.
  - reflexivity.
  - intros v [<-|[<-|[]]].
    + exists "bee"%string, ["bee"; "ear"; "eat"]%string.
      split; [reflexivity | split; [reflexivity | simpl; auto]].
    + exists "eat"%string, ["bee"; "ear"; "eat"]%string.
      split; [reflexivity | split; [reflexivity | simpl; auto]].
  - discriminate.
Defined.

(** X8: [consistent] decides the consistency of an assignment.  For an
    assignment whose keys are distinct variables of the puzzle, it returns
    [True] exactly when the lengths fit, crossing letters are equal and no
    word is used twice; when every word has the length of its variable and
    the overlaps are positions of the words, it raises nothing. *)
Theorem consistent_decides (cw : Crossword) (a : Assignment) :
  NoDup (dict_keys a) -> incl (dict_keys a) (variables cw) ->
  (consistent cw a = Val true <-> consistent_spec cw a) /\
  (overlaps_in_range cw -> lengths_ok a ->
   (consistent cw a = Val false <-> ~ consistent_spec cw a)).
Proof.
  intros Hnd Hk.
  assert (Hiff : consistent cw a = Val true <-> consistent_spec cw a).
  { split; [now apply consistent_sound | now apply consistent_complete]. }
  split; [exact Hiff|].
  intros Hrange Hl.
  destruct (consistent_total cw a Hrange Hl Hk) as [b Hb].
  split.
  - intros Hf Hcs. apply Hiff in Hcs. congruence.
  - intros Hn. destruct b; [|assumption].
    destruct (Hn (proj1 Hiff Hb)).
Qed.

Lemma consistent_decides_witness :
  (consistent cw_bee bee_ear = Val true <-> consistent_spec cw_bee bee_ear) /\
  (consistent cw_bee [(bee_across, "ear"%string); (bee_down, "eat"%string)]
   = Val false <->
   ~ consistent_spec cw_bee [(bee_across, "ear"%string); (bee_down, "eat"%string)]).
Proof.
  split.
  - apply (consistent_decides cw_bee bee_ear).
    + repeat constructor; simpl; intuition discriminate.
    + intros v Hv. exact Hv.
  - apply (consistent_decides cw_bee
             [(bee_across, "ear"%string); (bee_down, "eat"%string)]).
    + repeat constructor; simpl; intuition discriminate.
    + intros v Hv. exact Hv.
    + apply crossing_in_range; simpl; lia.
    + intros v w [[= <- <-]|[[= <- <-]|[]]]; reflexivity.
Defined.

(** X9: [select_unassigned_variable].  On a complete assignment the list
    to sort is empty and [s[0]] raises [IndexError].  Otherwise the result
    is an open variable whose pair (size of the domain, number of
    neighbours) is the least in the lexicographic order, and among those
    with the least pair it is the first in the order of the keys of
    [self.domains]. *)
Theorem select_unassigned_variable_least (cw : Crossword) (D : Domains)
        (a : Assignment) :
  (assignment_complete D a = true ->
   select_unassigned_variable cw D a = Exn IndexError) /\
  (assignment_complete D a = false ->
   exists var before after,
     select_unassigned_variable cw D a = Val var /\
     unassigned D a = before ++ var :: after /\
     (forall v, In v (unassigned D a) ->
        List.length (domain_of D var) < List.length (domain_of D v) \/
        (List.length (domain_of D var) = List.length (domain_of D v) /\
         List.length (neighbors cw var) <= List.length (neighbors cw v))) /\
     (forall v, In v before ->
        List.length (domain_of D var) < List.length (domain_of D v) \/
        (List.length (domain_of D var) = List.length (domain_of D v) /\
         List.length (neighbors cw var) < List.length (neighbors cw v)))).
Proof.
  split; [apply select_unassigned_variable_complete|].
  intros Hc.
  destruct (select_unassigned_variable_spec cw D a Hc) as [var [Hs _]].
  destruct (select_unassigned_variable_first cw D a var Hs)
    as [before [after [Hu [Hb Hl]]]].
  exists var, before, after.
  split; [assumption | split; [assumption | split]].
  - intros v Hv. apply Hl in Hv. apply key_le_spec in Hv. exact Hv.
  - intros v Hv.
    assert (Hin : In v (unassigned D a))
      by (rewrite Hu; apply in_or_app; now left).
    apply Hl in Hin. apply key_le_spec in Hin.
    pose proof (Hb v Hv) as Hf.
    destruct (key_le_spec (info cw D v) (info cw D var)) as [_ K].
    unfold info in Hin, K. cbn [fst snd] in Hin, K.
    destruct Hin as [H|[H1 H2]]; [now left|right].
    split; [assumption|].
    destruct (Nat.lt_ge_cases (List.length (neighbors cw var))
                              (List.length (neighbors cw v))) as [|Hge];
      [assumption|].
    change (key_le (info cw D v) (info cw D var) = false) in Hf.
    unfold info in Hf. rewrite K in Hf; [discriminate|].
    right. split; [now symmetry | assumption].
Qed.

Lemma select_unassigned_variable_least_witness :
  select_unassigned_variable cw_bee (domains (propagated cw_bee)) bee_ear
  = Exn IndexError /\
  exists var before after,
    select_unassigned_variable cw_corner (domains (propagated cw_corner)) []
    = Val var /\
    unassigned (domains (propagated cw_corner)) [] = before ++ var :: after /\
    (forall v, In v (unassigned (domains (propagated cw_corner)) []) ->
       List.length (domain_of (domains (propagated cw_corner)) var)
       < List.length (domain_of (domains (propagated cw_corner)) v) \/
       (List.length (domain_of (domains (propagated cw_corner)) var)
        = List.length (domain_of (domains (propagated cw_corner)) v) /\
        List.length (neighbors cw_corner var)
        <= List.length (neighbors cw_corner v))) /\
    (forall v, In v before ->
       List.length (domain_of (domains (propagated cw_corner)) var)
       < List.length (domain_of (domains (propagated cw_corner)) v) \/
       (List.length (domain_of (domains (propagated cw_corner)) var)
        = List.length (domain_of (domains (propagated cw_corner)) v) /\
        List.length (neighbors cw_corner var)
        < List.length (neighbors cw_corner v))).
Proof.
  split.
  - apply (proj1 (select_unassigned_variable_least cw_bee
                    (domains (propagated cw_bee)) bee_ear)).
    vm_compute. reflexivity.
  - apply (proj2 (select_unassigned_variable_least cw_corner
                    (domains (propagated cw_corner)) [])).
    vm_compute. reflexivity.
Defined.

(** The stable sort keeps the order of the elements that a test selects,
    when any two of them are level. *)
Lemma insert_sorted_filter {A} (le : A -> A -> bool) (p : A -> bool) a l :
  (forall x y, p x = true -> p y = true -> le x y = true) ->
  filter p (insert_sorted le a l) = filter p (a :: l).
Proof.
  intros Hp. induction l as [|b l IH]; [reflexivity|].
  cbn [insert_sorted]. destruct (le a b) eqn:Hab; [reflexivity|].
  cbn [filter] in *. rewrite IH.
  destruct (p a) eqn:Pa, (p b) eqn:Pb; try reflexivity.
  rewrite (Hp a b Pa Pb) in Hab. discriminate.
Qed.

Lemma sorted_filter {A} (le : A -> A -> bool) (p : A -> bool) l :
  (forall x y, p x = true -> p y = true -> le x y = true) ->
  filter p (sorted le l) = filter p l.
Proof.
  intros Hp. induction l as [|a l IH]; [reflexivity|].
  cbn [sorted]. rewrite insert_sorted_filter by assumption.
  cbn [filter]. now rewrite IH.
Qed.

Lemma filter_map_swap {A B} (f : A -> B) (p : B -> bool) l :
  filter p (map f l) = map f (filter (fun x => p (f x)) l).
Proof.
  induction l as [|a l IH]; [reflexivity|].
  cbn [map filter]. rewrite IH. now destruct (p (f a)).
Qed.

Lemma count_ruled_out_missing D x n : forall ns c,
  In n ns -> dict_get D n = None -> count_ruled_out D x ns c = Exn KeyError.
Proof.
  induction ns as [|m ns IH]; intros c Hin Hn; [destruct Hin|].
  cbn [count_ruled_out]. unfold lookup.
  destruct (dict_get D m) as [d|] eqn:Gm; [|reflexivity].
  cbn [obind]. apply IH; [|assumption].
  destruct Hin as [->|]; [congruence | assumption].
Qed.

(** X10: [order_domain_values].  It raises [KeyError] when [var] is not a
    key of [self.domains], and when the domain has a word and some
    neighbour is not a key.  Otherwise it returns the words of the domain,
    each as many times as the domain has it, in ascending order of the
    number of neighbours whose domain holds the word; words with the same
    number keep the order of the domain.  The assignment plays no part. *)
Theorem order_domain_values_sorts (cw : Crossword) (D : Domains) (var : Var)
        (a : Assignment) :
  (dict_get D var = None -> order_domain_values cw D var a = Exn KeyError) /\
  (forall x d n, dict_get D var = Some (x :: d) ->
     In n (neighbors cw var) -> dict_get D n = None ->
     order_domain_values cw D var a = Exn KeyError) /\
  (forall d, dict_get D var = Some d ->
     (forall n, In n (neighbors cw var) -> dict_get D n <> None) ->
     exists vals,
       order_domain_values cw D var a = Val vals /\
       Permutation vals d /\
       StronglySorted
         (fun x y => ruled_out cw D var x <= ruled_out cw D var y) vals /\
       forall c, filter (fun x => Nat.eqb (ruled_out cw D var x) c) vals
                 = filter (fun x => Nat.eqb (ruled_out cw D var x) c) d).
Proof.
  split; [|split].
  - intros Hv. unfold order_domain_values, lookup. now rewrite Hv.
  - intros x d n Hv Hn Hmiss. unfold order_domain_values, lookup.
    rewrite Hv. cbn [obind collect_values].
    now rewrite (count_ruled_out_missing D x n (neighbors cw var) 0 Hn Hmiss).
  - intros d Hv Hk.
    set (r := ruled_out cw D var).
    set (le := fun p q : word * nat => Nat.leb (snd p) (snd q)).
    set (g := fun x : word => (x, r x)).
    exists (map fst (sorted le (map g d))).
    assert (Hsnd : forall p, In p (sorted le (map g d)) -> snd p = r (fst p)).
    { intros p Hp. apply sorted_In in Hp. apply in_map_iff in Hp.
      destruct Hp as [x [<- _]]. reflexivity. }
    split; [exact (order_domain_values_spec cw D var a d Hv Hk) | split; [|split]].
    + replace d with (map fst (map g d)) at 2
        by (rewrite map_map; apply map_id).
      apply Permutation_map, sorted_perm.
    + apply (StronglySorted_map fst (fun p q => le p q = true));
        [|apply sorted_strongly; unfold le; intros;
           repeat match goal with
                  | H : Nat.leb _ _ = true |- _ => apply Nat.leb_le in H
                  | H : Nat.leb _ _ = false |- _ => apply Nat.leb_gt in H
                  end; apply Nat.leb_le; lia].
      intros p q Hp Hq Hle. unfold le in Hle. apply Nat.leb_le in Hle.
      now rewrite <- (Hsnd p Hp), <- (Hsnd q Hq).
    + intros c. rewrite filter_map_swap.
      rewrite (filter_ext_in (fun p => Nat.eqb (r (fst p)) c)
                             (fun p => Nat.eqb (snd p) c))
        by (intros p Hp; now rewrite (Hsnd p Hp)).
      rewrite sorted_filter.
      * rewrite filter_map_swap, map_map. cbn [snd fst]. apply map_id.
      * intros p q Hp Hq. apply Nat.eqb_eq in Hp, Hq. unfold le.
        apply Nat.leb_le. lia.
Qed.

Lemma order_domain_values_sorts_witness :
  exists vals,
    order_domain_values cw_bee (domains (propagated cw_bee)) bee_down [] = Val vals /\
    Permutation vals ["ear"; "eat"]%string /\
    StronglySorted
      (fun x y => ruled_out cw_bee (domains (propagated cw_bee)) bee_down x
                  <= ruled_out cw_bee (domains (propagated cw_bee)) bee_down y)
      vals /\
    forall c,
      filter (fun x => Nat.eqb (ruled_out cw_bee (domains (propagated cw_bee))
                                          bee_down x) c) vals
      = filter (fun x => Nat.eqb (ruled_out cw_bee (domains (propagated cw_bee))
                                            bee_down x) c)
               ["ear"; "eat"]%string.
Proof.
  apply (proj2 (proj2 (order_domain_values_sorts cw_bee
                         (domains (propagated cw_bee)) bee_down []))).
  - vm_compute. reflexivity.
  - intros n [<-|[]]. vm_compute. discriminate.
Defined.

(** X11: the dictionary that [backtrack] returns on success is the
    dictionary of the call with items appended: the items of the call are
    kept as they are, in their order, and each new item gives a key of
    [self.domains] that the call had left open, once, a word of its
    domain. *)
Theorem backtrack_extends (cw : Crossword) (fuel : nat) (a a' : Assignment)
        (s s' : State) :
  backtrack cw fuel a s = (Val (true, a'), s') ->
  exists l,
    a' = a ++ l /\
    NoDup (dict_keys l) /\
    (forall v, In v (dict_keys l) ->
       In v (dict_keys (domains s)) /\ ~ In v (dict_keys a)) /\
    (forall v w, In (v, w) l ->
       exists d, dict_get (domains s) v = Some d /\ In w d).
Proof.
  intros Hrun.
  apply (backtrack_result_inv cw (domains s)
           (fun a1 : Assignment =>
              exists l,
                a1 = a ++ l /\
                NoDup (dict_keys l) /\
                (forall v, In v (dict_keys l) ->
                   In v (dict_keys (domains s)) /\ ~ In v (dict_keys a)) /\
                (forall v w, In (v, w) l ->
                   exists d, dict_get (domains s) v = Some d /\ In w d)))
    with (fuel := fuel) (a := a) (s := s) (s' := s');
    [ | reflexivity | | assumption].
  - intros a1 var val d [l [-> [Hnd [Hfresh Hdom]]]] Hun Hd Hval.
    apply unassigned_In in Hun. destruct Hun as [Hkey Hopen].
    unfold dict_keys in Hopen. rewrite map_app in Hopen.
    exists (l ++ [(var, val)]).
    split; [|split; [|split]].
    + rewrite dict_set_fresh, app_assoc; [reflexivity|].
      unfold dict_keys. now rewrite map_app.
    + unfold dict_keys. rewrite map_app. cbn [map fst].
      apply NoDup_app; [assumption | repeat constructor; intros [] |].
      intros v Hv [<-|[]]. apply Hopen, in_or_app. now right.
    + intros v Hv. unfold dict_keys in Hv. rewrite map_app in Hv.
      apply in_app_or in Hv. destruct Hv as [Hv|[<-|[]]]; [now apply Hfresh|].
      split; [assumption|]. intros Hin. apply Hopen, in_or_app. now left.
    + intros v w Hvw. apply in_app_or in Hvw.
      destruct Hvw as [Hvw|[[= <- <-]|[]]]; [now apply (Hdom v w) | eauto].
  - exists []. split; [now rewrite app_nil_r | split; [constructor|]].
    split; [intros v [] | intros v w []].
Qed.

Lemma backtrack_extends_witness :
  exists l,
    bee_ear = [(bee_across, "bee"%string)] ++ l /\
    NoDup (dict_keys l) /\
    (forall v, In v (dict_keys l) ->
       In v (dict_keys (domains (propagated cw_bee))) /\
       ~ In v (dict_keys [(bee_across, "bee"%string)])) /\
    (forall v w, In (v, w) l ->
       exists d, dict_get (domains (propagated cw_bee)) v = Some d /\ In w d).
Proof.
  apply (backtrack_extends cw_bee 2 [(bee_across, "bee"%string)] bee_ear
           (propagated cw_bee)
           (snd (backtrack cw_bee 2 [(bee_across, "bee"%string)]
                           (propagated cw_bee)))).
  vm_compute. reflexivity.
Defined.

(** X12: the assignment that [solve] returns has every variable of the
    puzzle as a key, once, and nothing else, and all its words are words
    of the word list of the puzzle. *)
Theorem solve_uses_the_word_list (cw : Crossword) (a : Assignment)
        (s' : State) :
  solve cw (init cw) = (Val (Some a), s') ->
  NoDup (dict_keys a) /\
  (forall v, In v (dict_keys a) <-> In v (variables cw)) /\
  (forall v w, In (v, w) a -> In w (words cw)).
Proof.
  destruct (propagation_spec cw)
    as [D1 [o [s2 [H1 [Hget1 [_ [K1 [H2 [_ [_ [K2 [_ [_ Hsub]]]]]]]]]]]]].
  rewrite solve_unfold, H1, H2.
  destruct o as [b|e|]; try discriminate.
  destruct (backtrack cw (S (List.length (domains s2))) [] s2)
    as [[[found a1]|e|] s3] eqn:Hb; try discriminate.
  unfold result_of. cbn [fst snd]. destruct found; [|discriminate].
  intros [= -> ->].
  destruct (search_result_sound cw s2 _ a s' K2 Hb) as [Hcomplete _].
  assert (P : NoDup (dict_keys a) /\
              (forall v, In v (dict_keys a) -> In v (variables cw)) /\
              (forall v w, In (v, w) a -> In w (words cw))).
  { apply (backtrack_result_inv cw (domains s2)
             (fun a1 : Assignment =>
                NoDup (dict_keys a1) /\
                (forall v, In v (dict_keys a1) -> In v (variables cw)) /\
                (forall v w, In (v, w) a1 -> In w (words cw))))
      with (fuel := S (List.length (domains s2))) (a := []) (s := s2) (s' := s');
      [ | reflexivity | | assumption].
    - intros a1 var val d [Hnd [Hin Hw]] Hun Hd Hval.
      apply unassigned_In in Hun. destruct Hun as [Hkey Hopen].
      rewrite K2 in Hkey.
      rewrite dict_set_fresh by assumption.
      unfold dict_keys in *. rewrite map_app. cbn [map fst].
      split; [|split].
      + apply NoDup_app; [assumption | repeat constructor; intros [] |].
        intros v Hv [<-|[]]. now apply Hopen.
      + intros v Hv. apply in_app_or in Hv.
        destruct Hv as [Hv|[<-|[]]]; [now apply Hin | assumption].
      + intros v w Hvw. apply in_app_or in Hvw.
        destruct Hvw as [Hvw|[[= <- <-]|[]]]; [now apply (Hw v w)|].
        destruct (Hsub var d Hd) as [d1 [Hd1 Hincl]].
        rewrite Hget1, (init_get cw var Hkey) in Hd1.
        injection Hd1 as <-.
        apply Hincl in Hval. now apply filter_In in Hval.
    - split; [constructor | split; [intros v [] | intros v w []]]. }
  destruct P as [Hnd [Hin Hw]].
  split; [assumption | split; [|assumption]].
  intros v. split; [apply Hin|].
  intros Hv. destruct (Hcomplete v Hv) as [w Hg].
  now apply dict_get_some_keys with (v := w).
Qed.

Lemma solve_uses_the_word_list_witness :
  NoDup (dict_keys bee_ear) /\
  (forall v, In v (dict_keys bee_ear) <-> In v (variables cw_bee)) /\
  (forall v w, In (v, w) bee_ear -> In w (words cw_bee)).
Proof.
  apply (solve_uses_the_word_list cw_bee bee_ear
           (snd (solve cw_bee (init cw_bee)))).
  vm_compute. reflexivity.
Defined.

(** X13: [solve] raises nothing.  On a puzzle whose overlaps are positions
    in the words of the two variables, [solve] returns (an assignment or
    [None]) without a [KeyError] or an [IndexError], with the recursion of
    [backtrack] no deeper than the number of variables plus one; at return
    [self.domains] is what node consistency and [ac3] have left. *)
Theorem solve_returns (cw : Crossword) :
  overlaps_in_range cw ->
  exists r s',
    solve cw (init cw) = (Val r, s') /\
    domains s' = domains (propagated cw).
Proof.
  intros Hrange.
  destruct (propagation_spec cw)
    as [D1 [o [s2 [H1 [_ [Hnc1 [K1 [H2 [Hfuel [_ [K2 [Hnc2 _]]]]]]]]]]]].
  assert (Hp : propagated cw = s2).
  { unfold propagated. rewrite H1. cbn [snd]. now rewrite H2. }
  assert (Hexn : forall e, o <> Exn e).
  { intros e He.
    apply (ac3_loop_total cw Hrange (ac3_fuel cw D1 (all_arcs D1)) (all_arcs D1)
             (mkState D1 0) Hnc1) with (e := e).
    - intros v Hv. apply dict_get_keys. cbn [domains]. now rewrite K1.
    - intros x y Hxy. apply all_arcs_In in Hxy. cbn [domains] in Hxy.
      rewrite K1 in Hxy. tauto.
    - change (fst (ac3 cw None (mkState D1 0)) = Exn e).
      rewrite H2. exact He. }
  destruct o as [b|e|]; [|now destruct (Hexn e) | contradiction].
  destruct (backtrack_total cw Hrange (domains s2)) with
    (fuel := S (List.length (domains s2))) (a := @nil (Var * word)) (s := s2)
    as [r [s3 Hb]].
  - rewrite K2. apply incl_refl.
  - intros v Hv. apply dict_get_keys. now rewrite K2.
  - assumption.
  - reflexivity.
  - intros v w [].
  - intros v [].
  - unfold unassigned, dict_keys.
    pose proof (filter_length_le (fun v => negb (dict_mem v (@nil (Var * word))))
                                 (map fst (domains s2))) as Hle.
    rewrite length_map in Hle. lia.
  - exists (result_of r), s3. split.
    + rewrite solve_unfold, H1, H2, Hb. reflexivity.
    + rewrite Hp.
      pose proof (proj1 (backtrack_restores cw (S (List.length (domains s2))) [] s2))
        as Hd.
      rewrite Hb in Hd. exact Hd.
Qed.

Lemma solve_returns_witness :
  exists r s',
    solve cw_gate (init cw_gate) = (Val r, s') /\
    domains s' = domains (propagated cw_gate).
Proof.
  apply (solve_returns cw_gate).
  intros x y i j _ _ _. unfold cw_gate, overlaps.
  destruct (crossing bar left_post 0 0 x y) as [[i' j']|] eqn:E1.
  - intros [= <- <-]. unfold crossing in E1.
    destruct (Var_eq_dec x bar) as [->|].
    + destruct (Var_eq_dec y left_post) as [->|]; [|discriminate].
      injection E1 as <- <-. simpl. lia.
    + destruct (Var_eq_dec x left_post) as [->|]; [|discriminate].
      destruct (Var_eq_dec y bar) as [->|]; [|discriminate].
      injection E1 as <- <-. simpl. lia.
  - unfold crossing.
    destruct (Var_eq_dec x bar) as [->|].
    + destruct (Var_eq_dec y right_post) as [->|]; [|discriminate].
      intros [= <- <-]. simpl. lia.
    + destruct (Var_eq_dec x right_post) as [->|]; [|discriminate].
      destruct (Var_eq_dec y bar) as [->|]; [|discriminate].
      intros [= <- <-]. simpl. lia.
Defined.

(** ** The cells of the grid *)

Lemma last_write_app ws1 ws2 r c :
  last_write (ws1 ++ ws2) r c
  = match last_write ws2 r c with
    | Some y => Some y
    | None => last_write ws1 r c
    end.
Proof.
  induction ws1 as [|[[r' c'] x] ws1 IH]; cbn [app last_write].
  - now destruct (last_write ws2 r c).
  - rewrite IH. now destruct (last_write ws2 r c).
Qed.

Lemma last_write_In ws r c x :
  last_write ws r c = Some x -> In (r, c, x) ws.
Proof.
  induction ws as [|[[r' c'] y] ws IH]; cbn [last_write]; [discriminate|].
  destruct (last_write ws r c) as [z|].
  - intros [= ->]. right. now apply IH.
  - destruct (Nat.eqb_spec r' r) as [->|]; [|discriminate].
    destruct (Nat.eqb_spec c' c) as [->|]; [|discriminate].
    intros [= ->]. now left.
Qed.

Lemma last_write_None ws r c x :
  last_write ws r c = None -> ~ In (r, c, x) ws.
Proof.
  induction ws as [|[[r' c'] y] ws IH]; cbn [last_write]; [intros _ []|].
  destruct (last_write ws r c) as [z|]; [discriminate|].
  intros H [[= -> -> ->]|Hin]; [|now apply IH].
  rewrite !Nat.eqb_refl in H. discriminate.
Qed.

Lemma letters_of_In (a : Assignment) r c x :
  In (r, c, x) (letters_of a) <-> letter_at a r c x.
Proof.
  unfold letters_of, letter_at, word_letters. rewrite in_flat_map. split.
  - intros [[v word] [Hin Hl]]. cbn [fst snd] in Hl.
    apply in_flat_map in Hl. destruct Hl as [k [_ Hk]].
    destruct (String.get k word) as [y|] eqn:G; [|destruct Hk].
    destruct Hk as [[= Hc ->]|[]]. exists v, word, k. auto.
  - intros [v [word [k [Hin [G Hc]]]]]. exists (v, word).
    split; [assumption|]. cbn [fst snd]. apply in_flat_map. exists k. split.
    + apply in_seq. apply get_some_range in G. lia.
    + rewrite G, Hc. now left.
Qed.

Section GridCells.
Variables h w : nat.

Lemma set_cell_exact (g g' : Grid) i j x :
  rect h w g -> set_cell g i j x = Val g' ->
  rect h w g' /\
  forall r c, grid_get g' r c
              = if Nat.eqb i r && Nat.eqb j c then Some (Some x)
                else grid_get g r c.
Proof.
  intros Hrect Hset.
  destruct (set_cell_spec h w g i j x Hrect) as [Hin Hout].
  assert (Hb : i < h /\ j < w).
  { destruct (Nat.lt_ge_cases i h); [destruct (Nat.lt_ge_cases j w); [tauto|]|];
      rewrite Hout in Hset by lia; discriminate. }
  destruct (Hin Hb) as [g1 [E [Hrect1 [Hget Hoth]]]].
  rewrite E in Hset. injection Hset as <-.
  split; [assumption|]. intros r c.
  destruct (Nat.eqb_spec i r) as [<-|Hr]; cbn [andb].
  - destruct (Nat.eqb_spec j c) as [<-|Hc]; [assumption|].
    apply Hoth. congruence.
  - apply Hoth. congruence.
Qed.

Lemma write_word_exact v (word : word) : forall ks (g g' : Grid),
  rect h w g -> write_word v word ks g = Val g' ->
  rect h w g' /\
  forall r c, grid_get g' r c
              = match last_write (word_letters v word ks) r c with
                | Some x => Some (Some x)
                | None => grid_get g r c
                end.
Proof.
  induction ks as [|k ks IH]; intros g g' Hrect.
  - cbn [write_word]. intros [= <-]. split; [assumption | reflexivity].
  - cbn [write_word]. unfold index.
    destruct (String.get k word) as [x|] eqn:G; [|discriminate].
    cbn [obind].
    assert (Hcell : (var_i v + match var_direction v with DOWN => k | ACROSS => 0 end,
                     var_j v + match var_direction v with ACROSS => k | DOWN => 0 end)
                    = cell v k).
    { unfold cell. destruct (var_direction v); now rewrite Nat.add_0_r. }
    set (i := var_i v + match var_direction v with DOWN => k | ACROSS => 0 end) in *.
    set (j := var_j v + match var_direction v with ACROSS => k | DOWN => 0 end) in *.
    destruct (set_cell g i j x) as [g1|e|] eqn:E; try discriminate.
    cbn [obind]. intros Hrun.
    destruct (set_cell_exact g g1 i j x Hrect E) as [Hrect1 H1].
    destruct (IH g1 g' Hrect1 Hrun) as [Hrect' H'].
    split; [assumption|]. intros r c.
    cbn [word_letters flat_map]. rewrite G, <- Hcell.
    change (flat_map _ ks) with (word_letters v word ks).
    cbn [app last_write]. rewrite H', H1.
    destruct (last_write (word_letters v word ks) r c); [reflexivity|].
    now destruct (Nat.eqb i r && Nat.eqb j c).
Qed.

Lemma write_items_exact : forall (items : list (Var * word)) (g g' : Grid),
  rect h w g -> write_items items g = Val g' ->
  forall r c, grid_get g' r c
              = match last_write (letters_of items) r c with
                | Some x => Some (Some x)
                | None => grid_get g r c
                end.
Proof.
  induction items as [|[v word] items IH]; intros g g' Hrect.
  - cbn [write_items]. intros [= <-]. reflexivity.
  - cbn [write_items].
    destruct (write_word v word (seq 0 (String.length word)) g) as [g1|e|] eqn:E;
      try discriminate.
    cbn [obind]. intros Hrun r c.
    destruct (write_word_exact v word _ g g1 Hrect E) as [Hrect1 H1].
    rewrite (IH g1 g' Hrect1 Hrun).
    cbn [letters_of flat_map fst snd].
    change (flat_map _ items) with (letters_of items).
    rewrite last_write_app, H1.
    now destruct (last_write (letters_of items) r c).
Qed.
End GridCells.

(** X14: the subscripts of [letter_grid].  When the cell of every letter of
    every word of the assignment is in the grid, [letter_grid] returns a
    grid of [height] rows of [width] cells; when some letter has its cell
    outside the grid, it raises [IndexError]. *)
Theorem letter_grid_bounds (height width : nat) (a : Assignment) :
  ((forall v word k, In (v, word) a -> k < String.length word ->
                     in_grid height width (cell v k)) ->
   exists g, letter_grid height width a = Val g /\ rect height width g) /\
  ((exists v word k, In (v, word) a /\ k < String.length word /\
                     ~ in_grid height width (cell v k)) ->
   letter_grid height width a = Exn IndexError).
Proof.
  pose proof (write_items_spec height width a _ (rect_blank height width)) as H.
  unfold letter_grid. cbv zeta.
  destruct (write_items a (repeat (repeat None width) height)) as [g|e|].
  - destruct H as [Hrect Hin]. split; [eauto|].
    intros [v [word [k [Hv [Hk Hout]]]]]. destruct Hout. now apply (Hin v word).
  - destruct H as [-> [v [word [k [Hv [Hk Hout]]]]]]. split; [|reflexivity].
    intros Hin. destruct Hout. now apply (Hin v word).
  - destruct H.
Qed.

Lemma letter_grid_bounds_witness :
  (exists g, letter_grid 3 3 bee_ear = Val g /\ rect 3 3 g) /\
  letter_grid 3 2 bee_ear = Exn IndexError.
Proof.
  split.
  - apply (proj1 (letter_grid_bounds 3 3 bee_ear)).
    intros v word k [[= <- <-]|[[= <- <-]|[]]] Hk; simpl in Hk;
      unfold in_grid, cell; simpl; lia.
  - apply (proj2 (letter_grid_bounds 3 2 bee_ear)).
    exists bee_across, "bee"%string, 2.
    split; [now left | split; [simpl; lia|]].
    unfold in_grid, cell. simpl. lia.
Defined.

(** X15: the cells of the grid that [letter_grid] returns.  A cell of the
    grid holds the letter written to it last, in the order of the items of
    the assignment and of the letters of a word, and [None] when nothing
    was written to it: it holds a letter only when some assigned word has
    that letter at the cell, and [None] exactly when no assigned word
    covers the cell. *)
Theorem letter_grid_cells (height width : nat) (a : Assignment) (g : Grid) :
  letter_grid height width a = Val g ->
  forall r c, r < height -> c < width ->
    grid_get g r c = Some (last_write (letters_of a) r c) /\
    (forall x, grid_get g r c = Some (Some x) -> letter_at a r c x) /\
    (grid_get g r c = Some None <-> forall x, ~ letter_at a r c x).
Proof.
  intros Hrun r c Hr Hc.
  pose proof (write_items_exact height width a _ g
                (rect_blank height width) Hrun r c) as H.
  rewrite (grid_get_blank height width r c Hr Hc) in H.
  assert (E : grid_get g r c = Some (last_write (letters_of a) r c))
    by (rewrite H; now destruct (last_write (letters_of a) r c)).
  split; [exact E | split; [|split]].
  - intros x Hx. rewrite E in Hx. injection Hx as Hx.
    apply letters_of_In. now apply last_write_In.
  - intros Hn x Hat. rewrite E in Hn. injection Hn as Hn.
    apply letters_of_In in Hat. now apply (last_write_None _ _ _ x Hn).
  - intros Hno. rewrite E. f_equal.
    destruct (last_write (letters_of a) r c) as [x|] eqn:L; [|reflexivity].
    destruct (Hno x). apply letters_of_In. now apply last_write_In.
Qed.

Lemma letter_grid_cells_witness :
  grid_get bee_grid 1 1 = Some (last_write (letters_of bee_ear) 1 1) /\
  (forall x, grid_get bee_grid 1 1 = Some (Some x) -> letter_at bee_ear 1 1 x) /\
  (grid_get bee_grid 1 1 = Some None <-> forall x, ~ letter_at bee_ear 1 1 x).
Proof.
  apply (letter_grid_cells 3 3 bee_ear bee_grid).
  - vm_compute. reflexivity.
  - lia.
  - lia.
Defined.
